(** * Color-Converter: the colour-token pipeline of [services/colorConverter.ts]

    A shallow embedding of [convertCssColors] and of the functions it calls:
    the scanning pattern [COLOR_REGEX], the four notation parsers, the
    colour-space conversions and the formatters.

    - JavaScript strings are lists of characters.  The model covers texts
      whose code units are below 256 (Latin-1); [toLowerCase], [trim] and
      the class [\s] are given for that range.
    - JavaScript numbers are IEEE-754 binary64 values, [spec_float] with
      precision 53 and maximal exponent 1024, with the arithmetic of
      [SpecFloat].  [Math.pow], [Math.cos], [Math.sin], [Math.cbrt] and
      [Math.atan2], whose results the language leaves to the implementation,
      are parameters of the oklch conversions.
    - Regular expressions are terms of a small syntax, run by a backtracking
      matcher that follows the priorities of the ECMAScript matcher
      (leftmost alternative first, greedy repetition, captures).
    - Exceptions are values of [result]; the [try]/[catch] of the replace
      callback is [catch_with]. *)

From Stdlib Require Import String.
From Stdlib Require Import List Ascii ZArith Bool Lia Arith.
From Stdlib Require Import Floats.SpecFloat.
Import ListNotations.

(** ** Characters and strings *)

Module Str.

Definition t := list ascii.

(** String literals of the source. *)
Definition lit (s : String.string) : t := String.list_ascii_of_string s.

Definition code (a : ascii) : N := N_of_ascii a.

Definition between (lo hi : N) (a : ascii) : bool :=
  (N.leb lo (code a) && N.leb (code a) hi)%bool.

Definition is_digit : ascii -> bool := between 48 57.

Definition is_hex_digit (a : ascii) : bool :=
  (is_digit a || between 97 102 a || between 65 70 a)%bool.

(** [\s] (and the characters [trim] strips) below code 256: TAB, LF, VT,
    FF, CR, SPACE and NO-BREAK SPACE. *)
Definition is_space (a : ascii) : bool :=
  (between 9 13 a || N.eqb (code a) 32 || N.eqb (code a) 160)%bool.

(** [toLowerCase] on one Latin-1 character: A-Z, and the accented capitals
    U+00C0..U+00DE except the multiplication sign U+00D7. *)
Definition lower_char (a : ascii) : ascii :=
  if (between 65 90 a
      || (between 192 222 a && negb (N.eqb (code a) 215)))%bool
  then ascii_of_N (code a + 32) else a.

Definition toLowerCase (s : t) : t := map lower_char s.

Fixpoint trimStart (s : t) : t :=
  match s with
  | a :: s' => if is_space a then trimStart s' else s
  | [] => []
  end.

Definition trim (s : t) : t := rev (trimStart (rev (trimStart s))).

Fixpoint strip_prefix (p s : t) : option t :=
  match p, s with
  | [], _ => Some s
  | a :: p', b :: s' => if Ascii.eqb a b then strip_prefix p' s' else None
  | _ :: _, [] => None
  end.

Definition startsWith (s p : t) : bool :=
  match strip_prefix p s with Some _ => true | None => false end.

Fixpoint eqb (a b : t) : bool :=
  match a, b with
  | [], [] => true
  | x :: a', y :: b' => (Ascii.eqb x y && eqb a' b')%bool
  | _, _ => false
  end.

Definition endsWith (s p : t) : bool :=
  (Nat.leb (length p) (length s)
   && eqb (skipn (length s - length p) s) p)%bool.

(** [s.substring(i, j)] for [i <= j]. *)
Definition substring (i j : nat) (s : t) : t := firstn (j - i) (skipn i s).

(** [s.padStart(n, c)] with a one-character filler. *)
Definition padStart (n : nat) (c : ascii) (s : t) : t :=
  repeat c (n - length s) ++ s.

End Str.

Notation "$ s" := (Str.lit s%string) (at level 1, s at level 0, only parsing).

(** ** Exceptions *)

Inductive exn : Type := RangeError.

Inductive result (A : Type) : Type :=
| Ok (a : A)
| Throw (e : exn).

Arguments Ok {A} a.
Arguments Throw {A} e.

Definition bind {A B : Type} (x : result A) (f : A -> result B) : result B :=
  match x with
  | Ok a => f a
  | Throw e => Throw e
  end.

Notation "'let*' x ':=' e 'in' k" := (bind e (fun x => k))
  (at level 10, x name, e at level 100, k at level 200).

(** [try { body } catch (e) { handler }] *)
Definition catch_with {A : Type} (body : result A) (handler : exn -> A) : A :=
  match body with
  | Ok a => a
  | Throw e => handler e
  end.

(** ** Numbers *)

Module Num.

Local Open Scope Z_scope.

Definition prec : Z := 53.
Definition emax : Z := 1024.

Definition t : Type := spec_float.

Definition nan : t := S754_nan.
Definition zero : t := S754_zero false.

(** The number nearest to an integer. *)
Definition of_Z (z : Z) : t := binary_normalize prec emax z 0 false.

Definition add : t -> t -> t := SFadd prec emax.
Definition sub : t -> t -> t := SFsub prec emax.
Definition mul : t -> t -> t := SFmul prec emax.
Definition div : t -> t -> t := SFdiv prec emax.
Definition sqrt : t -> t := SFsqrt prec emax.
Definition neg : t -> t := SFopp.
Definition abs : t -> t := SFabs.

Definition ltb : t -> t -> bool := SFltb.
Definition leb : t -> t -> bool := SFleb.
Definition eqb : t -> t -> bool := SFeqb.     (* === on numbers *)

Definition is_nan (x : t) : bool :=
  match x with S754_nan => true | _ => false end.

Definition is_finite (x : t) : bool :=
  match x with S754_zero _ | S754_finite _ _ _ => true | _ => false end.

Definition sign_bit (x : t) : bool :=
  match x with
  | S754_zero s | S754_infinity s | S754_finite s _ _ => s
  | S754_nan => false
  end.

(** The number nearest to [n * 10^e], for [n >= 0]: the value of a decimal
    literal with digits [n] and exponent [e].  The quotient of the two
    exact integers is rounded once. *)
Definition of_decimal (n e : Z) : t :=
  match n with
  | Zpos p =>
    if 0 <=? e then of_Z (n * 10 ^ e)
    else div (S754_finite false p 0)
             (S754_finite false (Z.to_pos (10 ^ (- e))) 0)
  | _ => zero
  end.

(** *** Reading numbers *)

Definition digit_of (radix : Z) (a : ascii) : option Z :=
  let c := Z.of_N (Str.code a) in
  let v := if Str.is_digit a then Some (c - 48)
           else if Str.between 97 122 a then Some (c - 87)
           else if Str.between 65 90 a then Some (c - 55)
           else None in
  match v with
  | Some d => if d <? radix then Some d else None
  | None => None
  end.

(** The value of the longest prefix of digits, [None] when it is empty. *)
Fixpoint digits_prefix (radix : Z) (s : Str.t) (acc : option Z) : option Z :=
  match s with
  | a :: s' =>
    match digit_of radix a with
    | Some d =>
      digits_prefix radix s'
        (Some (radix * match acc with Some n => n | None => 0 end + d))
    | None => acc
    end
  | [] => acc
  end.

Definition split_sign (s : Str.t) : bool * Str.t :=
  match s with
  | "-"%char :: r => (true, r)
  | "+"%char :: r => (false, r)
  | _ => (false, s)
  end.

(** [parseInt(s, radix)] for radix 10 or 16. *)
Definition parseInt (s : Str.t) (radix : Z) : t :=
  let (sg, s2) := split_sign (Str.trimStart s) in
  let s3 := if radix =? 16
            then match s2 with
                 | "0"%char :: "x"%char :: r => r
                 | "0"%char :: "X"%char :: r => r
                 | _ => s2
                 end
            else s2 in
  match digits_prefix radix s3 None with
  | None => nan
  | Some n => if n =? 0 then S754_zero sg else of_Z (if sg then - n else n)
  end.

Fixpoint take_digits (s : Str.t) : Str.t * Str.t :=
  match s with
  | a :: s' =>
    if Str.is_digit a
    then let (d, r) := take_digits s' in (a :: d, r)
    else ([], s)
  | [] => ([], [])
  end.

Definition digits_val (s : Str.t) : Z :=
  match digits_prefix 10 s None with Some n => n | None => 0 end.

(** The exponent part of a decimal literal, 0 when there is none. *)
Definition exponent_part (s : Str.t) : Z :=
  match s with
  | a :: r =>
    if (Ascii.eqb a "e" || Ascii.eqb a "E")%bool then
      let (sg, r') := split_sign r in
      match fst (take_digits r') with
      | [] => 0
      | d => if sg then - digits_val d else digits_val d
      end
    else 0
  | [] => 0
  end.

(** [parseFloat(s)]: the longest prefix of [s] that is a decimal literal. *)
Definition parseFloat (s : Str.t) : t :=
  let (sg, s2) := split_sign (Str.trimStart s) in
  if Str.startsWith s2 (Str.lit "Infinity") then S754_infinity sg else
  let (ip, r1) := take_digits s2 in
  let (fp, r2) := match r1 with
                  | "."%char :: r => take_digits r
                  | _ => ([], r1)
                  end in
  match ip ++ fp with
  | [] => nan
  | ds =>
    let n := digits_val ds in
    if n =? 0 then S754_zero sg
    else
      let x := of_decimal n (exponent_part r2 - Z.of_nat (length fp)) in
      if sg then neg x else x
  end.

(** A numeric literal of the source. *)
Definition lit (s : String.string) : t := parseFloat (Str.lit s).

(** *** Math *)

(** [Math.round]: the nearest integer, ties towards +Infinity; a result
    between -0.5 and 0 is -0. *)
Definition round (x : t) : t :=
  match x with
  | S754_finite s m e =>
    if 0 <=? e then x
    else
      let v := cond_Zopp s (Zpos m) in
      let n := (2 * v + 2 ^ (- e)) / 2 ^ (- e + 1) in
      if n =? 0 then S754_zero s else of_Z n
  | _ => x
  end.

(** [Math.max] and [Math.min] of two numbers: NaN when either is NaN, and
    +0 is larger than -0. *)
Definition max (x y : t) : t :=
  match SFcompare x y with
  | None => nan
  | Some Gt => x
  | Some Lt => y
  | Some Eq => if sign_bit x then y else x
  end.

Definition min (x y : t) : t :=
  match SFcompare x y with
  | None => nan
  | Some Lt => x
  | Some Gt => y
  | Some Eq => if sign_bit x then x else y
  end.

(** The remainder [x % y]: exact, with the sign of [x]. *)
Definition rem (x y : t) : t :=
  match x, y with
  | S754_nan, _ | _, S754_nan => nan
  | S754_infinity _, _ => nan
  | _, S754_zero _ => nan
  | S754_zero _, _ => x
  | _, S754_infinity _ => x
  | S754_finite sx mx ex, S754_finite _ my ey =>
    let e := Z.min ex ey in
    let r := (Zpos mx * 2 ^ (ex - e)) mod (Zpos my * 2 ^ (ey - e)) in
    if r =? 0 then S754_zero sx
    else binary_normalize prec emax (cond_Zopp sx r) e false
  end.

(** *** Writing numbers *)

Definition digit_char (d : Z) : ascii :=
  ascii_of_N (Z.to_N (if d <? 10 then 48 + d else 87 + d)).

Fixpoint digits_fuel (fuel : nat) (radix n : Z) (acc : Str.t) : Str.t :=
  match fuel with
  | O => acc
  | S f =>
    let acc' := digit_char (n mod radix) :: acc in
    if n / radix =? 0 then acc' else digits_fuel f radix (n / radix) acc'
  end.

(** The digits of [n >= 0] in a radix, most significant first. *)
Definition Z_digits (radix n : Z) : Str.t :=
  digits_fuel (S (Z.to_nat (Z.log2 n))) radix n [].

Definition zeros (n : Z) : Str.t := repeat "0"%char (Z.to_nat n).

(** [m * 2^e] compared with [10^n], as exact rationals. *)
Definition cmp_pow10 (m e n : Z) : comparison :=
  (m * 2 ^ Z.max e 0 * 10 ^ Z.max (- n) 0
   ?= 10 ^ Z.max n 0 * 2 ^ Z.max (- e) 0).

Fixpoint up_exponent (fuel : nat) (m e n : Z) : Z :=
  match fuel with
  | O => n
  | S f =>
    match cmp_pow10 m e n with
    | Lt => n
    | _ => up_exponent f m e (n + 1)
    end
  end.

(** The least [n] with [m * 2^e < 10^n]. *)
Definition dec_exponent (m e : Z) : Z :=
  let b := Z.log2 m + e in
  let n0 := if 0 <=? b then b * 30102 / 100000 else b * 30103 / 100000 in
  up_exponent 8 m e (n0 + 1).

(** [floor (m * 2^e / 10^sc)] *)
Definition floor_scaled (m e sc : Z) : Z :=
  (m * 2 ^ Z.max e 0 * 10 ^ Z.max (- sc) 0)
  / (2 ^ Z.max (- e) 0 * 10 ^ Z.max sc 0).

Definition reads_back (x : t) (s sc : Z) : bool := eqb (of_decimal s sc) x.

(** The shortest decimal [s * 10^sc] that reads back as [x = m * 2^e]:
    with [k] digits the only candidates are the two neighbours of [x]; of
    two that read back, the nearer one, and the even one on a tie. *)
Fixpoint shortest (fuel : nat) (x : t) (m e n k : Z) : Z * Z :=
  let sc := n - k in
  let lo := floor_scaled m e sc in
  match fuel with
  | O => (lo, sc)
  | S f =>
    let hi := lo + 1 in
    match reads_back x lo sc, reads_back x hi sc with
    | true, true =>
      match (2 * m * 2 ^ Z.max e 0 * 10 ^ Z.max (- sc) 0
             ?= (2 * lo + 1) * 10 ^ Z.max sc 0 * 2 ^ Z.max (- e) 0) with
      | Lt => (lo, sc)
      | Gt => (hi, sc)
      | Eq => if Z.even lo then (lo, sc) else (hi, sc)
      end
    | true, false => (lo, sc)
    | false, true => (hi, sc)
    | false, false => shortest f x m e n (k + 1)
    end
  end.

Fixpoint strip_zeros_fuel (fuel : nat) (s sc : Z) : Z * Z :=
  match fuel with
  | O => (s, sc)
  | S f =>
    if s mod 10 =? 0 then strip_zeros_fuel f (s / 10) (sc + 1) else (s, sc)
  end.

(** [Number::toString(x)] in radix 10, as used by template literals. *)
Definition toString (x : t) : Str.t :=
  match x with
  | S754_nan => Str.lit "NaN"
  | S754_zero _ => Str.lit "0"
  | S754_infinity s => (if s then Str.lit "-" else []) ++ Str.lit "Infinity"
  | S754_finite sg m e =>
    let ax := S754_finite false m e in
    let n0 := dec_exponent (Zpos m) e in
    let (s0, sc0) := shortest 17 ax (Zpos m) e n0 1 in
    let (s, sc) := strip_zeros_fuel 20 s0 sc0 in
    let ds := Z_digits 10 s in
    let k := Z.of_nat (length ds) in
    let n := sc + k in
    let body :=
      if ((k <=? n) && (n <=? 21))%bool then ds ++ zeros (n - k)
      else if ((0 <? n) && (n <=? 21))%bool then
        firstn (Z.to_nat n) ds ++ Str.lit "." ++ skipn (Z.to_nat n) ds
      else if ((-6 <? n) && (n <=? 0))%bool then
        Str.lit "0." ++ zeros (- n) ++ ds
      else
        let ex := (if 0 <=? n - 1 then Str.lit "+" else Str.lit "-")
                  ++ Z_digits 10 (Z.abs (n - 1)) in
        match ds with
        | [d] => [d] ++ Str.lit "e" ++ ex
        | d :: rest => [d] ++ Str.lit "." ++ rest ++ Str.lit "e" ++ ex
        | [] => []
        end in
    (if sg then Str.lit "-" else []) ++ body
  end.

(** [x.toString(16)] for an integral [x]; the source applies it to results
    of [Math.round] only, so fraction digits do not arise. *)
Definition toString16 (x : t) : Str.t :=
  match x with
  | S754_nan => Str.lit "NaN"
  | S754_zero _ => Str.lit "0"
  | S754_infinity s => (if s then Str.lit "-" else []) ++ Str.lit "Infinity"
  | S754_finite sg m e =>
    (if sg then Str.lit "-" else [])
    ++ Z_digits 16 (if 0 <=? e then Zpos m * 2 ^ e else Zpos m / 2 ^ (- e))
  end.

(** The integer nearest to [m * 2^e * 10^f], the larger one on a tie. *)
Definition nearest_scaled (m e f : Z) : Z :=
  if 0 <=? e then m * 2 ^ e * 10 ^ f
  else (2 * m * 10 ^ f + 2 ^ (- e)) / 2 ^ (- e + 1).

(** [n >= 0] written with its last [f] digits after a decimal point. *)
Definition point_form (n f : Z) : Str.t :=
  let ds := if n =? 0 then Str.lit "0" else Z_digits 10 n in
  if f =? 0 then ds
  else
    let ds' := zeros (f + 1 - Z.of_nat (length ds)) ++ ds in
    let k := (length ds' - Z.to_nat f)%nat in
    firstn k ds' ++ Str.lit "." ++ skipn k ds'.

(** [x.toFixed(f)]: RangeError unless [0 <= f <= 100]; for [|x| < 10^21]
    the integer nearest to [|x| * 10^f] (the larger one on a tie) written
    with [f] digits after the point, behind the sign of [x]. *)
Definition toFixed (x : t) (f : Z) : result Str.t :=
  if negb ((0 <=? f) && (f <=? 100))%bool then Throw RangeError else
  match x with
  | S754_nan => Ok (Str.lit "NaN")
  | S754_infinity _ => Ok (toString x)
  | S754_zero _ => Ok (point_form 0 f)
  | S754_finite sg m e =>
    match cmp_pow10 (Zpos m) e 21 with
    | Lt =>
      Ok ((if sg then Str.lit "-" else [])
          ++ point_form (nearest_scaled (Zpos m) e f) f)
    | _ => Ok (toString x)
    end
  end.

End Num.

(** ** Regular expressions *)

Module Regex.

(** The fragment of the ECMAScript pattern syntax the source uses.  Every
    repetition of the source is over a character class, so the repetition
    constructors take the class directly. *)
Inductive regex : Type :=
| Lit (l : Str.t)                                (* literal characters *)
| Cls (p : ascii -> bool)                        (* one character of a class *)
| Seq (r1 r2 : regex)
| Alt (r1 r2 : regex)                            (* r1|r2 *)
| Opt (r : regex)                                (* r? *)
| Rep (p : ascii -> bool) (lo : nat) (hi : option nat)  (* [p]{lo,hi}, greedy *)
| RepLazy (p : ascii -> bool)                    (* [p]*? *)
| Grp (i : nat) (r : regex)                      (* capturing group number i *)
| Eos.                                           (* $ without the m flag *)

Definition Plus (p : ascii -> bool) : regex := Rep p 1 None.
Definition Star (p : ascii -> bool) : regex := Rep p 0 None.

(** Captures: the text of each group that took part in the match. *)
Definition caps := list (nat * Str.t).

Fixpoint cap (c : caps) (i : nat) : option Str.t :=
  match c with
  | [] => None
  | (j, s) :: c' => if Nat.eqb i j then Some s else cap c' i
  end.

(** The state after a (partial) match: the text still to read and the
    captures so far. *)
Definition mstate : Type := Str.t * caps.
Definition cont : Type := Str.t -> caps -> option mstate.

Fixpoint rep_greedy (p : ascii -> bool) (lo : nat) (hi : option nat)
    (k : cont) (s : Str.t) (c : caps) {struct s} : option mstate :=
  let stop := match lo with O => k s c | S _ => None end in
  match hi with
  | Some O => stop
  | _ =>
    match s with
    | a :: s' =>
      if p a then
        match rep_greedy p (pred lo) (option_map pred hi) k s' c with
        | Some x => Some x
        | None => stop
        end
      else stop
    | [] => stop
    end
  end.

Fixpoint rep_lazy (p : ascii -> bool) (k : cont) (s : Str.t) (c : caps)
    {struct s} : option mstate :=
  match k s c with
  | Some x => Some x
  | None =>
    match s with
    | a :: s' => if p a then rep_lazy p k s' c else None
    | [] => None
    end
  end.

(** [run r k s c]: match [r] at the start of [s], then continue with [k];
    [None] when every way of matching [r] makes the continuation fail. *)
Fixpoint run (r : regex) (k : cont) (s : Str.t) (c : caps) : option mstate :=
  match r with
  | Lit l =>
    match Str.strip_prefix l s with
    | Some s' => k s' c
    | None => None
    end
  | Cls p =>
    match s with
    | a :: s' => if p a then k s' c else None
    | [] => None
    end
  | Seq r1 r2 => run r1 (run r2 k) s c
  | Alt r1 r2 =>
    match run r1 k s c with
    | Some x => Some x
    | None => run r2 k s c
    end
  | Opt r1 =>
    match run r1 k s c with
    | Some x => Some x
    | None => k s c
    end
  | Rep p lo hi => rep_greedy p lo hi k s c
  | RepLazy p => rep_lazy p k s c
  | Grp i r1 =>
    run r1 (fun s' c' =>
              k s' ((i, firstn (length s - length s') s) :: c')) s c
  | Eos =>
    match s with
    | [] => k [] c
    | _ :: _ => None
    end
  end.

Definition accept : cont := fun s c => Some (s, c).

(** A match of [r] starting at the first character of [s]: the rest of the
    text after the match, and the captures. *)
Definition match_at (r : regex) (s : Str.t) : option mstate :=
  run r accept s [].

(** The text a match at the start of [s] covers, given what is left. *)
Definition matched (s rest : Str.t) : Str.t :=
  firstn (length s - length rest) s.

(** [s.match(r)] for a pattern without the g flag: the leftmost match. *)
Fixpoint search (r : regex) (s : Str.t) : option caps :=
  match match_at r s with
  | Some (_, c) => Some c
  | None =>
    match s with
    | [] => None
    | _ :: s' => search r s'
    end
  end.

(** [s.replace(r, f)] for a pattern without the g flag: the leftmost match
    is replaced by [f captures]. *)
Fixpoint replace_first (r : regex) (f : caps -> Str.t) (s : Str.t) : Str.t :=
  match match_at r s with
  | Some (rest, c) => f c ++ rest
  | None =>
    match s with
    | [] => []
    | a :: s' => a :: replace_first r f s'
    end
  end.

(** The pieces a global scan cuts a text into: characters outside every
    match, and the matched tokens, in the order of the text. *)
Inductive piece : Type :=
| Text (a : ascii)
| Token (m : Str.t).

(** The scan of [s.replace(r, callback)] for a pattern with the g flag.
    [skip] counts the characters of the current match still to pass over;
    the next match is looked for where the previous one ended (one
    character further after an empty match). *)
Fixpoint pieces (r : regex) (skip : nat) (s : Str.t) : list piece :=
  match s with
  | [] =>
    match skip, match_at r [] with
    | O, Some _ => [Token []]
    | _, _ => []
    end
  | a :: s' =>
    match skip with
    | S n => pieces r n s'
    | O =>
      match match_at r s with
      | Some (rest, _) =>
        match length s - length rest with
        | O => Token [] :: Text a :: pieces r 0 s'
        | S n => Token (matched s rest) :: pieces r n s'
        end
      | None => Text a :: pieces r 0 s'
      end
    end
  end.

Definition scan (r : regex) (s : Str.t) : list piece := pieces r 0 s.

(** The source text of a piece, and the text a callback puts in its place. *)
Definition piece_src (p : piece) : Str.t :=
  match p with
  | Text a => [a]
  | Token m => m
  end.

Definition piece_out (f : Str.t -> Str.t) (p : piece) : Str.t :=
  match p with
  | Text a => [a]
  | Token m => f m
  end.

(** [s.replace(r, f)] for a pattern with the g flag and a callback that
    reads the matched text only. *)
Definition replace_all (r : regex) (f : Str.t -> Str.t) (s : Str.t) : Str.t :=
  concat (map (piece_out f) (scan r s)).

(** The words a pattern can cover, whatever follows them: the declarative
    reading of the syntax ([$] covers the empty word). *)
Fixpoint lang (r : regex) (w : Str.t) : Prop :=
  match r with
  | Lit l => w = l
  | Cls p => exists a, w = [a] /\ p a = true
  | Seq r1 r2 => exists u v, w = u ++ v /\ lang r1 u /\ lang r2 v
  | Alt r1 r2 => lang r1 w \/ lang r2 w
  | Opt r1 => w = [] \/ lang r1 w
  | Rep p lo hi =>
    Forall (fun a => p a = true) w /\ lo <= length w
    /\ match hi with Some n => length w <= n | None => True end
  | RepLazy p => Forall (fun a => p a = true) w
  | Grp _ r1 => lang r1 w
  | Eos => w = []
  end.

(** A text on which a repetition over [p] cannot go on. *)
Definition stops (p : ascii -> bool) (s : Str.t) : Prop :=
  match s with
  | [] => True
  | a :: _ => p a = false
  end.

End Regex.

Import Regex.

(** ** The scanning pattern *)

Definition not_rparen (a : ascii) : bool := negb (Ascii.eqb a ")"%char).
Definition is_char (x : ascii) (a : ascii) : bool := Ascii.eqb a x.

(** [/(hsl(a?)\([^\)]+\))|(rgb(a?)\([^\)]+\))|(#[a-fA-F0-9]{3,8})|(oklch\([^\)]+\))/g] *)
Definition COLOR_REGEX : regex :=
  Alt (Grp 1 (Seq (Lit $"hsl") (Seq (Grp 2 (Opt (Lit $"a")))
         (Seq (Lit $"(") (Seq (Plus not_rparen) (Lit $")"))))))
 (Alt (Grp 3 (Seq (Lit $"rgb") (Seq (Grp 4 (Opt (Lit $"a")))
         (Seq (Lit $"(") (Seq (Plus not_rparen) (Lit $")"))))))
 (Alt (Grp 5 (Seq (Lit $"#") (Rep Str.is_hex_digit 3 (Some 8))))
      (Grp 6 (Seq (Lit $"oklch(") (Seq (Plus not_rparen) (Lit $")")))))).

(** The pattern of the earlier copy of the converter
    (services/colorConverter.ts, local to [convertCssColors]):
    [/(hsl(a?)\s*\([\d\s.,%]+\))|(rgb(a?)\s*\([\d\s.,]+\))|(#[a-fA-F0-9]{3,8})/g] *)
Definition hsl_argument_char (a : ascii) : bool :=
  (Str.is_digit a || Str.is_space a || is_char "." a || is_char "," a
   || is_char "%" a)%bool.
Definition rgb_argument_char (a : ascii) : bool :=
  (Str.is_digit a || Str.is_space a || is_char "." a || is_char "," a)%bool.

Definition colorRegex : regex :=
  Alt (Grp 1 (Seq (Lit $"hsl") (Seq (Grp 2 (Opt (Lit $"a")))
         (Seq (Star Str.is_space)
            (Seq (Lit $"(") (Seq (Plus hsl_argument_char) (Lit $")")))))))
 (Alt (Grp 3 (Seq (Lit $"rgb") (Seq (Grp 4 (Opt (Lit $"a")))
         (Seq (Star Str.is_space)
            (Seq (Lit $"(") (Seq (Plus rgb_argument_char) (Lit $")")))))))
      (Grp 5 (Seq (Lit $"#") (Rep Str.is_hex_digit 3 (Some 8))))).

(** ** Data model *)

Module RGB.
Record t : Type := mk { r : Num.t; g : Num.t; b : Num.t; a : option Num.t }.
End RGB.

Module HSL.
Record t : Type := mk { h : Num.t; s : Num.t; l : Num.t; a : option Num.t }.
End HSL.

Module Oklch.
Record t : Type := mk { L : Num.t; C : Num.t; h : Num.t; a : option Num.t }.
End Oklch.

Module Oklab.
Record t : Type := mk { L : Num.t; a : Num.t; b : Num.t }.
End Oklab.

Module XYZ.
Record t : Type := mk { x : Num.t; y : Num.t; z : Num.t }.
End XYZ.

(** [options.format] is a string at run time; [ColorFormat] names four. *)
Record ConvertOptions : Type :=
  { format : Str.t; useCssSyntax : bool }.

(** ** Patterns of the parsers and formatters *)

Notation "a -:- b" := (Seq a b) (at level 60, right associativity).

Definition comma_or_space (a : ascii) : bool :=
  (is_char "," a || Str.is_space a)%bool.
Definition comma_qmark_or_space (a : ascii) : bool :=
  (is_char "," a || is_char "?" a || Str.is_space a)%bool.
Definition comma_or_slash (a : ascii) : bool :=
  (is_char "," a || is_char "/" a)%bool.
Definition digit_or_dot (a : ascii) : bool :=
  (Str.is_digit a || is_char "." a)%bool.

(** [/rgba?\((\d+)[,\s]+(\d+)[,\s]+(\d+)(?:\s*[,\/]\s*([\d.]+))?\)/] *)
Definition RGB_REGEX : regex :=
  Lit $"rgb" -:- Opt (Lit $"a") -:- Lit $"("
  -:- Grp 1 (Plus Str.is_digit) -:- Plus comma_or_space
  -:- Grp 2 (Plus Str.is_digit) -:- Plus comma_or_space
  -:- Grp 3 (Plus Str.is_digit)
  -:- Opt (Star Str.is_space -:- Cls comma_or_slash -:- Star Str.is_space
           -:- Grp 4 (Plus digit_or_dot))
  -:- Lit $")".

(** [/hsla?\((\d+)(?:deg)?[,?\s]+([\d.]+)%?[,\s]+([\d.]+)%?(?:\s*[,\/]\s*([\d.]+))?\)/] *)
Definition HSL_REGEX : regex :=
  Lit $"hsl" -:- Opt (Lit $"a") -:- Lit $"("
  -:- Grp 1 (Plus Str.is_digit) -:- Opt (Lit $"deg")
  -:- Plus comma_qmark_or_space
  -:- Grp 2 (Plus digit_or_dot) -:- Opt (Lit $"%") -:- Plus comma_or_space
  -:- Grp 3 (Plus digit_or_dot) -:- Opt (Lit $"%")
  -:- Opt (Star Str.is_space -:- Cls comma_or_slash -:- Star Str.is_space
           -:- Grp 4 (Plus digit_or_dot))
  -:- Lit $")".

(** [/oklch\(\s*([\d.]+)%?\s+([\d.]+)\s+([\d.]+)(?:deg)?(?:\s*\/\s*([\d.]+%?))?\s*\)/] *)
Definition OKLCH_REGEX : regex :=
  Lit $"oklch(" -:- Star Str.is_space
  -:- Grp 1 (Plus digit_or_dot) -:- Opt (Lit $"%") -:- Plus Str.is_space
  -:- Grp 2 (Plus digit_or_dot) -:- Plus Str.is_space
  -:- Grp 3 (Plus digit_or_dot) -:- Opt (Lit $"deg")
  -:- Opt (Star Str.is_space -:- Lit $"/" -:- Star Str.is_space
           -:- Grp 4 (Plus digit_or_dot -:- Opt (Lit $"%")))
  -:- Star Str.is_space -:- Lit $")".

(** [match[i]] read as a string; an undefined group reads as the empty
    string, on which [parseInt] and [parseFloat] return NaN as they do on
    [undefined]. *)
Definition group (m : caps) (i : nat) : Str.t :=
  match cap m i with Some s => s | None => [] end.

(** [s.replace(/^p/, by)] for literal [p]. *)
Definition replace_prefix (p by_ s : Str.t) : Str.t :=
  match Str.strip_prefix p s with
  | Some rest => by_ ++ rest
  | None => s
  end.

(** [s.replace(/\.0$/, '')], [s.replace(/\.00$/, '')], [s.replace(/\.$/, '')] *)
Definition strip_dot0 : Str.t -> Str.t :=
  replace_first (Lit $".0" -:- Eos) (fun _ => []).
Definition strip_dot00 : Str.t -> Str.t :=
  replace_first (Lit $".00" -:- Eos) (fun _ => []).
Definition strip_dot : Str.t -> Str.t :=
  replace_first (Lit $"." -:- Eos) (fun _ => []).

(** [s.replace(/(\.\d*?)0+$/, '$1')] *)
Definition strip_fraction_zeros : Str.t -> Str.t :=
  replace_first
    (Grp 1 (Lit $"." -:- RepLazy Str.is_digit) -:- Plus (is_char "0") -:- Eos)
    (fun m => group m 1).

(** [s.replace(/0+$/, '')] *)
Definition strip_zeros : Str.t -> Str.t :=
  replace_first (Plus (is_char "0") -:- Eos) (fun _ => []).

(** ** The converter *)

(** The functions of [Math] whose values the language leaves to the
    implementation; the converter is defined over any choice of them. *)
Record MathLib : Type :=
  { Math_pow : Num.t -> Num.t -> Num.t;
    Math_cos : Num.t -> Num.t;
    Math_sin : Num.t -> Num.t;
    Math_cbrt : Num.t -> Num.t;
    Math_atan2 : Num.t -> Num.t -> Num.t }.

Definition Math_PI : Num.t := Num.lit "3.141592653589793".

Declare Scope num_scope.
Delimit Scope num_scope with num.

Section Converter.

Variable Math : MathLib.

Local Notation "x + y" := (Num.add x y) : num_scope.
Local Notation "x - y" := (Num.sub x y) : num_scope.
Local Notation "x * y" := (Num.mul x y) : num_scope.
Local Notation "x / y" := (Num.div x y) : num_scope.
Local Notation "x < y" := (Num.ltb x y) : num_scope.
Local Notation "x <= y" := (Num.leb x y) : num_scope.
Local Notation "x === y" := (Num.eqb x y) (at level 70) : num_scope.
Local Notation "# s" := (Num.lit s%string)
  (at level 1, s at level 0) : num_scope.
Local Open Scope num_scope.

(** *** Parsing *)

Definition hexToRgb (hex : Str.t) : option RGB.t :=
  let hex := replace_prefix $"#" [] hex in
  let hex :=
    match hex with
    | [h0; h1; h2; h3] => [h0; h0; h1; h1; h2; h2; h3; h3]
    | [h0; h1; h2] => [h0; h0; h1; h1; h2; h2]
    | _ => hex
    end in
  if (negb (Nat.eqb (length hex) 6) && negb (Nat.eqb (length hex) 8))%bool
  then None
  else
    let r := Num.parseInt (Str.substring 0 2 hex) 16 in
    let g := Num.parseInt (Str.substring 2 4 hex) 16 in
    let b := Num.parseInt (Str.substring 4 6 hex) 16 in
    if Nat.eqb (length hex) 8 then
      let a := Num.parseInt (Str.substring 6 8 hex) 16 / #"255" in
      Some (RGB.mk r g b (Some a))
    else Some (RGB.mk r g b None).

Definition rgbStringToRgb (rgbStr : Str.t) : option RGB.t :=
  match search RGB_REGEX rgbStr with
  | None => None
  | Some m =>
    Some (RGB.mk (Num.parseInt (group m 1) 10)
                 (Num.parseInt (group m 2) 10)
                 (Num.parseInt (group m 3) 10)
                 (option_map Num.parseFloat (cap m 4)))
  end.

Definition hslStringToRgb (hslStr : Str.t) : option RGB.t :=
  match search HSL_REGEX hslStr with
  | None => None
  | Some mt =>
    let h := Num.parseInt (group mt 1) 10 in
    let s := Num.parseFloat (group mt 2) / #"100" in
    let l := Num.parseFloat (group mt 3) / #"100" in
    let a := option_map Num.parseFloat (cap mt 4) in
    let c := (#"1" - Num.abs (#"2" * l - #"1")) * s in
    let x := c * (#"1" - Num.abs (Num.rem (h / #"60") #"2" - #"1")) in
    let m := l - c / #"2" in
    let '(r, g, b) :=
      if ((#"0" <= h) && (h < #"60"))%bool then (c, x, #"0")
      else if ((#"60" <= h) && (h < #"120"))%bool then (x, c, #"0")
      else if ((#"120" <= h) && (h < #"180"))%bool then (#"0", c, x)
      else if ((#"180" <= h) && (h < #"240"))%bool then (#"0", x, c)
      else if ((#"240" <= h) && (h < #"300"))%bool then (x, #"0", c)
      else if ((#"300" <= h) && (h < #"360"))%bool then (c, #"0", x)
      else (#"0", #"0", #"0") in
    Some (RGB.mk (Num.round ((r + m) * #"255"))
                 (Num.round ((g + m) * #"255"))
                 (Num.round ((b + m) * #"255"))
                 a)
  end.

(** *** Reverse conversion (oklch -> rgb) *)

Definition oklchToOklab (c : Oklch.t) : Oklab.t :=
  let rad := Oklch.h c * (Math_PI / #"180") in
  Oklab.mk (Oklch.L c)
           (Oklch.C c * Math_cos Math rad)
           (Oklch.C c * Math_sin Math rad).

Definition linearRgbToSrgb (c : Num.t) : Num.t :=
  let v := Num.max #"0" (Num.min #"1" c) in
  let srgb := if v <= #"0.0031308" then #"12.92" * v
              else #"1.055" * Math_pow Math v (#"1" / #"2.4") - #"0.055" in
  Num.round (srgb * #"255").

Definition oklchStringToRgb (oklchStr : Str.t) : option RGB.t :=
  match search OKLCH_REGEX oklchStr with
  | None => None
  | Some mt =>
    let alpha :=
      match cap mt 4 with
      | Some alphaStr =>
        if Str.endsWith alphaStr $"%"
        then Some (Num.parseFloat alphaStr / #"100.0")
        else Some (Num.parseFloat alphaStr)
      | None => None
      end in
    let oklch := Oklch.mk (Num.parseFloat (group mt 1) / #"100.0")
                          (Num.parseFloat (group mt 2))
                          (Num.parseFloat (group mt 3))
                          alpha in
    let oklab := oklchToOklab oklch in
    let l_ := Oklab.L oklab + #"0.3963377774" * Oklab.a oklab
              + #"0.2158037573" * Oklab.b oklab in
    let m_ := Oklab.L oklab - #"0.1055613458" * Oklab.a oklab
              - #"0.0638541728" * Oklab.b oklab in
    let s_ := Oklab.L oklab - #"0.0894841775" * Oklab.a oklab
              - #"1.2914855480" * Oklab.b oklab in
    let l := l_ * l_ * l_ in
    let m := m_ * m_ * m_ in
    let s := s_ * s_ * s_ in
    let lr := #"4.0767416621" * l - #"3.3077115913" * m
              + #"0.2309699292" * s in
    let lg := #"-1.2684380046" * l + #"2.6097574011" * m
              - #"0.3413193965" * s in
    let lb := #"-0.0041960863" * l - #"0.7034186147" * m
              + #"1.7076147010" * s in
    Some (RGB.mk (linearRgbToSrgb lr) (linearRgbToSrgb lg) (linearRgbToSrgb lb)
                 (Oklch.a oklch))
  end.

(** *** Conversion pipeline (rgb -> target) *)

Definition toHex (c : Num.t) : Str.t :=
  Str.padStart 2 "0" (Num.toString16 (Num.round c)).

(** [a !== undefined && a < 1] *)
Definition alpha_below_1 (a : option Num.t) : option Num.t :=
  match a with
  | Some x => if x < #"1" then Some x else None
  | None => None
  end.

Definition rgbToHex (c : RGB.t) : Str.t :=
  let hex := toHex (RGB.r c) ++ toHex (RGB.g c) ++ toHex (RGB.b c) in
  match alpha_below_1 (RGB.a c) with
  | Some a => hex ++ toHex (a * #"255")
  | None => hex
  end.

Definition rgbToHsl (c : RGB.t) : HSL.t :=
  let r := RGB.r c / #"255" in
  let g := RGB.g c / #"255" in
  let b := RGB.b c / #"255" in
  let max := Num.max (Num.max r g) b in
  let min := Num.min (Num.min r g) b in
  let l := (max + min) / #"2" in
  let chromatic := negb (max === min) in      (* max !== min *)
  let d := max - min in
  let s := if chromatic
           then if #"0.5" < l then d / (#"2" - max - min) else d / (max + min)
           else #"0" in
  let h := if chromatic
           then (if max === r then (g - b) / d + (if g < b then #"6" else #"0")
                 else if max === g then (b - r) / d + #"2"
                 else if max === b then (r - g) / d + #"4"
                 else #"0") / #"6"
           else #"0" in
  HSL.mk (h * #"360") (s * #"100") (l * #"100") (RGB.a c).

Definition srgbToLinearRgb (c : Num.t) : Num.t :=
  let v := c / #"255" in
  if v <= #"0.04045" then v / #"12.92"
  else Math_pow Math ((v + #"0.055") / #"1.055") #"2.4".

Definition linearRgbToXyz (r g b : Num.t) : XYZ.t :=
  XYZ.mk (r * #"0.4124564" + g * #"0.3575761" + b * #"0.1804375")
         (r * #"0.2126729" + g * #"0.7151522" + b * #"0.0721750")
         (r * #"0.0193339" + g * #"0.1191920" + b * #"0.9503041").

Definition xyzToOklab (x y z : Num.t) : Oklab.t :=
  let l := #"0.4122214708" * x + #"0.5363325363" * y + #"0.0514459929" * z in
  let m := #"0.2119034982" * x + #"0.6806995451" * y + #"0.1073969566" * z in
  let s := #"0.0883024619" * x + #"0.2817188376" * y + #"0.6299787005" * z in
  let l_ := Math_cbrt Math l in
  let m_ := Math_cbrt Math m in
  let s_ := Math_cbrt Math s in
  Oklab.mk (#"0.2104542553" * l_ + #"0.7936177850" * m_ - #"0.0040720468" * s_)
           (#"1.9779984951" * l_ - #"2.4285922050" * m_ + #"0.4505937099" * s_)
           (#"0.0259040371" * l_ + #"0.7827717662" * m_ - #"0.8086757660" * s_).

Definition oklabToOklch (L a b : Num.t) : Oklch.t :=
  let C := Num.sqrt (a * a + b * b) in
  let h := Math_atan2 Math b a * (#"180" / Math_PI) in
  let h := if h < #"0" then h + #"360" else h in
  Oklch.mk L C h None.

Definition rgbToOklch (rgb : RGB.t) : Oklch.t :=
  let linearR := srgbToLinearRgb (RGB.r rgb) in
  let linearG := srgbToLinearRgb (RGB.g rgb) in
  let linearB := srgbToLinearRgb (RGB.b rgb) in
  let xyz := linearRgbToXyz linearR linearG linearB in
  let oklab := xyzToOklab (XYZ.x xyz) (XYZ.y xyz) (XYZ.z xyz) in
  let oklch := oklabToOklch (Oklab.L oklab) (Oklab.a oklab) (Oklab.b oklab) in
  Oklch.mk (Oklch.L oklch) (Oklch.C oklch) (Oklch.h oklch) (RGB.a rgb).

(** *** Formatting *)

Definition formatOklch (oklch : Oklch.t) (useCssSyntax : bool)
  : result Str.t :=
  let* l0 := Num.toFixed (Oklch.L oklch * #"100") 2 in
  let l := strip_dot00 l0 in
  let* c0 := Num.toFixed (Oklch.C oklch) 4 in
  let c := strip_dot (strip_fraction_zeros c0) in
  let* h0 := Num.toFixed (Oklch.h oklch) 2 in
  let h := strip_dot00 h0 in
  let* alphaPart :=
    match alpha_below_1 (Oklch.a oklch) with
    | Some a =>
      let* a0 := Num.toFixed a 2 in
      Ok ($" / " ++ replace_prefix $"0." $"." (strip_dot (strip_zeros a0)))
    | None => Ok []
    end in
  if useCssSyntax
  then Ok ($"oklch(" ++ l ++ $"% " ++ c ++ $" " ++ h ++ alphaPart ++ $")")
  else Ok (l ++ $" " ++ c ++ $" " ++ h ++ alphaPart).

(** *** Main exported function *)

(** The dispatch on the cleaned match. *)
Definition parseToken (cleanedMatch : Str.t) : option RGB.t :=
  if Str.startsWith cleanedMatch $"#" then hexToRgb cleanedMatch
  else if Str.startsWith cleanedMatch $"rgb" then rgbStringToRgb cleanedMatch
  else if Str.startsWith cleanedMatch $"hsl" then hslStringToRgb cleanedMatch
  else if Str.startsWith cleanedMatch $"oklch"
       then oklchStringToRgb cleanedMatch
  else None.

(** [Math.max(0, Math.min(255, c))] on the three channels; alpha is copied. *)
Definition clampRgb (rgb : RGB.t) : RGB.t :=
  RGB.mk (Num.max #"0" (Num.min #"255" (RGB.r rgb)))
         (Num.max #"0" (Num.min #"255" (RGB.g rgb)))
         (Num.max #"0" (Num.min #"255" (RGB.b rgb)))
         (RGB.a rgb).

(** The [switch (options.format)] of the callback, on the clamped sample. *)
Definition formatColor (options : ConvertOptions) (rgb : RGB.t)
    (match_ : Str.t) : result Str.t :=
  let css := useCssSyntax options in
  if Str.eqb (format options) $"oklch" then
    formatOklch (rgbToOklch rgb) css
  else if Str.eqb (format options) $"hex" then
    Ok ((if css then $"#" else []) ++ rgbToHex rgb)
  else if Str.eqb (format options) $"rgb" then
    let r := Num.toString (Num.round (RGB.r rgb)) in
    let g := Num.toString (Num.round (RGB.g rgb)) in
    let b := Num.toString (Num.round (RGB.b rgb)) in
    match alpha_below_1 (RGB.a rgb) with
    | Some a0 =>
      let* t := Num.toFixed a0 2 in
      let a := Num.toString (Num.parseFloat t) in
      Ok (if css
          then $"rgba(" ++ r ++ $", " ++ g ++ $", " ++ b ++ $", " ++ a ++ $")"
          else r ++ $" " ++ g ++ $" " ++ b ++ $" / " ++ a)
    | None =>
      Ok (if css
          then $"rgb(" ++ r ++ $", " ++ g ++ $", " ++ b ++ $")"
          else r ++ $" " ++ g ++ $" " ++ b)
    end
  else if Str.eqb (format options) $"hsl" then
    let hsl := rgbToHsl rgb in
    let* h := Num.toFixed (HSL.h hsl) 0 in
    let* s0 := Num.toFixed (HSL.s hsl) 1 in
    let s := strip_dot0 s0 in
    let* l0 := Num.toFixed (HSL.l hsl) 1 in
    let l := strip_dot0 l0 in
    match alpha_below_1 (HSL.a hsl) with
    | Some a0 =>
      let* t := Num.toFixed a0 2 in
      let a := Num.toString (Num.parseFloat t) in
      Ok (if css
          then $"hsla(" ++ h ++ $", " ++ s ++ $"%, " ++ l ++ $"%, " ++ a ++ $")"
          else h ++ $" " ++ s ++ $" " ++ l ++ $" / " ++ a)
    | None =>
      Ok (if css
          then $"hsl(" ++ h ++ $", " ++ s ++ $"%, " ++ l ++ $"%)"
          else h ++ $" " ++ s ++ $" " ++ l)
    end
  else Ok match_.

(** The sample the formatter receives for a token, when its parse succeeds. *)
Definition sampleForFormatter (match_ : Str.t) : option RGB.t :=
  option_map clampRgb (parseToken (Str.trim (Str.toLowerCase match_))).

(** The [try] block of the callback. *)
Definition convertBody (options : ConvertOptions) (match_ : Str.t)
  : result Str.t :=
  match sampleForFormatter match_ with
  | None => Ok match_
  | Some rgb => formatColor options rgb match_
  end.

(** The callback of [cssString.replace(COLOR_REGEX, ...)]: the [catch]
    clause returns the match. *)
Definition convertToken (options : ConvertOptions) (match_ : Str.t) : Str.t :=
  catch_with (convertBody options match_) (fun _ => match_).

Definition convertCssColors (cssString : Str.t) (options : ConvertOptions)
  : Str.t :=
  match cssString with
  | [] => []
  | _ => replace_all COLOR_REGEX (convertToken options) cssString
  end.

End Converter.

(** A [Math] whose five functions return NaN.  It serves to run the
    converter on inputs whose conversion calls none of them. *)
Definition Math_NaN : MathLib :=
  {| Math_pow := fun _ _ => Num.nan;
     Math_cos := fun _ => Num.nan;
     Math_sin := fun _ => Num.nan;
     Math_cbrt := fun _ => Num.nan;
     Math_atan2 := fun _ _ => Num.nan |}.

(** The four formats [ColorFormat] names. *)
Definition known_format (f : Str.t) : Prop :=
  f = $"oklch" \/ f = $"hex" \/ f = $"rgb" \/ f = $"hsl".

(** The sample of a token whose alpha component is left out. *)
Definition opaque (rgb : RGB.t) : RGB.t :=
  RGB.mk (RGB.r rgb) (RGB.g rgb) (RGB.b rgb) None.

(** A channel within [0,255]. *)
Definition in_byte_range (x : Num.t) : Prop :=
  Num.leb (Num.lit "0") x = true /\ Num.leb x (Num.lit "255") = true.

(** The invariant on samples as the specification words it: the three
    channels within [0,255], and alpha, if present, finite and within
    [0,1]. *)
Definition sample_invariant (rgb : RGB.t) : Prop :=
  in_byte_range (RGB.r rgb) /\ in_byte_range (RGB.g rgb)
  /\ in_byte_range (RGB.b rgb)
  /\ forall a, RGB.a rgb = Some a ->
       Num.is_finite a = true
       /\ Num.leb (Num.lit "0") a = true /\ Num.leb a (Num.lit "1") = true.

(** The text of a colour without an alpha component, around its
    components [c], per format and syntax style. *)
Definition plain_form (options : ConvertOptions) (c : Str.t) : Str.t :=
  let css := useCssSyntax options in
  if Str.eqb (format options) $"hex" then (if css then $"#" else []) ++ c
  else if Str.eqb (format options) $"rgb" then
    if css then $"rgb(" ++ c ++ $")" else c
  else if Str.eqb (format options) $"hsl" then
    if css then $"hsl(" ++ c ++ $")" else c
  else if css then $"oklch(" ++ c ++ $")" else c.

(** The text of the same colour with the alpha component [alpha]. *)
Definition alpha_form (options : ConvertOptions) (c alpha : Str.t) : Str.t :=
  let css := useCssSyntax options in
  if Str.eqb (format options) $"hex" then
    (if css then $"#" else []) ++ c ++ alpha
  else if Str.eqb (format options) $"rgb" then
    if css then $"rgba(" ++ c ++ $", " ++ alpha ++ $")"
    else c ++ $" / " ++ alpha
  else if Str.eqb (format options) $"hsl" then
    if css then $"hsla(" ++ c ++ $", " ++ alpha ++ $")"
    else c ++ $" / " ++ alpha
  else
    if css then $"oklch(" ++ c ++ $" / " ++ alpha ++ $")"
    else c ++ $" / " ++ alpha.

(** [s] without a trailing [suffix], as the specification words the
    trimming of [.0]. *)
Definition strip_trailing (suffix s : Str.t) : Str.t :=
  if Str.endsWith s suffix then firstn (length s - length suffix) s else s.

(** The hsl formatter as the specification words it: hue with 0 decimals,
    saturation and lightness with 1 decimal and a trailing [.0] stripped;
    alpha as for rgb (present and below 1: two decimals, read back as a
    number); [hsla(h, s%, l%, a)] or [hsl(h, s%, l%)] with CSS syntax,
    [h s l / a] or [h s l] without. *)
Definition spec_format_hsl (hsl : HSL.t) (useCssSyntax : bool)
  : result Str.t :=
  let* h := Num.toFixed (HSL.h hsl) 0 in
  let* s1 := Num.toFixed (HSL.s hsl) 1 in
  let* l1 := Num.toFixed (HSL.l hsl) 1 in
  let s := strip_trailing $".0" s1 in
  let l := strip_trailing $".0" l1 in
  let with_alpha :=
    match HSL.a hsl with
    | Some a => if Num.ltb a (Num.lit "1") then Some a else None
    | None => None
    end in
  match with_alpha with
  | Some a =>
    let* a2 := Num.toFixed a 2 in
    let a := Num.toString (Num.parseFloat a2) in
    Ok (if useCssSyntax
        then $"hsla(" ++ h ++ $", " ++ s ++ $"%, " ++ l ++ $"%, " ++ a ++ $")"
        else h ++ $" " ++ s ++ $" " ++ l ++ $" / " ++ a)
  | None =>
    Ok (if useCssSyntax
        then $"hsl(" ++ h ++ $", " ++ s ++ $"%, " ++ l ++ $"%)"
        else h ++ $" " ++ s ++ $" " ++ l)
  end.

(** The keywords that open a functional token, as the pattern spells
    them. *)
Definition functional_keywords : list Str.t :=
  [ $"hsl("; $"hsla("; $"rgb("; $"rgba("; $"oklch(" ].

(** The two shapes of a token: a keyword, a non-empty argument list
    without [)] and the closing [)]; or [#] and three to eight hex digits. *)
Definition token_shape (m : Str.t) : Prop :=
  (exists kw body,
      In kw functional_keywords /\ m = kw ++ body ++ $")"
      /\ body <> [] /\ Forall (fun a => a <> ")"%char) body)
  \/ (exists ds,
         m = $"#" ++ ds /\ 3 <= length ds <= 8
         /\ Forall (fun a => Str.is_hex_digit a = true) ds).

(** The characters that separate the arguments of a functional token:
    comma, white space and slash. *)
Definition is_arg_separator (a : ascii) : bool :=
  (comma_or_space a || is_char "/" a)%bool.

(** An argument list cut at every separator. *)
Fixpoint fields (s : Str.t) : list Str.t :=
  match s with
  | [] => [[]]
  | a :: s' =>
    if is_arg_separator a then [] :: fields s'
    else match fields s' with
         | f :: fs => (a :: f) :: fs
         | [] => [[a]]
         end
  end.

Definition nonempty (s : Str.t) : bool :=
  match s with [] => false | _ :: _ => true end.

(** The arguments of a functional token: the non-empty fields of its
    argument list. *)
Definition arguments (body : Str.t) : list Str.t :=
  filter nonempty (fields body).

Definition all (p : ascii -> bool) (w : Str.t) : Prop :=
  Forall (fun a => p a = true) w.

(** The argument lists the rgb parser reads: three runs of digits
    separated by commas or white space, then nothing, or a comma or slash
    within white space and a run of digits and dots. *)
Definition rgb_arguments_shape (x : Str.t) : Prop :=
  exists d1 s1 d2 s2 d3 tail,
    x = d1 ++ s1 ++ d2 ++ s2 ++ d3 ++ tail
    /\ (d1 <> [] /\ all Str.is_digit d1)
    /\ (s1 <> [] /\ all comma_or_space s1)
    /\ (d2 <> [] /\ all Str.is_digit d2)
    /\ (s2 <> [] /\ all comma_or_space s2)
    /\ (d3 <> [] /\ all Str.is_digit d3)
    /\ (tail = []
        \/ exists w1 c w2 al,
             tail = w1 ++ [c] ++ w2 ++ al
             /\ all Str.is_space w1 /\ comma_or_slash c = true
             /\ all Str.is_space w2
             /\ al <> [] /\ all digit_or_dot al).

Definition starts_with_separator (s : Str.t) : Prop :=
  match s with [] => True | a :: _ => is_arg_separator a = true end.

Definition punctuation : list ascii := ["("; ")"; "-"; "%"; "."]%char.

Definition argument_char (a : ascii) : bool :=
  (digit_or_dot a || is_arg_separator a)%bool.

(** The clamp of one channel in the callback. *)
Definition clamp_channel (x : Num.t) : Num.t :=
  Num.max (Num.lit "0") (Num.min (Num.lit "255") x).

(** The decimal text of the channel two hex digits denote, as the rgb
    formatter writes it. *)
Definition channel_text (c1 c2 : ascii) : Str.t :=
  Num.toString (Num.round (clamp_channel
    (Num.parseInt [Str.lower_char c1; Str.lower_char c2] 16))).

Definition hex_digits : list ascii :=
  $"0123456789abcdefABCDEF".

(** The text of a channel is a run of digits, and the hex formatter
    writes the channel read from it as the two digits in lower case. *)
Definition channel_round_trips (c1 c2 : ascii) : bool :=
  let t := channel_text c1 c2 in
  (nonempty t && forallb Str.is_digit t
   && Str.eqb (toHex (clamp_channel (Num.parseInt t 10)))
              [Str.lower_char c1; Str.lower_char c2])%bool.

(** Two hex digits, read as a channel and written back by the hex
    formatter, are the two digits in lower case. *)
Definition hex_channel_kept (c1 c2 : ascii) : bool :=
  Str.eqb (toHex (clamp_channel
             (Num.parseInt [Str.lower_char c1; Str.lower_char c2] 16)))
          [Str.lower_char c1; Str.lower_char c2].

(** The alpha two hex digits denote: their value over 255. *)
Definition hex_alpha (c1 c2 : ascii) : Num.t :=
  Num.div (Num.parseInt [Str.lower_char c1; Str.lower_char c2] 16)
          (Num.lit "255").

(** The alpha pair [ff] is the only one that is not below 1; every other
    pair is written back as it was read. *)
Definition hex_alpha_kept (c1 c2 : ascii) : bool :=
  if Str.eqb [Str.lower_char c1; Str.lower_char c2] $"ff"
  then negb (Num.ltb (hex_alpha c1 c2) (Num.lit "1"))
  else (Num.ltb (hex_alpha c1 c2) (Num.lit "1")
        && Str.eqb (toHex (Num.mul (hex_alpha c1 c2) (Num.lit "255")))
                   [Str.lower_char c1; Str.lower_char c2])%bool.

(** The characters [Number::toString] and [toFixed] write. *)
Definition number_char (a : ascii) : bool :=
  existsb (Ascii.eqb a) $"0123456789.e+-NaInfity".

(** Captures whose texts are over the characters [P]. *)
Definition caps_over (P : ascii -> bool) (c : caps) : Prop :=
  Forall (fun it : nat * Str.t => all P (snd it)) c.

(** A continuation that, started on a text and captures over [P], ends
    with a rest and captures over [P]. *)
Definition keeps_chars (P : ascii -> bool) (k : cont) : Prop :=
  forall s c st, all P s -> caps_over P c -> k s c = Some st ->
                 all P (fst st) /\ caps_over P (snd st).

(** The characters of the argument list a formatter writes: those of
    numbers, and space, comma, per cent and slash. *)
Definition body_char (a : ascii) : bool :=
  (number_char a || is_char " " a || is_char "," a || is_char "%" a
   || is_char "/" a)%bool.

(** The formats whose CSS form is a functional token. *)
Definition functional_format (f : Str.t) : Prop :=
  f = $"rgb" \/ f = $"hsl" \/ f = $"oklch".

(** The same number, distinguishing +0 from -0. *)
Definition same_number (x y : Num.t) : bool :=
  match x, y with
  | S754_zero a, S754_zero b => Bool.eqb a b
  | S754_infinity a, S754_infinity b => Bool.eqb a b
  | S754_nan, S754_nan => true
  | S754_finite a m e, S754_finite b m' e' =>
    (Bool.eqb a b && Pos.eqb m m' && Z.eqb e e')%bool
  | _, _ => false
  end.

(** The integers a channel can hold. *)
Definition byte_values : list Z := map Z.of_nat (seq 0 256).

(** A channel written with two hex digits. *)
Definition two_hex (n : Z) : Str.t :=
  Str.padStart 2 "0" (Num.Z_digits 16 n).

(** For a channel value [k]: the clamp leaves it as it is, the rgb
    formatter writes its decimal digits, the hex formatter its two hex
    digits, and the decimal digits read back as [k]. *)
Definition channel_written (k : Z) : bool :=
  (same_number (clamp_channel (Num.of_Z k)) (Num.of_Z k)
   && Str.eqb (Num.toString (Num.round (Num.of_Z k))) (Num.Z_digits 10 k)
   && Str.eqb (toHex (Num.of_Z k)) (two_hex k)
   && nonempty (Num.Z_digits 10 k)
   && (Num.digits_val (Num.Z_digits 10 k) =? k)%Z)%bool.

(** The token [rgb(r g b)] with its two separators, and [rgb(r, g, b)]. *)
Definition rgb_token_with (r s1 g s2 b : Str.t) : Str.t :=
  $"rgb(" ++ r ++ s1 ++ g ++ s2 ++ b ++ $")".

Definition rgb_token (r g b : Str.t) : Str.t :=
  rgb_token_with r $", " g $", " b.

(** The value of a channel written as a run of digits, clamped at 255. *)
Definition clamped_value (digits : Str.t) : Z :=
  Z.min 255 (Num.digits_val digits).

(** The upper bounds of the hue sectors of [hslStringToRgb]. *)
Definition hue_bounds : list Num.t :=
  [Num.lit "60"; Num.lit "120"; Num.lit "180"; Num.lit "240"; Num.lit "300";
   Num.lit "360"].

(** The token [hsl(h, s%, l%)]. *)
Definition hsl_token (h s l : Str.t) : Str.t :=
  $"hsl(" ++ h ++ $", " ++ s ++ $"%, " ++ l ++ $"%)".

(** The integers from 360 up to 511. *)
Definition hues_360_511 : list Z :=
  map (fun i => 360 + Z.of_nat i)%Z (seq 0 152).

(** The token [oklch(l c h)], with or without [%] after the lightness. *)
Definition oklch_token (pct : bool) (l c h : Str.t) : Str.t :=
  $"oklch(" ++ l ++ (if pct then $"%" else []) ++ $" " ++ c ++ $" " ++ h
  ++ $")".

(** ** The editor (components/CodeEditor.tsx) *)

(** [s.split(sep)] for a one-character separator. *)
Fixpoint split (sep : ascii) (s : Str.t) : list Str.t :=
  match s with
  | [] => [[]]
  | a :: s' =>
    if Ascii.eqb a sep then [] :: split sep s'
    else match split sep s' with
         | f :: fs => (a :: f) :: fs
         | [] => [[a]]
         end
  end.

(** [xs.join(sep)] *)
Fixpoint join (sep : Str.t) (xs : list Str.t) : Str.t :=
  match xs with
  | [] => []
  | [x] => x
  | x :: xs' => x ++ sep ++ join sep xs'
  end.

Definition newline : ascii := ascii_of_nat 10.

(** [Math.max(1, value.split('\n').length)] *)
Definition lineCount (value : Str.t) : nat :=
  Nat.max 1 (length (split newline value)).

(** [Array.from({ length: lineCount }, (_, i) => i + 1).join('\n')] *)
Definition lineNumbers (lineCount : nat) : Str.t :=
  join [newline]
    (map (fun i => Num.toString
                     (Num.add (Num.of_Z (Z.of_nat i)) (Num.lit "1")))
         (seq 0 lineCount)).

(** The matches of a global scan with the index each starts at:
    [s.matchAll(r)], and [s.match(r)] for a pattern with the g flag. *)
Fixpoint match_positions (i : nat) (ps : list piece) : list (nat * Str.t) :=
  match ps with
  | [] => []
  | Text _ :: ps' => match_positions (S i) ps'
  | Token m :: ps' => (i, m) :: match_positions (i + length m) ps'
  end.

Definition matchAll (r : regex) (s : Str.t) : list (nat * Str.t) :=
  match_positions 0 (scan r s).

(** [s.match(r) || []] for a pattern with the g flag: the matched texts. *)
Definition matchGlobal (r : regex) (s : Str.t) : list Str.t :=
  map snd (matchAll r s).

(** The children of the highlight layer: plain text, and the [span] of a
    colour with its key [`${index}-${color}`] and the arguments
    [(color, currentIndex)] its hover handler passes on. *)
Inductive part : Type :=
| Plain (text : Str.t)
| Span (index : nat) (color : Str.t) (currentIndex : nat).

Inductive highlight : Type :=
| NoContent                       (* null *)
| Raw (value : Str.t)
| Parts (parts : list part).

(** One turn of the loop over the matches. *)
Definition highlight_step (value : Str.t) (st : list part * nat * nat)
    (m : nat * Str.t) : list part * nat * nat :=
  let '(parts, lastIndex, colorIndex) := st in
  let '(index, color) := m in
  let parts := if lastIndex <? index
               then parts ++ [Plain (Str.substring lastIndex index value)]
               else parts in
  (parts ++ [Span index color colorIndex], index + length color, S colorIndex).

Definition highlightContent (value : Str.t) (highlightingEnabled : bool)
  : highlight :=
  match value with
  | [] => NoContent
  | _ =>
    if negb highlightingEnabled then Raw value
    else
      let '(parts, lastIndex, _) :=
        fold_left (highlight_step value) (matchAll COLOR_REGEX value)
                  ([], 0, 0) in
      Parts (if lastIndex <? length value
             then parts ++ [Plain (skipn lastIndex value)]
             else parts)
  end.

(** The text a part shows, and the text of the part once a callback has
    replaced the colour of a span. *)
Definition part_out (f : Str.t -> Str.t) (p : part) : Str.t :=
  match p with
  | Plain t => t
  | Span _ color _ => f color
  end.

Definition part_text : part -> Str.t := part_out (fun color => color).

(** The arguments the hover handlers of the spans pass on, in order. *)
Fixpoint span_labels (ps : list part) : list (Str.t * nat) :=
  match ps with
  | [] => []
  | Plain _ :: ps' => span_labels ps'
  | Span _ color k :: ps' => (color, k) :: span_labels ps'
  end.

(** The tokens among the pieces of a scan, in order. *)
Fixpoint tokens (ps : list piece) : list Str.t :=
  match ps with
  | [] => []
  | Text _ :: ps' => tokens ps'
  | Token m :: ps' => m :: tokens ps'
  end.

(** ** Bitwise operators *)

(** [ToInt32]: the integer part of a number modulo 2^32, read as a signed
    32-bit integer; NaN, the zeros and the infinities give 0. *)
Definition ToInt32 (x : Num.t) : Z :=
  match x with
  | S754_finite s m e =>
    let t := if (0 <=? e)%Z then (Z.pos m * 2 ^ e)%Z
             else (Z.pos m / 2 ^ (- e))%Z in
    let v := ((if s then - t else t) mod 2 ^ 32)%Z in
    if (v <? 2 ^ 31)%Z then v else (v - 2 ^ 32)%Z
  | _ => 0%Z
  end.

(** [x >> k] for a shift count [k] within 0..31. *)
Definition shift_right (x : Num.t) (k : Z) : Num.t :=
  Num.of_Z (Z.shiftr (ToInt32 x) k).

(** [x & y] *)
Definition bit_and (x y : Num.t) : Num.t :=
  Num.of_Z (Z.land (ToInt32 x) (ToInt32 y)).

(** ** The copy of the converter at services/colorConverter.ts

    It knows no alpha component and no oklch input; its samples are
    [RGB.t] values without alpha. *)

Module V1.

(** [/rgba?\((\d+),\s*(\d+),\s*(\d+)/] *)
Definition RGB_REGEX : regex :=
  Lit $"rgb" -:- Opt (Lit $"a") -:- Lit $"("
  -:- Grp 1 (Plus Str.is_digit) -:- Lit $"," -:- Star Str.is_space
  -:- Grp 2 (Plus Str.is_digit) -:- Lit $"," -:- Star Str.is_space
  -:- Grp 3 (Plus Str.is_digit).

(** [/hsla?\((\d+),\s*([\d.]+)%?,\s*([\d.]+)%?/] *)
Definition HSL_REGEX : regex :=
  Lit $"hsl" -:- Opt (Lit $"a") -:- Lit $"("
  -:- Grp 1 (Plus Str.is_digit) -:- Lit $"," -:- Star Str.is_space
  -:- Grp 2 (Plus digit_or_dot) -:- Opt (Lit $"%") -:- Lit $","
  -:- Star Str.is_space
  -:- Grp 3 (Plus digit_or_dot) -:- Opt (Lit $"%").

Section Converter.

Variable Math : MathLib.

Local Notation "x + y" := (Num.add x y) : num_scope.
Local Notation "x - y" := (Num.sub x y) : num_scope.
Local Notation "x * y" := (Num.mul x y) : num_scope.
Local Notation "x / y" := (Num.div x y) : num_scope.
Local Notation "x < y" := (Num.ltb x y) : num_scope.
Local Notation "x <= y" := (Num.leb x y) : num_scope.
Local Notation "x === y" := (Num.eqb x y) (at level 70) : num_scope.
Local Notation "# s" := (Num.lit s%string)
  (at level 1, s at level 0) : num_scope.
Local Open Scope num_scope.

Definition hexToRgb (hex : Str.t) : option RGB.t :=
  let hex := replace_prefix $"#" [] hex in
  let hex := if Nat.eqb (length hex) 3
             then concat (map (fun char => [char; char]) hex)
             else hex in
  if negb (Nat.eqb (length hex) 6) then None
  else
    let bigint := Num.parseInt hex 16 in
    Some (RGB.mk (bit_and (shift_right bigint 16) #"255")
                 (bit_and (shift_right bigint 8) #"255")
                 (bit_and bigint #"255")
                 None).

Definition rgbStringToRgb (rgbStr : Str.t) : option RGB.t :=
  match search RGB_REGEX rgbStr with
  | None => None
  | Some m =>
    Some (RGB.mk (Num.parseInt (group m 1) 10)
                 (Num.parseInt (group m 2) 10)
                 (Num.parseInt (group m 3) 10)
                 None)
  end.

Definition hslStringToRgb (hslStr : Str.t) : option RGB.t :=
  match search HSL_REGEX hslStr with
  | None => None
  | Some mt =>
    let h := Num.parseInt (group mt 1) 10 in
    let s := Num.parseInt (group mt 2) 10 / #"100" in
    let l := Num.parseInt (group mt 3) 10 / #"100" in
    let c := (#"1" - Num.abs (#"2" * l - #"1")) * s in
    let x := c * (#"1" - Num.abs (Num.rem (h / #"60") #"2" - #"1")) in
    let m := l - c / #"2" in
    let '(r, g, b) :=
      if ((#"0" <= h) && (h < #"60"))%bool then (c, x, #"0")
      else if ((#"60" <= h) && (h < #"120"))%bool then (x, c, #"0")
      else if ((#"120" <= h) && (h < #"180"))%bool then (#"0", c, x)
      else if ((#"180" <= h) && (h < #"240"))%bool then (#"0", x, c)
      else if ((#"240" <= h) && (h < #"300"))%bool then (x, #"0", c)
      else if ((#"300" <= h) && (h < #"360"))%bool then (c, #"0", x)
      else (#"0", #"0", #"0") in
    Some (RGB.mk (Num.round ((r + m) * #"255"))
                 (Num.round ((g + m) * #"255"))
                 (Num.round ((b + m) * #"255"))
                 None)
  end.

Definition rgbToHex (c : RGB.t) : Str.t :=
  toHex (RGB.r c) ++ toHex (RGB.g c) ++ toHex (RGB.b c).

Definition rgbToHsl (c : RGB.t) : HSL.t :=
  let r := RGB.r c / #"255" in
  let g := RGB.g c / #"255" in
  let b := RGB.b c / #"255" in
  let max := Num.max (Num.max r g) b in
  let min := Num.min (Num.min r g) b in
  let l := (max + min) / #"2" in
  let chromatic := negb (max === min) in
  let d := max - min in
  let s := if chromatic
           then if #"0.5" < l then d / (#"2" - max - min) else d / (max + min)
           else #"0" in
  let h := if chromatic
           then (if max === r then (g - b) / d + (if g < b then #"6" else #"0")
                 else if max === g then (b - r) / d + #"2"
                 else if max === b then (r - g) / d + #"4"
                 else #"0") / #"6"
           else #"0" in
  HSL.mk (h * #"360") (s * #"100") (l * #"100") None.

Definition rgbToOklch (rgb : RGB.t) : Oklch.t :=
  let linearR := srgbToLinearRgb Math (RGB.r rgb) in
  let linearG := srgbToLinearRgb Math (RGB.g rgb) in
  let linearB := srgbToLinearRgb Math (RGB.b rgb) in
  let xyz := linearRgbToXyz linearR linearG linearB in
  let oklab := xyzToOklab Math (XYZ.x xyz) (XYZ.y xyz) (XYZ.z xyz) in
  oklabToOklch Math (Oklab.L oklab) (Oklab.a oklab) (Oklab.b oklab).

Definition formatOklch (oklch : Oklch.t) (useCssSyntax : bool)
  : result Str.t :=
  let* l0 := Num.toFixed (Oklch.L oklch * #"100") 2 in
  let l := strip_dot00 l0 in
  let* c0 := Num.toFixed (Oklch.C oklch) 4 in
  let c := strip_dot (strip_fraction_zeros c0) in
  let* h0 := Num.toFixed (Oklch.h oklch) 2 in
  let h := strip_dot00 h0 in
  Ok (if useCssSyntax
      then $"oklch(" ++ l ++ $"% " ++ c ++ $" " ++ h ++ $")"
      else l ++ $" " ++ c ++ $" " ++ h).

Definition parseToken (cleanedMatch : Str.t) : option RGB.t :=
  if Str.startsWith cleanedMatch $"#" then hexToRgb cleanedMatch
  else if Str.startsWith cleanedMatch $"rgb" then rgbStringToRgb cleanedMatch
  else if Str.startsWith cleanedMatch $"hsl" then hslStringToRgb cleanedMatch
  else None.

Definition clampRgb (rgb : RGB.t) : RGB.t :=
  RGB.mk (Num.max #"0" (Num.min #"255" (RGB.r rgb)))
         (Num.max #"0" (Num.min #"255" (RGB.g rgb)))
         (Num.max #"0" (Num.min #"255" (RGB.b rgb)))
         None.

Definition formatColor (options : ConvertOptions) (rgb : RGB.t)
    (match_ : Str.t) : result Str.t :=
  let css := useCssSyntax options in
  if Str.eqb (format options) $"oklch" then
    formatOklch (rgbToOklch rgb) css
  else if Str.eqb (format options) $"hex" then
    Ok ((if css then $"#" else []) ++ rgbToHex rgb)
  else if Str.eqb (format options) $"rgb" then
    let r := Num.toString (Num.round (RGB.r rgb)) in
    let g := Num.toString (Num.round (RGB.g rgb)) in
    let b := Num.toString (Num.round (RGB.b rgb)) in
    Ok (if css
        then $"rgb(" ++ r ++ $", " ++ g ++ $", " ++ b ++ $")"
        else r ++ $" " ++ g ++ $" " ++ b)
  else if Str.eqb (format options) $"hsl" then
    let hsl := rgbToHsl rgb in
    let* h := Num.toFixed (HSL.h hsl) 0 in
    let* s := Num.toFixed (HSL.s hsl) 1 in
    let* l := Num.toFixed (HSL.l hsl) 1 in
    Ok (if css
        then $"hsl(" ++ h ++ $", " ++ s ++ $"%, " ++ l ++ $"%)"
        else h ++ $" " ++ s ++ $" " ++ l)
  else Ok match_.

Definition sampleForFormatter (match_ : Str.t) : option RGB.t :=
  option_map clampRgb (parseToken (Str.trim (Str.toLowerCase match_))).

Definition convertBody (options : ConvertOptions) (match_ : Str.t)
  : result Str.t :=
  match sampleForFormatter match_ with
  | None => Ok match_
  | Some rgb => formatColor options rgb match_
  end.

Definition convertToken (options : ConvertOptions) (match_ : Str.t) : Str.t :=
  catch_with (convertBody options match_) (fun _ => match_).

Definition convertCssColors (cssString : Str.t) (options : ConvertOptions)
  : Str.t :=
  match cssString with
  | [] => []
  | _ => replace_all colorRegex (convertToken options) cssString
  end.

End Converter.

End V1.

(** ** Sharing the input through the URL (components/ColorConverter.tsx)

    The two helpers [encodeStringToBase64] and [decodeStringFromBase64]
    exist for the characters beyond Latin-1, so in this part a string is
    the list of its UTF-16 code units.  The functions of the platform are
    given as their standards define them: [encodeURIComponent],
    [decodeURIComponent], [escape] and [unescape] after ECMA-262, [btoa]
    and [atob] after the forgiving base64 of the Infra standard. *)

Module Share.

Local Open Scope N_scope.

Definition units := list N.

Definition chars (s : Str.t) : units := map Str.code s.

Inductive web_exn : Type := URIError | InvalidCharacterError.

Inductive attempt (A : Type) : Type :=
| Done (a : A)
| Failed (e : web_exn).

Arguments Done {A} a.
Arguments Failed {A} e.

Definition and_then {A B : Type} (x : attempt A) (f : A -> attempt B)
  : attempt B :=
  match x with
  | Done a => f a
  | Failed e => Failed e
  end.

(** The result of the rest of a loop, after [p] has been appended. *)
Definition prepend (p : units) (x : attempt units) : attempt units :=
  match x with
  | Done s => Done (p ++ s)
  | Failed e => Failed e
  end.

Definition within (lo hi c : N) : bool := (lo <=? c) && (c <=? hi).

Definition alphanumeric (c : N) : bool :=
  within 48 57 c || within 65 90 c || within 97 122 c.

Definition one_of (set : Str.t) (c : N) : bool :=
  existsb (N.eqb c) (chars set).

(** uriUnreserved: letters, digits and the marks. *)
Definition uriUnreserved (c : N) : bool :=
  alphanumeric c || one_of $"-_.!~*'()" c.

(** The characters [escape] copies. *)
Definition escapeUnescaped (c : N) : bool :=
  alphanumeric c || one_of $"@*_+-./" c.

Definition leading_surrogate : N -> bool := within 0xD800 0xDBFF.

Definition trailing_surrogate : N -> bool := within 0xDC00 0xDFFF.

(** UTF16SurrogatePairToCodePoint *)
Definition pair_code_point (lead trail : N) : N :=
  (lead - 0xD800) * 0x400 + (trail - 0xDC00) + 0x10000.

(** UTF16EncodeCodePoint *)
Definition UTF16EncodeCodePoint (cp : N) : units :=
  if cp <=? 0xFFFF then [cp]
  else [(cp - 0x10000) / 0x400 + 0xD800; (cp - 0x10000) mod 0x400 + 0xDC00].

(** The octets of the UTF-8 form of a code point. *)
Definition utf8_octets (cp : N) : list N :=
  if cp <? 0x80 then [cp]
  else if cp <? 0x800 then [0xC0 + cp / 64; 0x80 + cp mod 64]
  else if cp <? 0x10000
  then [0xE0 + cp / 4096; 0x80 + cp / 64 mod 64; 0x80 + cp mod 64]
  else [0xF0 + cp / 262144; 0x80 + cp / 4096 mod 64;
        0x80 + cp / 64 mod 64; 0x80 + cp mod 64].

(** The code point of a well-formed UTF-8 sequence of two to four octets:
    continuation octets in 80..BF, no overlong form, no surrogate, at most
    U+10FFFF. *)
Definition continuation_octet : N -> bool := within 0x80 0xBF.

Definition utf8_code_point (octets : list N) : option N :=
  match octets with
  | [b1; b2] =>
    let cp := (b1 - 0xC0) * 64 + (b2 - 0x80) in
    if continuation_octet b2 && (0x80 <=? cp) then Some cp else None
  | [b1; b2; b3] =>
    let cp := (b1 - 0xE0) * 4096 + (b2 - 0x80) * 64 + (b3 - 0x80) in
    if continuation_octet b2 && continuation_octet b3 && (0x800 <=? cp)
       && negb (within 0xD800 0xDFFF cp)
    then Some cp else None
  | [b1; b2; b3; b4] =>
    let cp := (b1 - 0xF0) * 262144 + (b2 - 0x80) * 4096
              + (b3 - 0x80) * 64 + (b4 - 0x80) in
    if continuation_octet b2 && continuation_octet b3
       && continuation_octet b4 && within 0x10000 0x10FFFF cp
    then Some cp else None
  | _ => None
  end.

(** Two upper-case hexadecimal digits after a percent sign. *)
Definition upper_hex (d : N) : N := if d <? 10 then 48 + d else 55 + d.

Definition percent (b : N) : units :=
  [37; upper_hex (b / 16); upper_hex (b mod 16)].

(** [%uXXXX] *)
Definition percent_u (c : N) : units :=
  [37; 117; upper_hex (c / 4096); upper_hex (c / 256 mod 16);
   upper_hex (c / 16 mod 16); upper_hex (c mod 16)].

Definition hex_value (c : N) : option N :=
  if within 48 57 c then Some (c - 48)
  else if within 65 70 c then Some (c - 55)
  else if within 97 102 c then Some (c - 87)
  else None.

(** The number written by the first [n] code units of [s], when they are
    hexadecimal digits. *)
Fixpoint hex_number (n : nat) (acc : N) (s : units) : option N :=
  match n with
  | O => Some acc
  | S n' =>
    match s with
    | c :: r =>
      match hex_value c with
      | Some d => hex_number n' (16 * acc + d) r
      | None => None
      end
    | [] => None
    end
  end.

(** [encodeURIComponent(s)]: Encode with the unreserved set. *)
Fixpoint encodeURIComponent (s : units) : attempt units :=
  match s with
  | [] => Done []
  | c :: r =>
    if uriUnreserved c then prepend [c] (encodeURIComponent r)
    else if trailing_surrogate c then Failed URIError
    else if leading_surrogate c then
      match r with
      | d :: r' =>
        if trailing_surrogate d
        then prepend (flat_map percent (utf8_octets (pair_code_point c d)))
                     (encodeURIComponent r')
        else Failed URIError
      | [] => Failed URIError
      end
    else prepend (flat_map percent (utf8_octets c)) (encodeURIComponent r)
  end.

(** [unescape(s)].  [skip] counts the code units of an escape sequence
    still to pass over (the [k + 5] and [k + 2] of the standard). *)
Fixpoint unescape_at (skip : nat) (s : units) : units :=
  match s with
  | [] => []
  | c :: r =>
    match skip with
    | S k => unescape_at k r
    | O =>
      if c =? 37 then
        match match r with
              | u :: r' => if u =? 117 then hex_number 4 0 r' else None
              | [] => None
              end with
        | Some v => v :: unescape_at 5 r
        | None =>
          match hex_number 2 0 r with
          | Some v => v :: unescape_at 2 r
          | None => c :: unescape_at 0 r
          end
        end
      else c :: unescape_at 0 r
    end
  end.

Definition unescape : units -> units := unescape_at 0.

(** [escape(s)] *)
Definition escape (s : units) : units :=
  flat_map (fun c => if escapeUnescaped c then [c]
                     else if c <? 256 then percent c else percent_u c) s.

(** The number of leading 1 bits of an octet. *)
Definition leading_ones (b : N) : nat :=
  if b <? 0x80 then 0
  else if b <? 0xC0 then 1
  else if b <? 0xE0 then 2
  else if b <? 0xF0 then 3
  else if b <? 0xF8 then 4
  else 5.

(** The [m] continuation octets written [%XX] at the head of [s]. *)
Fixpoint continuation (m : nat) (s : units) : option (list N) :=
  match m with
  | O => Some []
  | S m' =>
    match s with
    | c :: r =>
      if c =? 37 then
        match hex_number 2 0 r with
        | Some b => option_map (cons b) (continuation m' (skipn 2 r))
        | None => None
        end
      else None
    | [] => None
    end
  end.

(** [decodeURIComponent(s)]: Decode with the empty reserved set. *)
Fixpoint decode_at (skip : nat) (s : units) : attempt units :=
  match s with
  | [] => Done []
  | c :: r =>
    match skip with
    | S k => decode_at k r
    | O =>
      if c =? 37 then
        match hex_number 2 0 r with
        | None => Failed URIError
        | Some b =>
          let n := leading_ones b in
          if (n =? 0)%nat then prepend [b] (decode_at 2 r)
          else if ((n =? 1) || (4 <? n))%nat then Failed URIError
          else
            match continuation (n - 1) (skipn 2 r) with
            | None => Failed URIError
            | Some octets =>
              match utf8_code_point (b :: octets) with
              | None => Failed URIError
              | Some cp =>
                prepend (UTF16EncodeCodePoint cp) (decode_at (3 * n - 1) r)
              end
            end
        end
      else prepend [c] (decode_at 0 r)
    end
  end.

Definition decodeURIComponent : units -> attempt units := decode_at 0.

(** *** Base64 *)

Definition base64_char (v : N) : N :=
  if v <? 26 then 65 + v
  else if v <? 52 then 71 + v
  else if v <? 62 then v - 4
  else if v =? 62 then 43 else 47.

Definition base64_value (c : N) : option N :=
  if within 65 90 c then Some (c - 65)
  else if within 97 122 c then Some (c - 71)
  else if within 48 57 c then Some (c + 4)
  else if c =? 43 then Some 62
  else if c =? 47 then Some 63
  else None.

(** The six-bit groups of a sequence of bytes. *)
Fixpoint sextets (bytes : list N) : list N :=
  match bytes with
  | a :: b :: c :: r =>
    a / 4 :: a mod 4 * 16 + b / 16 :: b mod 16 * 4 + c / 64 :: c mod 64
    :: sextets r
  | [a; b] => [a / 4; a mod 4 * 16 + b / 16; b mod 16 * 4]
  | [a] => [a / 4; a mod 4 * 16]
  | [] => []
  end.

Definition padding (bytes : list N) : units :=
  match (length bytes mod 3)%nat with
  | 1%nat => [61; 61]
  | 2%nat => [61]
  | _ => []
  end.

Definition forgiving_base64_encode (bytes : list N) : units :=
  map base64_char (sextets bytes) ++ padding bytes.

(** [btoa(data)] *)
Definition btoa (data : units) : attempt units :=
  if forallb (fun c => c <=? 255) data
  then Done (forgiving_base64_encode data)
  else Failed InvalidCharacterError.

Definition ascii_whitespace (c : N) : bool :=
  (c =? 9) || (c =? 10) || (c =? 12) || (c =? 13) || (c =? 32).

Definition without_last_equals (d : units) : option units :=
  match rev d with
  | c :: r => if c =? 61 then Some (rev r) else None
  | [] => None
  end.

(** The bytes of a sequence of six-bit groups; a rest of two groups
    gives one byte, a rest of three gives two. *)
Fixpoint bytes_of_sextets (vs : list N) : list N :=
  match vs with
  | a :: b :: c :: d :: r =>
    a * 4 + b / 16 :: b mod 16 * 16 + c / 4 :: c mod 4 * 64 + d
    :: bytes_of_sextets r
  | [a; b; c] => [a * 4 + b / 16; b mod 16 * 16 + c / 4]
  | [a; b] => [a * 4 + b / 16]
  | _ => []
  end.

Fixpoint base64_values (d : units) : option (list N) :=
  match d with
  | [] => Some []
  | c :: r =>
    match base64_value c, base64_values r with
    | Some v, Some vs => Some (v :: vs)
    | _, _ => None
    end
  end.

Definition forgiving_base64_decode (data : units) : option (list N) :=
  let d := filter (fun c => negb (ascii_whitespace c)) data in
  let d :=
    if (length d mod 4 =? 0)%nat then
      match without_last_equals d with
      | Some d1 =>
        match without_last_equals d1 with
        | Some d2 => d2
        | None => d1
        end
      | None => d
      end
    else d in
  if (length d mod 4 =? 1)%nat then None
  else option_map bytes_of_sextets (base64_values d).

(** [atob(data)] *)
Definition atob (data : units) : attempt units :=
  match forgiving_base64_decode data with
  | Some bytes => Done bytes
  | None => Failed InvalidCharacterError
  end.

(** *** The helpers of the component *)

Definition PLACEHOLDER_TEXT : units :=
  chars (join [newline]
    [$"/* ";
     $"  Paste any CSS with colors here.";
     $"  The tool will convert them instantly.";
     $"*/";
     $"";
     $":root {";
     $"  --md-sys-color-primary: #6750A4;";
     $"  --md-sys-color-secondary: #958DA5;";
     $"  --md-ref-palette-tertiary50: #7D5260;";
     $"  ";
     $"  /* Other formats work too */";
     $"  --accent-rgb: rgb(103, 80, 164);";
     $"  --accent-hsl: hsl(200, 80%, 60%);";
     $"  --transparent: oklch(59.69% 0.154 292.34 / 50%);";
     $"}";
     $"";
     $".card {";
     $"  background-color: var(--md-sys-color-secondary);";
     $"  color: #FFFFFF;";
     $"}"]).

Definition encodeStringToBase64 (str : units) : attempt units :=
  and_then (encodeURIComponent str) (fun s => btoa (unescape s)).

Definition decodeStringFromBase64 (base64 : units) : attempt units :=
  and_then (atob base64) (fun s => decodeURIComponent (escape s)).

(** What [getInitialInputText] finds: no window at all, or the value of
    the parameter [code] of the address ([None] for null). *)
Inductive page : Type :=
| NoWindow
| Window (code : option units).

(** [getInitialInputText()]: the text, and the parameter [code] as the
    call leaves it (a code that cannot be decoded is deleted). *)
Definition getInitialInputText (p : page) : units * option units :=
  match p with
  | NoWindow => (PLACEHOLDER_TEXT, None)
  | Window code =>
    match code with
    | Some ((_ :: _) as c) =>
      match decodeStringFromBase64 c with
      | Done text => (text, code)
      | Failed _ => (PLACEHOLDER_TEXT, None)
      end
    | _ => (PLACEHOLDER_TEXT, code)
    end
  end.

(** The effect that syncs the input text with the parameter [code]. *)
Definition syncCode (debouncedInputText : units) : attempt (option units) :=
  if (match debouncedInputText with [] => false | _ => true end
      && negb (if list_eq_dec N.eq_dec debouncedInputText PLACEHOLDER_TEXT
               then true else false))%bool
  then and_then (encodeStringToBase64 debouncedInputText)
                (fun encoded => Done (Some encoded))
  else Done None.

(** [raySoUrl]: the address of the link to ray.so. *)
Definition raySoUrl (outputText : units) : units :=
  match outputText with
  | [] => chars $"#"
  | _ =>
    match
      and_then (encodeStringToBase64 outputText) (fun encoded =>
      and_then (encodeURIComponent (chars $"Color Convert Output"))
               (fun title =>
      Done (chars $"https://www.ray.so/#code=" ++ encoded
            ++ chars $"&title=" ++ title)))
    with
    | Done url => url
    | Failed _ => chars $"#"
    end
  end.

(** *** Well-formed strings and their UTF-8 form *)

(** Every surrogate is half of a pair. *)
Fixpoint well_formed (s : units) : bool :=
  match s with
  | [] => true
  | c :: r =>
    if trailing_surrogate c then false
    else if leading_surrogate c then
      match r with
      | d :: r' => trailing_surrogate d && well_formed r'
      | [] => false
      end
    else well_formed r
  end.

Fixpoint utf8 (s : units) : list N :=
  match s with
  | [] => []
  | c :: r =>
    if leading_surrogate c then
      match r with
      | d :: r' => utf8_octets (pair_code_point c d) ++ utf8 r'
      | [] => utf8_octets c
      end
    else utf8_octets c ++ utf8 r
  end.

End Share.

(** * Properties *)

(** ** Strings *)

Lemma Str_eqb_eq : forall a b : Str.t, Str.eqb a b = true <-> a = b.
Proof.
  induction a as [|x a IH]; destruct b as [|y b]; simpl; split;
    try congruence; try discriminate.
  - intros H. apply andb_true_iff in H. destruct H as [H1 H2].
    apply Ascii.eqb_eq in H1. apply IH in H2. congruence.
  - intros H. injection H as -> ->. rewrite Ascii.eqb_refl.
    apply IH. reflexivity.
Qed.

Lemma Str_eqb_refl : forall a : Str.t, Str.eqb a a = true.
Proof. intros a. apply Str_eqb_eq. reflexivity. Qed.

Lemma Str_eqb_neq : forall a b : Str.t, a <> b -> Str.eqb a b = false.
Proof.
  intros a b H. destruct (Str.eqb a b) eqn:E; [|reflexivity].
  apply Str_eqb_eq in E. contradiction.
Qed.

Lemma strip_prefix_app : forall p s s' : Str.t,
  Str.strip_prefix p s = Some s' -> s = p ++ s'.
Proof.
  induction p as [|a p IH]; intros s s' H; simpl in H.
  - injection H as ->. reflexivity.
  - destruct s as [|b s]; [discriminate|].
    destruct (Ascii.eqb a b) eqn:E; [|discriminate].
    apply Ascii.eqb_eq in E. subst b. simpl. f_equal. apply IH, H.
Qed.

Lemma strip_prefix_here : forall p s : Str.t,
  Str.strip_prefix p (p ++ s) = Some s.
Proof.
  induction p as [|a p IH]; intros s; simpl; [reflexivity|].
  rewrite Ascii.eqb_refl. apply IH.
Qed.

Lemma firstn_app_exact : forall (w rest : Str.t),
  firstn (length (w ++ rest) - length rest) (w ++ rest) = w.
Proof.
  intros w rest. rewrite length_app, Nat.add_sub.
  rewrite firstn_app, Nat.sub_diag, firstn_all. simpl. apply app_nil_r.
Qed.

(** ** The matcher covers words of the pattern's language *)

Section MatcherSound.

Local Ltac done_with w s' c' :=
  exists w, s', c'; repeat split; auto.

Lemma rep_greedy_sound : forall p (k : cont) s lo hi c st,
  rep_greedy p lo hi k s c = Some st ->
  exists w s', s = w ++ s' /\ lang (Rep p lo hi) w /\ k s' c = Some st.
Proof.
  intros p k.
  assert (Hstop : forall s lo hi c st,
    match lo with O => k s c | S _ => None end = Some st ->
    exists w s', s = w ++ s' /\ lang (Rep p lo hi) w /\ k s' c = Some st).
  { intros s lo hi c st H. destruct lo; [|discriminate].
    exists [], s. simpl. repeat split; auto.
    destruct hi; auto using Nat.le_0_l. }
  induction s as [|a s IH]; intros lo hi c st H.
  - simpl in H. destruct hi as [[|n]|]; apply (Hstop _ _ _ _ _ H).
  - assert (Hmore : forall hi',
      match hi with Some n => S (match hi' with Some m => m | None => 0 end) = n
                                /\ hi' <> None
                  | None => hi' = None end ->
      (if p a then
         match rep_greedy p (pred lo) hi' k s c with
         | Some x => Some x
         | None => match lo with O => k (a :: s) c | S _ => None end
         end
       else match lo with O => k (a :: s) c | S _ => None end) = Some st ->
      exists w s',
        a :: s = w ++ s' /\ lang (Rep p lo hi) w /\ k s' c = Some st).
    { intros hi' Hhi H'. destruct (p a) eqn:Pa; [|apply (Hstop _ _ _ _ _ H')].
      destruct (rep_greedy p (pred lo) hi' k s c) as [x|] eqn:E;
        [|apply (Hstop _ _ _ _ _ H')].
      injection H' as ->. apply IH in E.
      destruct E as (w & s' & -> & (Hw & Hlo & Hhi') & Hk).
      exists (a :: w), s'. simpl. repeat split; auto.
      - lia.
      - destruct hi as [n|]; [|exact I].
        destruct Hhi as [Hn Hsome]. destruct hi' as [m|]; [|congruence].
        lia. }
    simpl in H. destruct hi as [[|n]|].
    + apply (Hstop _ _ _ _ _ H).
    + apply (Hmore (Some n)); [split; [reflexivity|discriminate]|exact H].
    + apply (Hmore None); [reflexivity|exact H].
Qed.

Lemma rep_lazy_sound : forall p (k : cont) s c st,
  rep_lazy p k s c = Some st ->
  exists w s', s = w ++ s' /\ lang (RepLazy p) w /\ k s' c = Some st.
Proof.
  intros p k. induction s as [|a s IH]; intros c st H; simpl in H.
  - destruct (k [] c) eqn:E; [|discriminate]. injection H as ->.
    exists [], []. simpl. auto.
  - destruct (k (a :: s) c) eqn:E.
    + injection H as ->. exists [], (a :: s). simpl. auto.
    + destruct (p a) eqn:Pa; [|discriminate].
      apply IH in H. destruct H as (w & s' & -> & Hw & Hk).
      exists (a :: w), s'. simpl in *. auto.
Qed.

Lemma run_sound : forall r (k : cont) s c st,
  run r k s c = Some st ->
  exists w s' c', s = w ++ s' /\ lang r w /\ k s' c' = Some st.
Proof.
  induction r as [l|p|r1 IH1 r2 IH2|r1 IH1 r2 IH2|r1 IH1|p lo hi|p|i r1 IH1|];
    intros k s c st H; simpl in H.
  - destruct (Str.strip_prefix l s) as [s'|] eqn:E; [|discriminate].
    apply strip_prefix_app in E. done_with l s' c.
  - destruct s as [|a s]; [discriminate|].
    destruct (p a) eqn:Pa; [|discriminate].
    exists [a], s, c. simpl. eauto.
  - apply IH1 in H. destruct H as (u & s1 & c1 & -> & Hu & H).
    apply IH2 in H. destruct H as (v & s2 & c2 & -> & Hv & H).
    exists (u ++ v), s2, c2. rewrite app_assoc. simpl. eauto 7.
  - destruct (run r1 k s c) as [x|] eqn:E.
    + injection H as ->. apply IH1 in E.
      destruct E as (w & s' & c' & -> & Hw & Hk). exists w, s', c'. simpl. auto.
    + apply IH2 in H.
      destruct H as (w & s' & c' & -> & Hw & Hk). exists w, s', c'. simpl. auto.
  - destruct (run r1 k s c) as [x|] eqn:E.
    + injection H as ->. apply IH1 in E.
      destruct E as (w & s' & c' & -> & Hw & Hk). exists w, s', c'. simpl. auto.
    + exists [], s, c. simpl. auto.
  - apply rep_greedy_sound in H.
    destruct H as (w & s' & -> & Hw & Hk). exists w, s', c. auto.
  - apply rep_lazy_sound in H.
    destruct H as (w & s' & -> & Hw & Hk). exists w, s', c. auto.
  - apply IH1 in H. destruct H as (w & s' & c' & -> & Hw & Hk).
    exists w, s'. eexists. simpl. eauto.
  - destruct s; [|discriminate]. exists [], [], c. simpl. auto.
Qed.

Lemma match_at_sound : forall r s rest c,
  match_at r s = Some (rest, c) ->
  exists w, s = w ++ rest /\ lang r w /\ matched s rest = w.
Proof.
  intros r s rest c H. apply run_sound in H.
  destruct H as (w & s' & c' & -> & Hw & Hk).
  unfold accept in Hk. injection Hk as -> ->.
  exists w. repeat split; auto. apply firstn_app_exact.
Qed.

Lemma search_sound : forall r s c,
  search r s = Some c ->
  exists pre w post, s = pre ++ w ++ post /\ lang r w.
Proof.
  intros r. induction s as [|a s IH]; intros c H; simpl in H.
  - destruct (match_at r []) as [[rest c0]|] eqn:E; [|discriminate].
    apply match_at_sound in E. destruct E as (w & E & Hw & _).
    exists [], w, rest. auto.
  - destruct (match_at r (a :: s)) as [[rest c0]|] eqn:E.
    + apply match_at_sound in E. destruct E as (w & E & Hw & _).
      exists [], w, rest. auto.
    + apply IH in H. destruct H as (pre & w & post & -> & Hw).
      exists (a :: pre), w, post. auto.
Qed.

End MatcherSound.

(** ** The global scan *)

Section Scan.

Variable r : regex.

Lemma pieces_src : forall s skip,
  skip <= length s ->
  concat (map piece_src (pieces r skip s)) = skipn skip s.
Proof.
  induction s as [|a s IH]; intros skip H.
  - simpl in H. assert (skip = 0) by lia. subst skip. simpl.
    destruct (match_at r []); reflexivity.
  - destruct skip as [|n].
    + cbn [pieces skipn].
      destruct (match_at r (a :: s)) as [[rest c]|] eqn:E.
      * destruct (length (a :: s) - length rest) as [|n] eqn:L.
        -- cbn. rewrite (IH 0) by lia. reflexivity.
        -- cbn [map concat piece_src]. rewrite (IH n)
             by (change (length (a :: s)) with (S (length s)) in L; lia).
           unfold matched. rewrite L.
           change (skipn n s) with (skipn (S n) (a :: s)).
           apply firstn_skipn.
      * cbn. rewrite (IH 0) by lia. reflexivity.
    + cbn [pieces skipn]. apply IH. simpl in H. lia.
Qed.

(** The pieces of a scan, put back together, are the text. *)
Lemma scan_src : forall s, concat (map piece_src (scan r s)) = s.
Proof. intros s. apply (pieces_src s 0). lia. Qed.

Lemma pieces_tokens : forall s skip m,
  In (Token m) (pieces r skip s) ->
  exists pre s' rest c,
    s = pre ++ s' /\ match_at r s' = Some (rest, c) /\ m = matched s' rest.
Proof.
  induction s as [|a s IH]; intros skip m H.
  - simpl in H. destruct skip; [|contradiction].
    destruct (match_at r []) as [[rest c]|] eqn:E; [|contradiction].
    destruct H as [H|[]]. injection H as <-.
    exists [], [], rest, c. auto.
  - assert (Hrec : forall n, In (Token m) (pieces r n s) ->
      exists pre s' rest c,
        a :: s = pre ++ s' /\ match_at r s' = Some (rest, c)
        /\ m = matched s' rest).
    { intros n Hn. apply IH in Hn.
      destruct Hn as (pre & s' & rest & c & -> & Hm & ->).
      exists (a :: pre), s', rest, c. auto. }
    destruct skip as [|n]; cbn [pieces] in H; [|eauto].
    destruct (match_at r (a :: s)) as [[rest c]|] eqn:E.
    + destruct (length (a :: s) - length rest) as [|n] eqn:L.
      * destruct H as [H|[H|H]]; [|discriminate|eauto].
        injection H as <-. exists [], (a :: s), rest, c.
        unfold matched. rewrite L. auto.
      * destruct H as [H|H]; [|eauto].
        injection H as <-. exists [], (a :: s), rest, c. auto.
    + destruct H as [H|H]; [discriminate|eauto].
Qed.

(** Every token of a scan is a word of the pattern. *)
Lemma scan_tokens_lang : forall s m,
  In (Token m) (scan r s) -> lang r m.
Proof.
  intros s m H. apply pieces_tokens in H.
  destruct H as (pre & s' & rest & c & _ & Hm & ->).
  apply match_at_sound in Hm. destruct Hm as (w & _ & Hw & ->). exact Hw.
Qed.

Lemma replace_all_pieces : forall (f g : Str.t -> Str.t) (ps : list piece),
  (forall m, In (Token m) ps -> f m = g m) ->
  concat (map (piece_out f) ps) = concat (map (piece_out g) ps).
Proof.
  intros f g. induction ps as [|p ps IH]; intros H; [reflexivity|].
  simpl. rewrite IH by (intros m Hm; apply H; right; exact Hm).
  destruct p as [a|m]; simpl; [reflexivity|].
  rewrite (H m) by (left; reflexivity). reflexivity.
Qed.

(** A callback that returns each token of the scan leaves the text as it is. *)
Lemma replace_all_id : forall (f : Str.t -> Str.t) s,
  (forall m, In (Token m) (scan r s) -> f m = m) ->
  replace_all r f s = s.
Proof.
  intros f s H. unfold replace_all.
  rewrite (replace_all_pieces f (fun m => m) _ H).
  rewrite <- (scan_src s) at 2. reflexivity.
Qed.

End Scan.

(** ** Fail-safe conversion *)

Section FailSafe.

Variable M : MathLib.

Lemma convertCssColors_pieces : forall cssString options,
  convertCssColors M cssString options
  = concat (map (piece_out (convertToken M options))
                (scan COLOR_REGEX cssString)).
Proof.
  intros [|a s] options; reflexivity.
Qed.

Lemma convertToken_parse_failure : forall options m,
  parseToken M (Str.trim (Str.toLowerCase m)) = None ->
  convertToken M options m = m.
Proof.
  intros options m H. unfold convertToken, convertBody, sampleForFormatter.
  rewrite H. reflexivity.
Qed.

Lemma convertToken_throw : forall options m e,
  convertBody M options m = Throw e -> convertToken M options m = m.
Proof.
  intros options m e H. unfold convertToken. rewrite H. reflexivity.
Qed.

(** C1. [convertCssColors] is a total function of the text and the
    options: its value is the text rebuilt from the pieces of the scan, in
    which every character outside a matched token is kept as it is, and a
    matched token whose notation-specific parse returns nothing, or whose
    [try] block throws, is reproduced verbatim. *)
Theorem convertCssColors_fail_safe :
  forall (cssString : Str.t) (options : ConvertOptions),
    let ps := scan COLOR_REGEX cssString in
    cssString = concat (map piece_src ps)
    /\ convertCssColors M cssString options
       = concat (map (piece_out (convertToken M options)) ps)
    /\ (forall a, piece_out (convertToken M options) (Text a)
                  = piece_src (Text a))
    /\ (forall m, In (Token m) ps ->
          (parseToken M (Str.trim (Str.toLowerCase m)) = None
           \/ exists e, convertBody M options m = Throw e) ->
          piece_out (convertToken M options) (Token m) = piece_src (Token m)).
Proof.
  intros cssString options ps. repeat split.
  - symmetry. apply scan_src.
  - apply convertCssColors_pieces.
  - intros m _ [H|[e H]]; simpl.
    + apply convertToken_parse_failure, H.
    + apply (convertToken_throw _ _ _ H).
Qed.

Lemma formatColor_unknown : forall options rgb m,
  ~ known_format (format options) ->
  formatColor M options rgb m = Ok m.
Proof.
  intros options rgb m H. unfold formatColor, known_format in *.
  rewrite !Str_eqb_neq by tauto. reflexivity.
Qed.

(** C9. When [options.format] is none of oklch, hex, rgb and hsl, the
    callback returns every token unchanged, so [convertCssColors] returns
    the text unchanged (and, being a function, throws nothing). *)
Theorem unsupported_format_passthrough :
  forall (cssString : Str.t) (options : ConvertOptions),
    ~ known_format (format options) ->
    (forall m, convertToken M options m = m)
    /\ convertCssColors M cssString options = cssString.
Proof.
  intros cssString options H.
  assert (Htok : forall m, convertToken M options m = m).
  { intros m. unfold convertToken, convertBody.
    destruct (sampleForFormatter M m); [|reflexivity].
    rewrite formatColor_unknown by exact H. reflexivity. }
  split; [exact Htok|].
  destruct cssString as [|a s]; [reflexivity|].
  apply replace_all_id. intros m _. apply Htok.
Qed.

End FailSafe.

Lemma convertCssColors_fail_safe_witness :
  let options := {| format := $"hex"; useCssSyntax := true |} in
  In (Token $"#12345") (scan COLOR_REGEX $"a #12345 b")
  /\ parseToken Math_NaN (Str.trim (Str.toLowerCase $"#12345")) = None
  /\ piece_out (convertToken Math_NaN options) (Token $"#12345")
     = piece_src (Token $"#12345").
Proof.
  intros options.
  assert (Hin : In (Token $"#12345") (scan COLOR_REGEX $"a #12345 b"))
    by (vm_compute; auto).
  assert (Hp : parseToken Math_NaN (Str.trim (Str.toLowerCase $"#12345"))
               = None) by reflexivity.
  split; [exact Hin|]. split; [exact Hp|].
  exact (proj2 (proj2 (proj2
           (convertCssColors_fail_safe Math_NaN $"a #12345 b" options)))
           $"#12345" Hin (or_introl Hp)).
Defined.

Lemma unsupported_format_passthrough_witness :
  ~ known_format $"cmyk"
  /\ ((forall m,
         convertToken Math_NaN {| format := $"cmyk"; useCssSyntax := true |} m
         = m)
      /\ convertCssColors Math_NaN $"a { color: #6750A4; }"
           {| format := $"cmyk"; useCssSyntax := true |}
         = $"a { color: #6750A4; }").
Proof.
  assert (H : ~ known_format $"cmyk")
    by (intros [H|[H|[H|H]]]; discriminate H).
  split; [exact H|].
  exact (unsupported_format_passthrough Math_NaN $"a { color: #6750A4; }"
           {| format := $"cmyk"; useCssSyntax := true |} H).
Defined.

(** ** Running the converter on given tokens *)

(** Evaluate a closed subterm in place. *)
Ltac vm_sub t := let v := eval vm_compute in t in change t with v.

Ltac vm_tests :=
  repeat match goal with
         | |- context [Str.startsWith ?a ?b] => vm_sub (Str.startsWith a b)
         | |- context [Str.eqb ?a ?b] => vm_sub (Str.eqb a b)
         end.

Section Tokens.

Variable M : MathLib.

(** C2, as the code has it.  The channel pattern of the rgb parser reads
    unsigned digits only: [rgb(300, -20, 128)] does not parse and is left
    as it is.  With unsigned channels the sample is clamped into [0,255]
    before it is formatted: [rgb(300, 20, 128)] reaches the formatter as
    (255, 20, 128) and, with format rgb and CSS syntax, is replaced by
    [rgb(255, 20, 128)]. *)
Theorem rgb_unsigned_channels_clamped :
  let options := {| format := $"rgb"; useCssSyntax := true |} in
  sampleForFormatter M $"rgb(300, 20, 128)"
  = Some (RGB.mk (Num.of_Z 255) (Num.of_Z 20) (Num.of_Z 128) None)
  /\ convertCssColors M $"rgb(300, 20, 128)" options = $"rgb(255, 20, 128)"
  /\ rgbStringToRgb $"rgb(300, -20, 128)" = None
  /\ convertCssColors M $"rgb(300, -20, 128)" options = $"rgb(300, -20, 128)".
Proof.
  repeat split; vm_compute; reflexivity.
Qed.

(** The alpha of a parsed oklch token is the fourth group of the pattern:
    divided by 100 when it ends in [%], as it is otherwise. *)
Lemma oklchStringToRgb_alpha : forall s mt,
  search OKLCH_REGEX s = Some mt ->
  exists rgb,
    oklchStringToRgb M s = Some rgb
    /\ RGB.a rgb
       = match cap mt 4 with
         | Some alphaStr =>
           if Str.endsWith alphaStr $"%"
           then Some (Num.div (Num.parseFloat alphaStr) (Num.lit "100.0"))
           else Some (Num.parseFloat alphaStr)
         | None => None
         end.
Proof.
  intros s mt H. unfold oklchStringToRgb. rewrite H.
  eexists. split; reflexivity.
Qed.

(** C7. The oklch parser divides a [%]-suffixed alpha by 100 and takes a
    bare alpha as it is.  [oklch(59.69% 0.154 292.34 / 50%)] parses with
    alpha 0.5 (as does the same token with the bare alpha [0.5]), and with
    format rgb and no CSS syntax it is replaced by the three rounded
    channels followed by the alpha component [ / 0.5]. *)
Theorem oklch_percent_alpha :
  let token := $"oklch(59.69% 0.154 292.34 / 50%)" in
  (forall s mt,
      search OKLCH_REGEX s = Some mt ->
      exists rgb,
        oklchStringToRgb M s = Some rgb
        /\ RGB.a rgb
           = match cap mt 4 with
             | Some alphaStr =>
               if Str.endsWith alphaStr $"%"
               then Some (Num.div (Num.parseFloat alphaStr) (Num.lit "100.0"))
               else Some (Num.parseFloat alphaStr)
             | None => None
             end)
  /\ (exists rgb, sampleForFormatter M token = Some rgb
                  /\ RGB.a rgb = Some (Num.lit "0.5")
                  /\ convertCssColors M token
                       {| format := $"rgb"; useCssSyntax := false |}
                     = Num.toString (Num.round (RGB.r rgb)) ++ $" "
                       ++ Num.toString (Num.round (RGB.g rgb)) ++ $" "
                       ++ Num.toString (Num.round (RGB.b rgb)) ++ $" / 0.5")
  /\ (exists rgb,
         sampleForFormatter M $"oklch(59.69% 0.154 292.34 / 0.5)" = Some rgb
         /\ RGB.a rgb = Some (Num.lit "0.5")).
Proof.
  intros token. split; [exact oklchStringToRgb_alpha|]. split.
  - destruct (oklchStringToRgb_alpha token _ eq_refl) as (rgb & Hp & Ha).
    assert (Ha' : RGB.a rgb = Some (Num.lit "0.5"))
      by (rewrite Ha; vm_compute; reflexivity).
    assert (Hs : sampleForFormatter M token = Some (clampRgb rgb)).
    { unfold sampleForFormatter.
      replace (Str.trim (Str.toLowerCase token)) with token
        by (vm_compute; reflexivity).
      unfold parseToken, token. vm_tests. cbv iota.
      fold token. rewrite Hp. reflexivity. }
    exists (clampRgb rgb). split; [exact Hs|]. split; [exact Ha'|].
    rewrite convertCssColors_pieces.
    replace (scan COLOR_REGEX token) with [Token token]
      by (vm_compute; reflexivity).
    cbn [map concat piece_out]. rewrite app_nil_r.
    unfold convertToken, convertBody. rewrite Hs.
    unfold formatColor. vm_tests. cbv iota.
    cbn [useCssSyntax clampRgb RGB.a]. rewrite Ha'.
    replace (alpha_below_1 (Some (Num.lit "0.5"))) with (Some (Num.lit "0.5"))
      by (vm_compute; reflexivity).
    replace (Num.toFixed (Num.lit "0.5") 2) with (Ok $"0.50")
      by (vm_compute; reflexivity).
    cbn [bind catch_with].
    replace (Num.toString (Num.parseFloat $"0.50")) with ($"0.5")
      by (vm_compute; reflexivity).
    reflexivity.
  - destruct (oklchStringToRgb_alpha $"oklch(59.69% 0.154 292.34 / 0.5)"
                _ eq_refl) as (rgb & Hp & Ha).
    exists (clampRgb rgb). split.
    + unfold sampleForFormatter.
      replace (Str.trim (Str.toLowerCase $"oklch(59.69% 0.154 292.34 / 0.5)"))
        with $"oklch(59.69% 0.154 292.34 / 0.5)" by (vm_compute; reflexivity).
      unfold parseToken. vm_tests. cbv iota. rewrite Hp. reflexivity.
    + cbn [clampRgb RGB.a]. rewrite Ha. vm_compute. reflexivity.
Qed.

End Tokens.

Lemma oklch_percent_alpha_witness :
  let token := $"oklch(59.69% 0.154 292.34 / 50%)" in
  let mt := [(4, $"50%"); (3, $"292.34"); (2, $"0.154"); (1, $"59.69")] in
  search OKLCH_REGEX token = Some mt
  /\ exists rgb,
      oklchStringToRgb Math_NaN token = Some rgb
      /\ RGB.a rgb
         = match cap mt 4 with
           | Some alphaStr =>
             if Str.endsWith alphaStr $"%"
             then Some (Num.div (Num.parseFloat alphaStr) (Num.lit "100.0"))
             else Some (Num.parseFloat alphaStr)
           | None => None
           end.
Proof.
  intros token mt.
  assert (Hs : search OKLCH_REGEX token = Some mt) by (vm_compute; reflexivity).
  split; [exact Hs|].
  exact (proj1 (oklch_percent_alpha Math_NaN) token mt Hs).
Defined.

(** C2 as stated fails: [rgb(300, -20, 128)] is not replaced by
    [rgb(255, 0, 128)]. *)
Lemma rgb_negative_channel_not_clamped :
  ~ (forall M : MathLib,
       convertCssColors M $"rgb(300, -20, 128)"
         {| format := $"rgb"; useCssSyntax := true |}
       = $"rgb(255, 0, 128)").
Proof.
  intros H. specialize (H Math_NaN). vm_compute in H. discriminate H.
Qed.

(** ** Order of numbers *)

Lemma SFcompare_swap : forall x y,
  SFcompare y x = option_map CompOpp (SFcompare x y).
Proof.
  intros [sx|sx| |sx mx ex] [sy|sy| |sy my ey]; simpl; try reflexivity;
    try (destruct sx; reflexivity); try (destruct sy; reflexivity);
    try (destruct sx, sy; reflexivity).
  destruct sx, sy; try reflexivity;
    rewrite (Z.compare_antisym ex ey);
    destruct (ex ?= ey)%Z; simpl; try reflexivity;
    change (Pos.compare_cont Eq my mx) with (Pos.compare my mx);
    change (Pos.compare_cont Eq mx my) with (Pos.compare mx my);
    rewrite (Pos.compare_antisym mx my);
    try rewrite CompOpp_involutive; reflexivity.
Qed.

Lemma SFcompare_nan : forall x y,
  SFcompare x y = None -> Num.is_nan x = true \/ Num.is_nan y = true.
Proof.
  intros [sx|sx| |sx mx ex] [sy|sy| |sy my ey]; simpl; auto; discriminate.
Qed.

(** [Math.max(0, Math.min(255, x))] lies in [0,255] unless [x] is NaN. *)
Lemma clamp_range : forall x,
  Num.is_nan x = false ->
  in_byte_range (Num.max (Num.lit "0") (Num.min (Num.lit "255") x)).
Proof.
  intros x Hx. unfold in_byte_range.
  vm_sub (Num.lit "0"). vm_sub (Num.lit "255").
  set (c := S754_finite false _ _).
  assert (Hc : forall y,
    SFcompare c y = Some Eq \/ SFcompare c y = Some Gt -> Num.leb y c = true).
  { intros y Hy. unfold Num.leb, SFleb. rewrite (SFcompare_swap c y).
    destruct Hy as [-> | ->]; reflexivity. }
  assert (Hz : forall y,
    Num.is_nan y = false -> Num.leb y c = true ->
    Num.leb (S754_zero false) (Num.max (S754_zero false) y) = true
    /\ Num.leb (Num.max (S754_zero false) y) c = true).
  { intros y Hy Hle. unfold Num.max.
    destruct (SFcompare (S754_zero false) y) as [[| |]|] eqn:E.
    - simpl. split; reflexivity.
    - split; [|exact Hle]. unfold Num.leb, SFleb. rewrite E. reflexivity.
    - split; reflexivity.
    - apply SFcompare_nan in E.
      destruct E as [E|E]; [discriminate|congruence]. }
  unfold Num.min at 1 2.
  destruct (SFcompare c x) as [[| |]|] eqn:E.
  - simpl. apply Hz; auto.
  - split; reflexivity.
  - apply Hz; auto.
  - apply SFcompare_nan in E. destruct E as [E|E]; [discriminate|congruence].
Qed.

(** ** The sample a formatter receives *)

(** C6, as the code has it.  When a formatter is invoked for a token, each
    of red, green and blue that the parser produced as a number (not NaN)
    lies in [0,255]; alpha is handed over as the parser returned it,
    without clamping. *)
Theorem formatter_sample_channels_clamped :
  forall (M : MathLib) (match_ : Str.t) (rgb : RGB.t),
    sampleForFormatter M match_ = Some rgb ->
    exists parsed,
      parseToken M (Str.trim (Str.toLowerCase match_)) = Some parsed
      /\ (Num.is_nan (RGB.r parsed) = false -> in_byte_range (RGB.r rgb))
      /\ (Num.is_nan (RGB.g parsed) = false -> in_byte_range (RGB.g rgb))
      /\ (Num.is_nan (RGB.b parsed) = false -> in_byte_range (RGB.b rgb))
      /\ RGB.a rgb = RGB.a parsed.
Proof.
  intros M match_ rgb H. unfold sampleForFormatter in H.
  destruct (parseToken M (Str.trim (Str.toLowerCase match_))) as [parsed|];
    [|discriminate].
  injection H as <-. exists parsed. cbn [clampRgb RGB.r RGB.g RGB.b RGB.a].
  repeat split; auto; apply clamp_range; assumption.
Qed.

Lemma formatter_sample_channels_clamped_witness :
  sampleForFormatter Math_NaN $"rgba(300, 2, 3, 5)"
  = Some (RGB.mk (Num.of_Z 255) (Num.of_Z 2) (Num.of_Z 3) (Some (Num.of_Z 5)))
  /\ exists parsed,
      parseToken Math_NaN (Str.trim (Str.toLowerCase $"rgba(300, 2, 3, 5)"))
      = Some parsed
      /\ (Num.is_nan (RGB.r parsed) = false -> in_byte_range (Num.of_Z 255))
      /\ (Num.is_nan (RGB.g parsed) = false -> in_byte_range (Num.of_Z 2))
      /\ (Num.is_nan (RGB.b parsed) = false -> in_byte_range (Num.of_Z 3))
      /\ Some (Num.of_Z 5) = RGB.a parsed.
Proof.
  split; [vm_compute; reflexivity|].
  apply (formatter_sample_channels_clamped Math_NaN $"rgba(300, 2, 3, 5)"
           (RGB.mk (Num.of_Z 255) (Num.of_Z 2) (Num.of_Z 3)
                   (Some (Num.of_Z 5)))).
  vm_compute. reflexivity.
Defined.

(** C6 as stated fails: [rgba(1, 2, 3, 5)] reaches the formatter with
    alpha 5, outside [0,1]. *)
Lemma formatter_sample_alpha_unclamped :
  ~ (forall (M : MathLib) (match_ : Str.t) (rgb : RGB.t),
       sampleForFormatter M match_ = Some rgb -> sample_invariant rgb).
Proof.
  intros H.
  specialize (H Math_NaN $"rgba(1, 2, 3, 5)"
                (RGB.mk (Num.of_Z 1) (Num.of_Z 2) (Num.of_Z 3)
                        (Some (Num.of_Z 5)))).
  destruct H as (_ & _ & _ & Ha); [vm_compute; reflexivity|].
  destruct (Ha (Num.of_Z 5) eq_refl) as (_ & _ & Hle).
  vm_compute in Hle. discriminate Hle.
Qed.

(** ** Formatters *)

Lemma toFixed_ok : forall x f,
  (0 <= f <= 100)%Z -> exists t, Num.toFixed x f = Ok t.
Proof.
  intros x f H. unfold Num.toFixed.
  replace ((0 <=? f)%Z && (f <=? 100)%Z) with true
    by (symmetry; apply andb_true_iff; split; apply Z.leb_le; lia).
  cbn [negb]. destruct x; eauto.
  destruct (Num.cmp_pow10 _ _ _); eauto.
Qed.

(** The digits [toFixed] writes are those of an integer within one half of
    the scaled value. *)
Lemma nearest_scaled_spec : forall m e f : Z,
  (0 <= e -> Num.nearest_scaled m e f = m * 2 ^ e * 10 ^ f)%Z
  /\ (e < 0 ->
      Z.abs (2 * Num.nearest_scaled m e f * 2 ^ (- e) - 2 * m * 10 ^ f)
      <= 2 ^ (- e))%Z.
Proof.
  intros m e f. unfold Num.nearest_scaled. split; intros He.
  - replace (0 <=? e)%Z with true by (symmetry; apply Z.leb_le; lia).
    reflexivity.
  - replace (0 <=? e)%Z with false by (symmetry; apply Z.leb_gt; lia).
    replace (- e + 1)%Z with (Z.succ (- e)) by lia.
    rewrite Z.pow_succ_r by lia.
    assert (HD : (0 < 2 ^ (- e))%Z) by (apply Z.pow_pos_nonneg; lia).
    set (D := (2 ^ (- e))%Z) in *. set (x := (2 * m * 10 ^ f)%Z).
    pose proof (Z.div_mod (x + D) (2 * D) ltac:(lia)) as Hdm.
    pose proof (Z.mod_pos_bound (x + D) (2 * D) ltac:(lia)) as Hb.
    set (q := ((x + D) / (2 * D))%Z) in *. lia.
Qed.

Lemma padStart_length : forall n c s, n <= length (Str.padStart n c s).
Proof.
  intros n c s. unfold Str.padStart. rewrite length_app, repeat_length. lia.
Qed.

Lemma toHex_nonempty : forall x, toHex x <> [].
Proof.
  intros x H.
  pose proof (padStart_length 2 "0"%char (Num.toString16 (Num.round x))) as L.
  unfold toHex in H. rewrite H in L. simpl in L. lia.
Qed.

Lemma alpha_below_1_one : forall a,
  Num.eqb a (Num.lit "1") = true -> alpha_below_1 (Some a) = None.
Proof.
  intros a H. unfold alpha_below_1, Num.eqb, Num.ltb, SFeqb, SFltb in *.
  destruct (SFcompare a (Num.lit "1")) as [[| |]|]; try discriminate.
  reflexivity.
Qed.

Lemma alpha_below_1_lt : forall a,
  Num.ltb a (Num.lit "1") = true -> alpha_below_1 (Some a) = Some a.
Proof.
  intros a H. unfold alpha_below_1. rewrite H. reflexivity.
Qed.

(** A pattern [p$] with literal [p] strips a trailing [p]. *)
Lemma match_at_lit_eos : forall p s,
  match_at (Lit p -:- Eos) s = if Str.eqb s p then Some ([], []) else None.
Proof.
  intros p s. unfold match_at. cbn [run].
  destruct (Str.strip_prefix p s) as [s'|] eqn:E.
  - apply strip_prefix_app in E. subst s. destruct s' as [|a s'].
    + rewrite app_nil_r, Str_eqb_refl. reflexivity.
    + rewrite Str_eqb_neq; [reflexivity|].
      intros H. apply (f_equal (@length _)) in H.
      rewrite length_app in H. simpl in H. lia.
  - rewrite Str_eqb_neq; [reflexivity|].
    intros ->. rewrite <- (app_nil_r p) in E at 2.
    rewrite strip_prefix_here in E. discriminate.
Qed.

Lemma replace_suffix_spec : forall p s,
  p <> [] ->
  replace_first (Lit p -:- Eos) (fun _ => []) s = strip_trailing p s.
Proof.
  intros p s Hp. unfold strip_trailing, Str.endsWith.
  induction s as [|a s IH].
  - cbn [replace_first]. rewrite match_at_lit_eos.
    destruct p; [contradiction|]. reflexivity.
  - cbn [replace_first]. rewrite match_at_lit_eos.
    destruct (Str.eqb (a :: s) p) eqn:E.
    + apply Str_eqb_eq in E. subst p. rewrite Nat.leb_refl, Nat.sub_diag.
      cbn [skipn]. rewrite Str_eqb_refl. reflexivity.
    + rewrite IH. clear IH.
      destruct (Nat.leb (length p) (length s)) eqn:L.
      * apply Nat.leb_le in L.
        replace (Nat.leb (length p) (length (a :: s))) with true
          by (symmetry; apply Nat.leb_le;
              change (length (a :: s)) with (S (length s)); lia).
        replace (length (a :: s) - length p) with (S (length s - length p))
          by (change (length (a :: s)) with (S (length s)); lia).
        cbn [skipn andb firstn].
        destruct (Str.eqb (skipn (length s - length p) s) p); reflexivity.
      * apply Nat.leb_gt in L. cbn [andb].
        destruct (Nat.leb (length p) (length (a :: s))) eqn:L2; [|reflexivity].
        apply Nat.leb_le in L2.
        change (length (a :: s)) with (S (length s)) in L2.
        replace (length (a :: s) - length p) with 0
          by (change (length (a :: s)) with (S (length s)); lia).
        cbn [skipn andb]. rewrite E. reflexivity.
Qed.

Lemma strip_dot0_spec : forall s, strip_dot0 s = strip_trailing $".0" s.
Proof. intros s. apply replace_suffix_spec. discriminate. Qed.

Section Formatters.

Variable M : MathLib.

Local Ltac fixed x f t Ht :=
  destruct (toFixed_ok x f) as [t Ht]; [lia|]; rewrite Ht; cbn [bind].

Lemma formatOklch_forms : forall (o : Oklch.t) (css : bool),
  exists c,
    formatOklch (Oklch.mk (Oklch.L o) (Oklch.C o) (Oklch.h o) None) css
    = Ok (if css then $"oklch(" ++ c ++ $")" else c)
    /\ (alpha_below_1 (Oklch.a o) = None ->
        formatOklch o css
        = formatOklch (Oklch.mk (Oklch.L o) (Oklch.C o) (Oklch.h o) None) css)
    /\ (forall a, alpha_below_1 (Oklch.a o) = Some a ->
        exists alpha,
          formatOklch o css
          = Ok (if css then $"oklch(" ++ c ++ $" / " ++ alpha ++ $")"
                else c ++ $" / " ++ alpha)).
Proof.
  intros [L C h al] css. unfold formatOklch.
  cbn [Oklch.L Oklch.C Oklch.h Oklch.a].
  fixed (Num.mul L (Num.lit "100")) 2%Z l0 Hl.
  fixed C 4%Z c0 Hc. fixed h 2%Z h0 Hh.
  cbn [alpha_below_1 bind].
  destruct css.
  - exists (strip_dot00 l0 ++ $"% " ++ strip_dot (strip_fraction_zeros c0)
            ++ $" " ++ strip_dot00 h0).
    split; [|split].
    + rewrite <- ?app_assoc. reflexivity.
    + intros ->. reflexivity.
    + intros a ->. fixed a 2%Z a0 Ha0.
      exists (replace_prefix $"0." $"." (strip_dot (strip_zeros a0))).
      rewrite <- ?app_assoc. reflexivity.
  - exists (strip_dot00 l0 ++ $" " ++ strip_dot (strip_fraction_zeros c0)
            ++ $" " ++ strip_dot00 h0).
    split; [|split].
    + rewrite <- ?app_assoc, ?app_nil_r. reflexivity.
    + intros ->. reflexivity.
    + intros a ->. fixed a 2%Z a0 Ha0.
      exists (replace_prefix $"0." $"." (strip_dot (strip_zeros a0))).
      rewrite <- ?app_assoc. reflexivity.
Qed.

(** For each of the four formats: the text of the sample without alpha,
    the text of the sample when its alpha is absent or not below 1, and
    the text when it is below 1. *)
Lemma formatColor_forms : forall options rgb m,
  known_format (format options) ->
  exists c,
    formatColor M options (opaque rgb) m = Ok (plain_form options c)
    /\ (alpha_below_1 (RGB.a rgb) = None ->
        formatColor M options rgb m = formatColor M options (opaque rgb) m)
    /\ (forall a, alpha_below_1 (RGB.a rgb) = Some a ->
        exists alpha,
          formatColor M options rgb m = Ok (alpha_form options c alpha)
          /\ (format options = $"hex" -> alpha <> [])).
Proof.
  intros [f css] [r g b al] m H. unfold known_format in H. cbn [format] in H.
  unfold formatColor, plain_form, alpha_form, opaque.
  cbn [format useCssSyntax RGB.r RGB.g RGB.b RGB.a].
  destruct H as [-> | [-> | [-> | ->]]]; vm_tests; cbv iota.
  - destruct (formatOklch_forms (rgbToOklch M (RGB.mk r g b al)) css)
      as (c & H0 & H1 & H2).
    exists c. split; [exact H0|]. split; [exact H1|].
    intros a Ha. destruct (H2 a Ha) as [alpha Hal].
    exists alpha. split; [exact Hal|discriminate].
  - unfold rgbToHex. cbn [RGB.r RGB.g RGB.b RGB.a alpha_below_1].
    exists (toHex r ++ toHex g ++ toHex b). split; [|split].
    + reflexivity.
    + intros ->. reflexivity.
    + intros a ->. exists (toHex (Num.mul a (Num.lit "255"))). split.
      * rewrite <- ?app_assoc. reflexivity.
      * intros _. apply toHex_nonempty.
  - cbn [alpha_below_1]. destruct css.
    + exists (Num.toString (Num.round r) ++ $", "
              ++ Num.toString (Num.round g) ++ $", "
              ++ Num.toString (Num.round b)).
      split; [|split].
      * rewrite <- ?app_assoc. reflexivity.
      * intros ->. reflexivity.
      * intros a ->. fixed a 2%Z a0 Ha0.
        exists (Num.toString (Num.parseFloat a0)). split; [|discriminate].
        rewrite <- ?app_assoc. reflexivity.
    + exists (Num.toString (Num.round r) ++ $" "
              ++ Num.toString (Num.round g) ++ $" "
              ++ Num.toString (Num.round b)).
      split; [|split].
      * reflexivity.
      * intros ->. reflexivity.
      * intros a ->. fixed a 2%Z a0 Ha0.
        exists (Num.toString (Num.parseFloat a0)). split; [|discriminate].
        rewrite <- ?app_assoc. reflexivity.
  - assert (Hh : forall al', HSL.h (rgbToHsl (RGB.mk r g b al'))
                             = HSL.h (rgbToHsl (RGB.mk r g b None)))
      by reflexivity.
    assert (Hs : forall al', HSL.s (rgbToHsl (RGB.mk r g b al'))
                             = HSL.s (rgbToHsl (RGB.mk r g b None)))
      by reflexivity.
    assert (Hl : forall al', HSL.l (rgbToHsl (RGB.mk r g b al'))
                             = HSL.l (rgbToHsl (RGB.mk r g b None)))
      by reflexivity.
    assert (Ha : forall al', HSL.a (rgbToHsl (RGB.mk r g b al')) = al')
      by reflexivity.
    rewrite (Hh al), (Hs al), (Hl al), !Ha.
    set (hsl := rgbToHsl (RGB.mk r g b None)).
    fixed (HSL.h hsl) 0%Z h0 Hh0. fixed (HSL.s hsl) 1%Z s0 Hs0.
    fixed (HSL.l hsl) 1%Z l0 Hl0.
    cbn [alpha_below_1]. destruct css.
    + exists (h0 ++ $", " ++ strip_dot0 s0 ++ $"%, " ++ strip_dot0 l0 ++ $"%").
      split; [|split].
      * rewrite <- ?app_assoc. reflexivity.
      * intros ->. reflexivity.
      * intros a ->. fixed a 2%Z a0 Ha0.
        exists (Num.toString (Num.parseFloat a0)). split; [|discriminate].
        rewrite <- ?app_assoc. reflexivity.
    + exists (h0 ++ $" " ++ strip_dot0 s0 ++ $" " ++ strip_dot0 l0).
      split; [|split].
      * reflexivity.
      * intros ->. reflexivity.
      * intros a ->. fixed a 2%Z a0 Ha0.
        exists (Num.toString (Num.parseFloat a0)). split; [|discriminate].
        rewrite <- ?app_assoc. reflexivity.
Qed.

Lemma alpha_form_longer : forall options c alpha,
  (format options = $"hex" -> alpha <> []) ->
  length (plain_form options c) < length (alpha_form options c alpha).
Proof.
  intros [f css] c alpha H. unfold plain_form, alpha_form.
  cbn [format useCssSyntax] in *.
  destruct (Str.eqb f $"hex") eqn:E.
  - apply Str_eqb_eq in E. specialize (H E).
    destruct alpha as [|x alpha]; [contradiction|].
    rewrite !length_app. simpl. lia.
  - destruct (Str.eqb f $"rgb"); [|destruct (Str.eqb f $"hsl")];
      destruct css; rewrite ?length_app; simpl; rewrite ?length_app; simpl; lia.
Qed.

(** C4. Alpha presence law.  For a token whose parse succeeds and each of
    the four formats, in either syntax style: a sample whose alpha is absent
    or equal to 1 is written exactly as the sample without alpha, in the
    form without an alpha component; a sample whose alpha is below 1 is
    written in the form with an alpha component around the same other
    components, a strictly longer text. *)
Theorem alpha_presence_law :
  forall (options : ConvertOptions) (token : Str.t) (rgb : RGB.t),
    known_format (format options) ->
    sampleForFormatter M token = Some rgb ->
    exists c,
      formatColor M options (opaque rgb) token = Ok (plain_form options c)
      /\ ((RGB.a rgb = None
           \/ exists a, RGB.a rgb = Some a
                        /\ Num.eqb a (Num.lit "1") = true) ->
          convertToken M options token = plain_form options c)
      /\ (forall a, RGB.a rgb = Some a ->
            Num.ltb a (Num.lit "1") = true ->
            exists alpha,
              convertToken M options token = alpha_form options c alpha
              /\ length (plain_form options c)
                 < length (alpha_form options c alpha)).
Proof.
  intros options token rgb Hf Hs.
  destruct (formatColor_forms options rgb token Hf) as (c & H0 & H1 & H2).
  exists c. split; [exact H0|].
  unfold convertToken, convertBody. rewrite Hs. split.
  - intros Ha. rewrite H1, H0; [reflexivity|].
    destruct Ha as [-> | (a & -> & Ha)]; [reflexivity|].
    apply alpha_below_1_one, Ha.
  - intros a Ha Hlt. rewrite Ha in H2.
    destruct (H2 a (alpha_below_1_lt a Hlt)) as (alpha & Hal & Hne).
    exists alpha. rewrite Hal. split; [reflexivity|].
    apply alpha_form_longer, Hne.
Qed.

(** C8. The hsl case of the formatter is the formatter of the
    specification: hue with 0 decimals, saturation and lightness with 1
    decimal and a trailing [.0] stripped, in the four layouts of the two
    syntax styles with and without alpha.  The decimals [toFixed] writes for
    a finite number below 10^21 are those of the integer nearest to the
    scaled value.  So [#6750A4] becomes [hsl(256, 34.4%, 47.8%)] and
    [#fff8] becomes [0 0 100 / 0.53]. *)
Theorem hsl_format_refines_spec :
  (forall (rgb : RGB.t) (match_ : Str.t) (css : bool),
      formatColor M {| format := $"hsl"; useCssSyntax := css |} rgb match_
      = spec_format_hsl (rgbToHsl rgb) css)
  /\ (forall (sg : bool) (m : positive) (e f : Z),
        (0 <= f <= 100)%Z ->
        Num.cmp_pow10 (Zpos m) e 21 = Lt ->
        let n := Num.nearest_scaled (Zpos m) e f in
        Num.toFixed (S754_finite sg m e) f
        = Ok ((if sg then $"-" else []) ++ Num.point_form n f)
        /\ (0 <= e -> n = Zpos m * 2 ^ e * 10 ^ f)%Z
        /\ (e < 0 -> Z.abs (2 * n * 2 ^ (- e) - 2 * Zpos m * 10 ^ f)
                     <= 2 ^ (- e))%Z)
  /\ convertCssColors M $"#6750A4" {| format := $"hsl"; useCssSyntax := true |}
     = $"hsl(256, 34.4%, 47.8%)"
  /\ convertCssColors M $"#fff8" {| format := $"hsl"; useCssSyntax := false |}
     = $"0 0 100 / 0.53".
Proof.
  split; [|split; [|split; vm_compute; reflexivity]].
  - intros rgb m css. unfold formatColor, spec_format_hsl.
    cbn [format useCssSyntax]. vm_tests. cbv iota.
    fixed (HSL.h (rgbToHsl rgb)) 0%Z h0 Hh0.
    fixed (HSL.s (rgbToHsl rgb)) 1%Z s0 Hs0.
    fixed (HSL.l (rgbToHsl rgb)) 1%Z l0 Hl0.
    rewrite !strip_dot0_spec. reflexivity.
  - intros sg m e f Hf Hlt n. split; [|apply nearest_scaled_spec].
    unfold Num.toFixed.
    replace ((0 <=? f)%Z && (f <=? 100)%Z) with true
      by (symmetry; apply andb_true_iff; split; apply Z.leb_le; lia).
    cbn [negb]. rewrite Hlt. reflexivity.
Qed.

End Formatters.

Lemma alpha_presence_law_witness :
  let options := {| format := $"rgb"; useCssSyntax := true |} in
  let token := $"rgba(1, 2, 3, 0.5)" in
  let rgb := RGB.mk (Num.of_Z 1) (Num.of_Z 2) (Num.of_Z 3)
                    (Some (Num.lit "0.5")) in
  known_format (format options)
  /\ sampleForFormatter Math_NaN token = Some rgb
  /\ exists c,
      formatColor Math_NaN options (opaque rgb) token
      = Ok (plain_form options c)
      /\ ((RGB.a rgb = None
           \/ exists a, RGB.a rgb = Some a
                        /\ Num.eqb a (Num.lit "1") = true) ->
          convertToken Math_NaN options token = plain_form options c)
      /\ (forall a, RGB.a rgb = Some a ->
            Num.ltb a (Num.lit "1") = true ->
            exists alpha,
              convertToken Math_NaN options token = alpha_form options c alpha
              /\ length (plain_form options c)
                 < length (alpha_form options c alpha)).
Proof.
  intros options token rgb.
  assert (Hf : known_format (format options))
    by (right; right; left; reflexivity).
  assert (Hs : sampleForFormatter Math_NaN token = Some rgb)
    by (vm_compute; reflexivity).
  split; [exact Hf|]. split; [exact Hs|].
  exact (alpha_presence_law Math_NaN options token rgb Hf Hs).
Defined.

Lemma hsl_format_refines_spec_witness :
  let m := 4503599627370496%positive in
  (0 <= 0 <= 100)%Z
  /\ Num.cmp_pow10 (Zpos m) (-53) 21 = Lt
  /\ Num.toFixed (S754_finite false m (-53)) 0
     = Ok ([] ++ Num.point_form (Num.nearest_scaled (Zpos m) (-53) 0) 0)
  /\ Num.toFixed (Num.lit "0.5") 0 = Ok $"1".
Proof.
  intros m.
  assert (Hf : (0 <= 0 <= 100)%Z) by lia.
  assert (Hlt : Num.cmp_pow10 (Zpos m) (-53) 21 = Lt) by reflexivity.
  split; [exact Hf|]. split; [exact Hlt|]. split; [|reflexivity].
  exact (proj1 (proj1 (proj2 (hsl_format_refines_spec Math_NaN))
                  false m (-53)%Z 0%Z Hf Hlt)).
Defined.

(** ** Tokens of the scanning pattern *)

Lemma not_rparen_neq : forall w,
  Forall (fun a => not_rparen a = true) w ->
  Forall (fun a => a <> ")"%char) w.
Proof.
  intros w H. eapply Forall_impl; [|exact H].
  intros a Ha ->. discriminate Ha.
Qed.

Lemma lang_plus_nonempty : forall p w,
  lang (Plus p) w -> w <> [] /\ Forall (fun a => p a = true) w.
Proof.
  intros p w (Hw & Hlen & _). split; [|exact Hw].
  intros ->. simpl in Hlen. lia.
Qed.

Lemma COLOR_REGEX_shape : forall m, lang COLOR_REGEX m -> token_shape m.
Proof.
  intros m H. unfold COLOR_REGEX in H. cbn [lang] in H.
  destruct H as [H|[H|[H|H]]].
  - destruct H as (u & v & -> & -> & u1 & v1 & -> & Ha & u2 & v2 & -> & ->
                   & u3 & v3 & -> & Hb & ->).
    apply lang_plus_nonempty in Hb. destruct Hb as [Hne Hb].
    left. destruct Ha as [-> | ->].
    + exists $"hsl(", u3. repeat split; auto using not_rparen_neq. simpl; auto.
    + exists $"hsla(", u3. repeat split; auto using not_rparen_neq. simpl; auto.
  - destruct H as (u & v & -> & -> & u1 & v1 & -> & Ha & u2 & v2 & -> & ->
                   & u3 & v3 & -> & Hb & ->).
    apply lang_plus_nonempty in Hb. destruct Hb as [Hne Hb].
    left. destruct Ha as [-> | ->].
    + exists $"rgb(", u3. repeat split; auto using not_rparen_neq. simpl; auto.
    + exists $"rgba(", u3. repeat split; auto using not_rparen_neq.
      simpl; auto.
  - destruct H as (u & v & -> & -> & Hd & Hlo & Hhi).
    right. exists v. auto.
  - destruct H as (u & v & -> & -> & u3 & v3 & -> & Hb & ->).
    apply lang_plus_nonempty in Hb. destruct Hb as [Hne Hb].
    left. exists $"oklch(", u3. repeat split; auto using not_rparen_neq.
    simpl; auto 6.
Qed.

(** C5, as the code has it.  The scanning pattern has no [i] flag: the
    keywords match in lower case only.  Every token of a scan opens with
    [hsl(], [hsla(], [rgb(], [rgba(] or [oklch(] so spelled, or is [#] and
    hex digits of either case, and is the very text of the input (the
    pieces, put back together, are the input).  [rgb(103, 80, 164)] and
    [#6750A4] are tokens; [RGB(103, 80, 164)] and [HSL(200, 80%, 60%)] are
    not matched, by this pattern or by the pattern of the earlier copy, and
    the converter returns them as they are. *)
Theorem tokenizer_keywords_case_sensitive :
  (forall s m, In (Token m) (scan COLOR_REGEX s) -> token_shape m)
  /\ (forall s, concat (map piece_src (scan COLOR_REGEX s)) = s)
  /\ scan COLOR_REGEX $"rgb(103, 80, 164)" = [Token $"rgb(103, 80, 164)"]
  /\ scan COLOR_REGEX $"#6750A4" = [Token $"#6750A4"]
  /\ scan COLOR_REGEX $"RGB(103, 80, 164)" = map Text $"RGB(103, 80, 164)"
  /\ scan COLOR_REGEX $"HSL(200, 80%, 60%)" = map Text $"HSL(200, 80%, 60%)"
  /\ scan colorRegex $"RGB(103, 80, 164)" = map Text $"RGB(103, 80, 164)"
  /\ scan colorRegex $"HSL(200, 80%, 60%)" = map Text $"HSL(200, 80%, 60%)"
  /\ (forall (M : MathLib) (options : ConvertOptions),
        convertCssColors M $"RGB(103, 80, 164)" options = $"RGB(103, 80, 164)"
        /\ convertCssColors M $"HSL(200, 80%, 60%)" options
           = $"HSL(200, 80%, 60%)").
Proof.
  split; [|split].
  - intros s m H. apply COLOR_REGEX_shape. exact (scan_tokens_lang _ _ _ H).
  - apply scan_src.
  - repeat split; vm_compute; reflexivity.
Qed.

Lemma tokenizer_keywords_case_sensitive_witness :
  In (Token $"#6750A4") (scan COLOR_REGEX $"color: #6750A4;")
  /\ token_shape $"#6750A4".
Proof.
  assert (Hin : In (Token $"#6750A4") (scan COLOR_REGEX $"color: #6750A4;"))
    by (vm_compute; auto 10).
  split; [exact Hin|].
  exact (proj1 tokenizer_keywords_case_sensitive _ _ Hin).
Defined.

(** C5 as stated fails: a scan of [RGB(103, 80, 164)] yields no token. *)
Lemma uppercase_keyword_not_matched :
  ~ In (Token $"RGB(103, 80, 164)") (scan COLOR_REGEX $"RGB(103, 80, 164)").
Proof.
  replace (scan COLOR_REGEX $"RGB(103, 80, 164)")
    with (map Text $"RGB(103, 80, 164)") by (vm_compute; reflexivity).
  intros H. apply in_map_iff in H. destruct H as (a & H & _). discriminate H.
Qed.

(** ** Tokens the rgb parser rejects *)

Lemma lang_star : forall p w, lang (Star p) w -> all p w.
Proof. intros p w (H & _). exact H. Qed.

Lemma RGB_REGEX_shape : forall w,
  lang RGB_REGEX w ->
  exists kw x,
    (kw = $"rgb(" \/ kw = $"rgba(") /\ w = kw ++ x ++ $")"
    /\ rgb_arguments_shape x.
Proof.
  intros w H. unfold RGB_REGEX in H. cbn [lang] in H.
  destruct H as (u0 & v0 & -> & -> & ua & v1 & -> & Ha & u2 & v2 & -> & ->
                 & d1 & v3 & -> & Hd1 & s1 & v4 & -> & Hs1
                 & d2 & v5 & -> & Hd2 & s2 & v6 & -> & Hs2
                 & d3 & v7 & -> & Hd3 & tail & v8 & -> & Ht & ->).
  apply lang_plus_nonempty in Hd1, Hs1, Hd2, Hs2, Hd3.
  assert (Hshape : rgb_arguments_shape (d1 ++ s1 ++ d2 ++ s2 ++ d3 ++ tail)).
  { exists d1, s1, d2, s2, d3, tail. repeat split; try tauto.
    destruct Ht as [->|Ht]; [left; reflexivity|right].
    destruct Ht as (w1 & v9 & -> & Hw1 & c & v10 & -> & (c0 & -> & Hc)
                    & w2 & al & -> & Hw2 & Hal).
    apply lang_star in Hw1, Hw2. apply lang_plus_nonempty in Hal.
    exists w1, c0, w2, al. repeat split; tauto. }
  destruct Ha as [-> | ->].
  - exists $"rgb(", (d1 ++ s1 ++ d2 ++ s2 ++ d3 ++ tail).
    split; [left; reflexivity|]. split; [|exact Hshape].
    rewrite <- !app_assoc. reflexivity.
  - exists $"rgba(", (d1 ++ s1 ++ d2 ++ s2 ++ d3 ++ tail).
    split; [right; reflexivity|]. split; [|exact Hshape].
    rewrite <- !app_assoc. reflexivity.
Qed.

Ltac ascii_cases a := destruct a as [[] [] [] [] [] [] [] []].

Lemma digit_not_separator : forall a,
  Str.is_digit a = true -> is_arg_separator a = false.
Proof. intros a. ascii_cases a; vm_compute; congruence. Qed.

Lemma comma_or_space_separator : forall a,
  comma_or_space a = true -> is_arg_separator a = true.
Proof. intros a H. unfold is_arg_separator. rewrite H. reflexivity. Qed.

Lemma space_separator : forall a,
  Str.is_space a = true -> is_arg_separator a = true.
Proof.
  intros a H. unfold is_arg_separator, comma_or_space. rewrite H.
  apply orb_true_iff. left. apply orb_true_r.
Qed.

Lemma comma_or_slash_separator : forall a,
  comma_or_slash a = true -> is_arg_separator a = true.
Proof. intros a. ascii_cases a; vm_compute; congruence. Qed.

Lemma fields_nonempty : forall s, fields s <> [].
Proof.
  induction s as [|a s IH]; simpl; [discriminate|].
  destruct (is_arg_separator a); [discriminate|].
  destruct (fields s); discriminate.
Qed.


Lemma fields_word : forall w s,
  all (fun a => negb (is_arg_separator a)) w ->
  exists f fs, fields s = f :: fs /\ fields (w ++ s) = (w ++ f) :: fs.
Proof.
  induction w as [|a w IH]; intros s Hw.
  - destruct (fields s) as [|f fs] eqn:E; [destruct (fields_nonempty s E)|].
    exists f, fs. auto.
  - inversion Hw as [|? ? Ha Hw']; subst.
    destruct (IH s Hw') as (f & fs & E1 & E2).
    exists f, fs. split; [exact E1|]. simpl.
    apply negb_true_iff in Ha. rewrite Ha, E2. reflexivity.
Qed.

Lemma arguments_word : forall w s,
  w <> [] -> all (fun a => negb (is_arg_separator a)) w ->
  starts_with_separator s ->
  arguments (w ++ s) = w :: arguments s.
Proof.
  intros w s Hne Hw Hs. unfold arguments.
  destruct (fields_word w s Hw) as (f & fs & E1 & E2). rewrite E2.
  destruct s as [|a s].
  - simpl in E1. injection E1 as <- <-. rewrite app_nil_r. simpl.
    destruct w; [contradiction|reflexivity].
  - simpl in Hs. simpl in E1. rewrite Hs in E1. injection E1 as <- <-.
    rewrite app_nil_r. simpl. rewrite Hs. simpl.
    destruct w; [contradiction|reflexivity].
Qed.

Lemma arguments_separators : forall ws s,
  all is_arg_separator ws -> arguments (ws ++ s) = arguments s.
Proof.
  induction ws as [|a ws IH]; intros s H; [reflexivity|].
  inversion H as [|? ? Ha H']; subst. unfold arguments. simpl. rewrite Ha.
  simpl. apply IH, H'.
Qed.

Lemma all_impl : forall (p q : ascii -> bool) w,
  (forall a, p a = true -> q a = true) -> all p w -> all q w.
Proof. intros p q w H Hw. eapply Forall_impl; [|exact Hw]. exact H. Qed.

Lemma starts_sep_app : forall ws s,
  ws <> [] -> all is_arg_separator ws -> starts_with_separator (ws ++ s).
Proof.
  intros [|a ws] s Hne H; [contradiction|]. inversion H; subst. assumption.
Qed.

Lemma rgb_arguments_first3 : forall x,
  rgb_arguments_shape x ->
  exists d1 d2 d3, firstn 3 (arguments x) = [d1; d2; d3]
    /\ all Str.is_digit d1 /\ all Str.is_digit d2 /\ all Str.is_digit d3.
Proof.
  intros x (d1 & s1 & d2 & s2 & d3 & tail & -> & (N1 & D1) & (M1 & S1)
            & (N2 & D2) & (M2 & S2) & (N3 & D3) & Ht).
  assert (Hd : forall d,
             all Str.is_digit d ->
             all (fun a => negb (is_arg_separator a)) d).
  { intros d. apply all_impl. intros a Ha.
    rewrite (digit_not_separator a Ha). reflexivity. }
  assert (Hs : forall s, all comma_or_space s -> all is_arg_separator s).
  { intros s. apply all_impl, comma_or_space_separator. }
  exists d1, d2, d3. repeat split; auto.
  rewrite arguments_word; auto using starts_sep_app.
  rewrite arguments_separators by auto.
  rewrite arguments_word; auto using starts_sep_app.
  rewrite arguments_separators by auto.
  rewrite arguments_word; auto.
  destruct Ht as [-> | (w1 & c & w2 & al & -> & W1 & C & W2 & NA & AL)];
    [exact I|].
  destruct w1 as [|a w1]; simpl.
  - apply comma_or_slash_separator, C.
  - inversion W1; subst. apply space_separator. assumption.
Qed.

Lemma trim_id : forall a m z,
  Str.is_space a = false -> Str.is_space z = false ->
  Str.trim (a :: m ++ [z]) = a :: m ++ [z].
Proof.
  intros a m z Ha Hz. unfold Str.trim.
  cbn [Str.trimStart]. rewrite Ha.
  change (a :: m ++ [z]) with ((a :: m) ++ [z]) at 1.
  rewrite rev_app_distr. cbn [rev app Str.trimStart]. rewrite Hz.
  change (z :: rev m ++ [a]) with ([z] ++ (rev m ++ [a])).
  rewrite rev_app_distr, rev_app_distr, rev_involutive. reflexivity.
Qed.

Lemma lower_char_separator : forall a,
  is_arg_separator (Str.lower_char a) = is_arg_separator a.
Proof. intros a. ascii_cases a; vm_compute; reflexivity. Qed.

Lemma lower_char_punct : forall a x,
  In x punctuation -> Str.lower_char a = x -> a = x.
Proof.
  intros a x Hx H. rewrite <- H in Hx. rewrite <- H.
  ascii_cases a; vm_compute in Hx |- *; intuition congruence.
Qed.

Lemma in_toLowerCase : forall x s,
  In x punctuation -> (In x (Str.toLowerCase s) <-> In x s).
Proof.
  intros x s Hx. unfold Str.toLowerCase. rewrite in_map_iff. split.
  - intros (a & Ha & Hin). apply (lower_char_punct a x Hx) in Ha.
    subst a. exact Hin.
  - intros Hin. exists x. split; [|exact Hin].
    destruct Hx as [<-|[<-|[<-|[<-|[<-|[]]]]]]; reflexivity.
Qed.

Lemma fields_toLowerCase : forall s,
  fields (Str.toLowerCase s) = map Str.toLowerCase (fields s).
Proof.
  unfold Str.toLowerCase.
  induction s as [|a s IH]; [reflexivity|].
  cbn [map fields]. rewrite lower_char_separator, IH.
  destruct (is_arg_separator a); [reflexivity|].
  destruct (fields s); reflexivity.
Qed.

Lemma arguments_toLowerCase : forall s,
  arguments (Str.toLowerCase s) = map Str.toLowerCase (arguments s).
Proof.
  intros s. unfold arguments. rewrite fields_toLowerCase.
  induction (fields s) as [|f fs IH]; [reflexivity|].
  cbn [map filter]. rewrite IH. destruct f; reflexivity.
Qed.

(** The first occurrence of a character splits a text in one way only. *)
Lemma split_unique : forall (x : ascii) l1 r1 l2 r2,
  ~ In x l1 -> ~ In x l2 -> l1 ++ x :: r1 = l2 ++ x :: r2 ->
  l1 = l2 /\ r1 = r2.
Proof.
  intros x. induction l1 as [|a l1 IH]; intros r1 l2 r2 H1 H2 E.
  - destruct l2 as [|b l2].
    + injection E as ->. auto.
    + injection E as <- _. exfalso. apply H2. left. reflexivity.
  - destruct l2 as [|b l2].
    + injection E as -> _. exfalso. apply H1. left. reflexivity.
    + injection E as <- E. destruct (IH r1 l2 r2) as [-> ->]; auto.
      * intros H. apply H1. right. exact H.
      * intros H. apply H2. right. exact H.
Qed.

Lemma rgb_arguments_chars : forall x,
  rgb_arguments_shape x -> all argument_char x.
Proof.
  intros x (d1 & s1 & d2 & s2 & d3 & tail & -> & (_ & D1) & (_ & S1)
            & (_ & D2) & (_ & S2) & (_ & D3) & Ht).
  assert (Hd : forall d, all Str.is_digit d -> all argument_char d).
  { intros d. apply all_impl. intros a Ha. unfold argument_char, digit_or_dot.
    rewrite Ha. reflexivity. }
  assert (Hs : forall s, all comma_or_space s -> all argument_char s).
  { intros s. apply all_impl. intros a Ha. unfold argument_char.
    rewrite (comma_or_space_separator a Ha). apply orb_true_r. }
  assert (Hw : forall s, all Str.is_space s -> all argument_char s).
  { intros s. apply all_impl. intros a Ha. unfold argument_char.
    rewrite (space_separator a Ha). apply orb_true_r. }
  unfold all in *. repeat (apply Forall_app; split); auto.
  destruct Ht as [-> | (w1 & c & w2 & al & -> & W1 & C & W2 & _ & AL)];
    [constructor|].
  repeat (apply Forall_app; split); auto.
  - constructor; [|constructor]. unfold argument_char.
    rewrite (comma_or_slash_separator c C). apply orb_true_r.
  - eapply Forall_impl; [|exact AL]. intros a Ha. unfold argument_char.
    rewrite Ha. reflexivity.
Qed.

Lemma argument_char_not_punct : forall a,
  argument_char a = true -> In a ["("; ")"; "-"; "%"]%char -> False.
Proof.
  intros a H Hin.
  destruct Hin as [<-|[<-|[<-|[<-|[]]]]]; vm_compute in H; discriminate H.
Qed.

Lemma all_not_in : forall x w,
  In x ["("; ")"; "-"; "%"]%char -> all argument_char w -> ~ In x w.
Proof.
  intros x w Hx Hw Hin. unfold all in Hw. rewrite Forall_forall in Hw.
  apply (argument_char_not_punct x (Hw x Hin) Hx).
Qed.

(** Where the rgb pattern can match inside a token with one pair of
    parentheses: over the whole argument list. *)
Lemma rgb_match_covers_arguments : forall k0 b pre w post,
  (k0 = $"rgb" \/ k0 = $"rgba") ->
  ~ In "("%char b -> ~ In ")"%char b ->
  k0 ++ $"(" ++ b ++ $")" = pre ++ w ++ post ->
  lang RGB_REGEX w ->
  rgb_arguments_shape b.
Proof.
  intros k0 b pre w post Hk Hb1 Hb2 E Hw.
  apply RGB_REGEX_shape in Hw.
  destruct Hw as (kw & x & Hkw & -> & Hx).
  pose proof (rgb_arguments_chars x Hx) as Hc.
  assert (Hx1 : ~ In "("%char x) by (apply all_not_in; simpl; auto).
  assert (Hx2 : ~ In ")"%char x) by (apply all_not_in; simpl; auto).
  assert (Hk0 : ~ In "("%char k0)
    by (destruct Hk as [-> | ->]; simpl; intuition discriminate).
  assert (exists k1, kw = k1 ++ $"(" /\ ~ In "("%char k1) as (k1 & -> & Hk1).
  { destruct Hkw as [-> | ->]; [exists $"rgb"|exists $"rgba"];
      (split; [reflexivity|simpl; intuition discriminate]). }
  assert (Hcount : forall l,
             ~ In "("%char l -> count_occ ascii_dec l "("%char = 0)
    by (intros l; apply count_occ_not_In).
  assert (Hpre : ~ In "("%char pre).
  { apply (count_occ_not_In ascii_dec).
    apply (f_equal (fun l => count_occ ascii_dec l "("%char)) in E.
    rewrite !count_occ_app in E.
    rewrite (Hcount k0), (Hcount b), (Hcount k1), (Hcount x) in E by assumption.
    cbn in E. lia. }
  assert (E1 : k0 ++ "("%char :: (b ++ $")")
               = (pre ++ k1) ++ "("%char :: (x ++ $")" ++ post)).
  { transitivity (pre ++ ((k1 ++ $"(") ++ x ++ $")") ++ post); [exact E|].
    rewrite <- !app_assoc. reflexivity. }
  apply split_unique in E1; auto.
  - destruct E1 as [_ E2].
    assert (E3 : b ++ ")"%char :: [] = x ++ ")"%char :: post) by exact E2.
    apply split_unique in E3; auto. destruct E3 as [-> _]. exact Hx.
  - intros Hin. apply in_app_or in Hin. tauto.
Qed.

Lemma rgb_token_cleaned : forall kw body,
  (kw = $"rgb(" \/ kw = $"rgba(") ->
  Str.trim (Str.toLowerCase (kw ++ body ++ $")"))
  = kw ++ Str.toLowerCase body ++ $")".
Proof.
  intros kw body Hk. unfold Str.toLowerCase. rewrite !map_app.
  destruct Hk as [-> | ->].
  - change (map Str.lower_char $"rgb(") with $"rgb(".
    change (map Str.lower_char $")") with [")"%char].
    change ($"rgb(" ++ map Str.lower_char body ++ [")"%char])
      with ("r"%char :: ($"gb(" ++ map Str.lower_char body) ++ [")"%char]).
    apply trim_id; reflexivity.
  - change (map Str.lower_char $"rgba(") with $"rgba(".
    change (map Str.lower_char $")") with [")"%char].
    change ($"rgba(" ++ map Str.lower_char body ++ [")"%char])
      with ("r"%char :: ($"gba(" ++ map Str.lower_char body) ++ [")"%char]).
    apply trim_id; reflexivity.
Qed.

Lemma search_RGB_REGEX_shape : forall s m,
  search RGB_REGEX s = Some m ->
  exists pre kw x post,
    (kw = $"rgb(" \/ kw = $"rgba(")
    /\ s = pre ++ (kw ++ x ++ $")") ++ post
    /\ rgb_arguments_shape x.
Proof.
  intros s m H. apply search_sound in H.
  destruct H as (pre & w & post & -> & Hw).
  apply RGB_REGEX_shape in Hw. destruct Hw as (kw & x & Hk & -> & Hx).
  exists pre, kw, x, post. auto.
Qed.

(** C10, as the code has it.  A match of the rgb parser's pattern covers
    [rgb(] or [rgba(], three runs of digits separated by commas or white
    space, optionally a comma or slash and a run of digits and dots, and
    [)] directly after.  Hence a token [rgb(...)] or [rgba(...)] whose
    argument list holds no further parenthesis and contains a minus sign,
    a [%], or a decimal point in one of its first three arguments fails
    the parse, and the callback returns it unchanged for every format and
    syntax style. *)
Theorem rgb_signed_or_fractional_rejected :
  (forall s m,
      search RGB_REGEX s = Some m ->
      exists pre kw x post,
        (kw = $"rgb(" \/ kw = $"rgba(")
        /\ s = pre ++ (kw ++ x ++ $")") ++ post
        /\ rgb_arguments_shape x)
  /\ forall (kw body : Str.t),
    (kw = $"rgb(" \/ kw = $"rgba(") ->
    ~ In "("%char body -> ~ In ")"%char body ->
    (In "-"%char body \/ In "%"%char body
     \/ exists f, In f (firstn 3 (arguments body)) /\ In "."%char f) ->
    let token := kw ++ body ++ $")" in
    rgbStringToRgb (Str.trim (Str.toLowerCase token)) = None
    /\ forall (M : MathLib) (options : ConvertOptions),
         convertToken M options token = token.
Proof.
  split; [exact search_RGB_REGEX_shape|].
  intros kw body Hk Hb1 Hb2 Hbad token. unfold token.
  assert (Hnone :
            rgbStringToRgb (Str.trim (Str.toLowerCase (kw ++ body ++ $")")))
            = None).
  { rewrite rgb_token_cleaned by exact Hk.
    unfold rgbStringToRgb.
    destruct (search RGB_REGEX _) as [m|] eqn:E; [exfalso|reflexivity].
    apply search_sound in E. destruct E as (pre & w & post & E & Hw).
    assert (Hshape : rgb_arguments_shape (Str.toLowerCase body)).
    { destruct Hk as [-> | ->].
      - apply (rgb_match_covers_arguments $"rgb" _ pre w post); auto.
        + rewrite in_toLowerCase; [exact Hb1|simpl; auto].
        + rewrite in_toLowerCase; [exact Hb2|simpl; auto].
      - apply (rgb_match_covers_arguments $"rgba" _ pre w post); auto.
        + rewrite in_toLowerCase; [exact Hb1|simpl; auto].
        + rewrite in_toLowerCase; [exact Hb2|simpl; auto]. }
    pose proof (rgb_arguments_chars _ Hshape) as Hc.
    destruct Hbad as [Hm | [Hp | (f & Hf & Hdot)]].
    - apply (all_not_in "-"%char _ ltac:(simpl; auto) Hc).
      apply in_toLowerCase; [simpl; auto 6|exact Hm].
    - apply (all_not_in "%"%char _ ltac:(simpl; auto 6) Hc).
      apply in_toLowerCase; [simpl; auto 6|exact Hp].
    - destruct (rgb_arguments_first3 _ Hshape)
        as (d1 & d2 & d3 & E3 & D1 & D2 & D3).
      rewrite arguments_toLowerCase, firstn_map in E3.
      assert (Hin : In (Str.toLowerCase f) [d1; d2; d3]).
      { rewrite <- E3. apply in_map. exact Hf. }
      assert (Hdig : all Str.is_digit (Str.toLowerCase f)).
      { destruct Hin as [<-|[<-|[<-|[]]]]; assumption. }
      assert (Hd : In "."%char (Str.toLowerCase f)).
      { apply in_toLowerCase; [simpl; auto 6|exact Hdot]. }
      unfold all in Hdig. rewrite Forall_forall in Hdig.
      specialize (Hdig _ Hd). discriminate Hdig. }
  split; [exact Hnone|].
  intros M options. apply convertToken_parse_failure.
  rewrite rgb_token_cleaned in * by exact Hk.
  unfold parseToken.
  destruct Hk as [-> | ->];
    cbn [Str.startsWith Str.strip_prefix Str.lit String.list_ascii_of_string
         app Ascii.eqb Bool.eqb];
    exact Hnone.
Qed.

Lemma rgb_signed_or_fractional_rejected_witness :
  let kw := $"rgb(" in
  let body := $"300, -20, 128" in
  (kw = $"rgb(" \/ kw = $"rgba(")
  /\ ~ In "("%char body /\ ~ In ")"%char body
  /\ In "-"%char body
  /\ rgbStringToRgb (Str.trim (Str.toLowerCase (kw ++ body ++ $")"))) = None
  /\ forall (M : MathLib) (options : ConvertOptions),
       convertToken M options $"rgb(300, -20, 128)" = $"rgb(300, -20, 128)".
Proof.
  intros kw body.
  assert (Hk : kw = $"rgb(" \/ kw = $"rgba(") by (left; reflexivity).
  assert (H1 : ~ In "("%char body) by (simpl; intuition discriminate).
  assert (H2 : ~ In ")"%char body) by (simpl; intuition discriminate).
  assert (H3 : In "-"%char body) by (simpl; auto 10).
  repeat (split; [assumption|]).
  exact (proj2 rgb_signed_or_fractional_rejected kw body Hk H1 H2
           (or_introl H3)).
Defined.

(** C10 as stated fails for a token with a nested [rgb(]: the token
    [rgb(-5, rgb(1, 2, 3)] is matched by the scanning pattern, its first
    argument is [-5], and the unanchored parser pattern matches the inner
    [rgb(1, 2, 3)], so the token is converted. *)
Lemma nested_rgb_token_converted :
  let token := $"rgb(-5, rgb(1, 2, 3)" in
  let options := {| format := $"rgb"; useCssSyntax := true |} in
  scan COLOR_REGEX token = [Token token]
  /\ nth 0 (arguments $"-5, rgb(1, 2, 3") [] = $"-5"
  /\ rgbStringToRgb (Str.trim (Str.toLowerCase token))
     = Some (RGB.mk (Num.of_Z 1) (Num.of_Z 2) (Num.of_Z 3) None)
  /\ convertToken Math_NaN options token = $"rgb(1, 2, 3)"
  /\ convertCssColors Math_NaN token options <> token.
Proof.
  repeat split; try (vm_compute; reflexivity).
  vm_compute. discriminate.
Qed.

(** ** Hex to rgb and back *)

Lemma rep_greedy_all : forall p (k : cont) w rest c st lo hi,
  all p w -> stops p rest -> lo <= length w ->
  match hi with Some n => length w <= n | None => True end ->
  k rest c = Some st ->
  rep_greedy p lo hi k (w ++ rest) c = Some st.
Proof.
  intros p k. induction w as [|a w IH]; intros rest c st lo hi Hw Hr Hlo Hhi Hk.
  - simpl in Hlo. assert (lo = 0) by lia. subst lo.
    destruct rest as [|b rest]; simpl.
    + destruct hi as [[|n]|]; exact Hk.
    + simpl in Hr. rewrite Hr. destruct hi as [[|n]|]; exact Hk.
  - inversion Hw as [|? ? Ha Hw']; subst.
    assert (Hrec : rep_greedy p (pred lo) (option_map pred hi) k (w ++ rest) c
                   = Some st).
    { apply IH; auto.
      - simpl in Hlo. lia.
      - destruct hi as [n|]; simpl in *; [lia|exact I]. }
    simpl. rewrite Ha, Hrec.
    destruct hi as [[|n]|]; try reflexivity. simpl in Hhi. lia.
Qed.

Lemma run_plus_all : forall p (k : cont) w rest c st,
  w <> [] -> all p w -> stops p rest -> k rest c = Some st ->
  run (Plus p) k (w ++ rest) c = Some st.
Proof.
  intros p k w rest c st Hne Hw Hr Hk. unfold Plus. cbn [run].
  apply rep_greedy_all; auto. destruct w; [contradiction|simpl; lia].
Qed.

Lemma run_group_plus_all : forall i p (k : cont) w rest c st,
  w <> [] -> all p w -> stops p rest -> k rest ((i, w) :: c) = Some st ->
  run (Grp i (Plus p)) k (w ++ rest) c = Some st.
Proof.
  intros i p k w rest c st Hne Hw Hr Hk. cbn [run].
  apply (run_plus_all p _ w rest c st Hne Hw Hr).
  rewrite firstn_app_exact. exact Hk.
Qed.

Lemma run_lit_here : forall l (k : cont) s c,
  run (Lit l) k (l ++ s) c = k s c.
Proof. intros. cbn [run]. rewrite strip_prefix_here. reflexivity. Qed.

Lemma run_seq : forall r1 r2 (k : cont) s c,
  run (r1 -:- r2) k s c = run r1 (run r2 k) s c.
Proof. reflexivity. Qed.

Lemma run_opt_none : forall r (k : cont) s c,
  run r k s c = None -> run (Opt r) k s c = k s c.
Proof. intros r k s c H. cbn [run]. rewrite H. reflexivity. Qed.

Lemma run_alt_none : forall r1 r2 (k : cont) s c,
  run r1 k s c = None -> run (Alt r1 r2) k s c = run r2 k s c.
Proof. intros r1 r2 k s c H. cbn [run]. rewrite H. reflexivity. Qed.

Lemma run_alt_some : forall r1 r2 (k : cont) s c st,
  run r1 k s c = Some st -> run (Alt r1 r2) k s c = Some st.
Proof. intros r1 r2 k s c st H. cbn [run]. rewrite H. reflexivity. Qed.

Lemma run_group : forall i r (k : cont) s c,
  run (Grp i r) k s c
  = run r (fun s' c' => k s' ((i, firstn (length s - length s') s) :: c')) s c.
Proof. reflexivity. Qed.

Lemma stops_after_digits : forall p w s,
  w <> [] -> all Str.is_digit w ->
  (forall a, Str.is_digit a = true -> p a = false) ->
  stops p (w ++ s).
Proof.
  intros p [|a w] s Hne Hw Hp; [contradiction|].
  inversion Hw; subst. simpl. auto.
Qed.

Lemma digit_not_comma_or_space : forall a,
  Str.is_digit a = true -> comma_or_space a = false.
Proof. intros a. ascii_cases a; vm_compute; congruence. Qed.

Lemma digit_not_rparen : forall a,
  Str.is_digit a = true -> not_rparen a = true.
Proof. intros a. ascii_cases a; vm_compute; congruence. Qed.

(** The rgb parser on [rgb(r, g, b)] with three runs of digits. *)
Lemma RGB_REGEX_plain : forall r g b,
  r <> [] -> g <> [] -> b <> [] ->
  all Str.is_digit r -> all Str.is_digit g -> all Str.is_digit b ->
  search RGB_REGEX ($"rgb(" ++ r ++ $", " ++ g ++ $", " ++ b ++ $")")
  = Some [(3, b); (2, g); (1, r)].
Proof.
  intros r g b Nr Ng Nb Dr Dg Db.
  assert (Hm : match_at RGB_REGEX
                 ($"rgb(" ++ r ++ $", " ++ g ++ $", " ++ b ++ $")")
               = Some ([], [(3, b); (2, g); (1, r)])).
  { unfold match_at, RGB_REGEX.
    change ($"rgb(" ++ r ++ $", " ++ g ++ $", " ++ b ++ $")")
      with ($"rgb" ++ $"(" ++ r ++ $", " ++ g ++ $", " ++ b ++ $")").
    rewrite run_seq, run_lit_here.
    rewrite run_seq, run_opt_none by reflexivity.
    rewrite run_seq, run_lit_here.
    rewrite run_seq. apply run_group_plus_all; auto; try reflexivity.
    rewrite run_seq.
    apply (run_plus_all _ _ $", "); [discriminate|repeat constructor| |].
    { apply stops_after_digits; auto using digit_not_comma_or_space. }
    rewrite run_seq. apply run_group_plus_all; auto; try reflexivity.
    rewrite run_seq.
    apply (run_plus_all _ _ $", "); [discriminate|repeat constructor| |].
    { apply stops_after_digits; auto using digit_not_comma_or_space. }
    rewrite run_seq. apply run_group_plus_all; auto; try reflexivity. }
  cbn [Str.lit String.list_ascii_of_string app] in *.
  cbn [search]. rewrite Hm. reflexivity.
Qed.

Lemma pieces_skip_all : forall r s,
  match_at r [] = None -> pieces r (length s) s = [].
Proof.
  intros r s He. induction s as [|b s IH].
  - cbn [pieces length]. rewrite He. reflexivity.
  - cbn [pieces length]. exact IH.
Qed.

Lemma scan_single : forall r s c,
  s <> [] -> match_at r s = Some ([], c) -> match_at r [] = None ->
  scan r s = [Token s].
Proof.
  intros r [|a s] c Hne Hm He; [contradiction|].
  unfold scan. cbn [pieces]. rewrite Hm.
  unfold matched.
  replace (length (a :: s) - length (@nil ascii)) with (S (length s))
    by (cbn [length]; lia).
  rewrite pieces_skip_all by exact He.
  change (S (length s)) with (length (a :: s)). rewrite firstn_all.
  reflexivity.
Qed.

Lemma scan_rgb_plain : forall r g b,
  all Str.is_digit r -> all Str.is_digit g -> all Str.is_digit b ->
  let s := $"rgb(" ++ r ++ $", " ++ g ++ $", " ++ b ++ $")" in
  scan COLOR_REGEX s = [Token s].
Proof.
  intros r g b Dr Dg Db s.
  assert (Hbody : all not_rparen (r ++ $", " ++ g ++ $", " ++ b)).
  { assert (Hd : forall w, all Str.is_digit w -> all not_rparen w)
      by (intros w; apply all_impl, digit_not_rparen).
    unfold all in *. repeat (apply Forall_app; split); auto; repeat constructor. }
  assert (Hm : exists c, match_at COLOR_REGEX s = Some ([], c)).
  { unfold match_at, COLOR_REGEX, s.
    rewrite run_alt_none by reflexivity.
    eexists. apply run_alt_some.
    rewrite run_group.
    change ($"rgb(" ++ r ++ $", " ++ g ++ $", " ++ b ++ $")")
      with ($"rgb" ++ $"(" ++ r ++ $", " ++ g ++ $", " ++ b ++ $")").
    rewrite run_seq, run_lit_here.
    rewrite run_seq, run_group, run_opt_none by reflexivity.
    rewrite run_seq, run_lit_here.
    rewrite run_seq.
    replace (r ++ $", " ++ g ++ $", " ++ b ++ $")")
      with ((r ++ $", " ++ g ++ $", " ++ b) ++ $")")
      by (rewrite <- !app_assoc; reflexivity).
    apply run_plus_all; auto.
    - destruct r; discriminate.
    - reflexivity.
    - reflexivity. }
  destruct Hm as [c Hm].
  apply (scan_single _ _ c); [discriminate|exact Hm|reflexivity].
Qed.


Lemma hex_digit_listed : forall a,
  Str.is_hex_digit a = true -> In a hex_digits.
Proof.
  intros a. ascii_cases a; vm_compute; intros H; try discriminate H; tauto.
Qed.

Lemma hex_digit_lower_not_space : forall a,
  Str.is_hex_digit a = true -> Str.is_space (Str.lower_char a) = false.
Proof. intros a. ascii_cases a; vm_compute; congruence. Qed.

Lemma channels_round_trip_all :
  forallb (fun c1 => forallb (channel_round_trips c1) hex_digits) hex_digits
  = true.
Proof. vm_compute. reflexivity. Qed.

Lemma channel_round_trip : forall c1 c2,
  Str.is_hex_digit c1 = true -> Str.is_hex_digit c2 = true ->
  channel_text c1 c2 <> []
  /\ all Str.is_digit (channel_text c1 c2)
  /\ toHex (clamp_channel (Num.parseInt (channel_text c1 c2) 10))
     = [Str.lower_char c1; Str.lower_char c2].
Proof.
  intros c1 c2 H1 H2.
  pose proof channels_round_trip_all as H.
  rewrite forallb_forall in H. specialize (H c1 (hex_digit_listed c1 H1)).
  rewrite forallb_forall in H. specialize (H c2 (hex_digit_listed c2 H2)).
  unfold channel_round_trips in H.
  apply andb_true_iff in H. destruct H as [H Heq].
  apply andb_true_iff in H. destruct H as [Hne Hdig].
  repeat split.
  - intros E. rewrite E in Hne. discriminate Hne.
  - unfold all. apply Forall_forall. rewrite forallb_forall in Hdig. exact Hdig.
  - apply Str_eqb_eq. exact Heq.
Qed.

Lemma scan_hex6 : forall h,
  length h = 6 -> all Str.is_hex_digit h ->
  scan COLOR_REGEX ("#"%char :: h) = [Token ("#"%char :: h)].
Proof.
  intros h Hlen Hh.
  assert (Hm : exists c, match_at COLOR_REGEX ("#"%char :: h) = Some ([], c)).
  { unfold match_at, COLOR_REGEX.
    rewrite run_alt_none by reflexivity.
    rewrite run_alt_none by reflexivity.
    eexists. apply run_alt_some.
    rewrite run_group.
    change ("#"%char :: h) with ($"#" ++ h).
    rewrite run_seq, run_lit_here. cbn [run].
    rewrite <- (app_nil_r h) at 1.
    apply rep_greedy_all; auto.
    - exact I.
    - lia.
    - lia.
    - unfold accept. reflexivity. }
  destruct Hm as [c Hm].
  apply (scan_single _ _ c); [discriminate|exact Hm|reflexivity].
Qed.

Section RoundTrip.
Variable M : MathLib.

Lemma convert_hex6_to_rgb : forall c1 c2 c3 c4 c5 c6,
  all Str.is_hex_digit [c1; c2; c3; c4; c5; c6] ->
  convertToken M {| format := $"rgb"; useCssSyntax := true |}
    ("#"%char :: [c1; c2; c3; c4; c5; c6])
  = $"rgb(" ++ channel_text c1 c2 ++ $", " ++ channel_text c3 c4 ++ $", "
    ++ channel_text c5 c6 ++ $")".
Proof.
  intros c1 c2 c3 c4 c5 c6 H.
  assert (H6 : Str.is_hex_digit c6 = true).
  { unfold all in H. rewrite Forall_forall in H. apply H. simpl. auto 10. }
  unfold convertToken, convertBody, sampleForFormatter.
  cbn [Str.toLowerCase map].
  change (Str.lower_char "#") with "#"%char.
  change ("#"%char :: [Str.lower_char c1; Str.lower_char c2; Str.lower_char c3;
                       Str.lower_char c4; Str.lower_char c5; Str.lower_char c6])
    with ("#"%char :: [Str.lower_char c1; Str.lower_char c2; Str.lower_char c3;
                       Str.lower_char c4; Str.lower_char c5]
                   ++ [Str.lower_char c6]).
  rewrite trim_id by (auto using hex_digit_lower_not_space).
  reflexivity.
Qed.

Lemma digits_lower : forall w,
  all Str.is_digit w -> Str.toLowerCase w = w.
Proof.
  intros w H. unfold Str.toLowerCase. induction H as [|a w Ha Hw IH];
    [reflexivity|].
  cbn [map]. rewrite IH. f_equal.
  revert Ha. ascii_cases a; vm_compute; congruence.
Qed.

Lemma rgb_plain_cleaned : forall r g b,
  all Str.is_digit r -> all Str.is_digit g -> all Str.is_digit b ->
  let s := $"rgb(" ++ r ++ $", " ++ g ++ $", " ++ b ++ $")" in
  Str.trim (Str.toLowerCase s) = s.
Proof.
  intros r g b Dr Dg Db s. unfold s.
  assert (E : Str.toLowerCase ($"rgb(" ++ r ++ $", " ++ g ++ $", " ++ b ++ $")")
              = $"rgb(" ++ r ++ $", " ++ g ++ $", " ++ b ++ $")").
  { unfold Str.toLowerCase. rewrite !map_app.
    fold (Str.toLowerCase r). fold (Str.toLowerCase g).
    fold (Str.toLowerCase b).
    rewrite (digits_lower r Dr), (digits_lower g Dg), (digits_lower b Db).
    reflexivity. }
  rewrite E.
  replace ($"rgb(" ++ r ++ $", " ++ g ++ $", " ++ b ++ $")")
    with ("r"%char :: ($"gb(" ++ r ++ $", " ++ g ++ $", " ++ b) ++ [")"%char]).
  - apply trim_id; reflexivity.
  - rewrite <- !app_assoc. reflexivity.
Qed.

Lemma convert_rgb_plain_to_hex : forall (css : bool) r g b,
  r <> [] -> g <> [] -> b <> [] ->
  all Str.is_digit r -> all Str.is_digit g -> all Str.is_digit b ->
  convertToken M {| format := $"hex"; useCssSyntax := css |}
    ($"rgb(" ++ r ++ $", " ++ g ++ $", " ++ b ++ $")")
  = (if css then $"#" else [])
    ++ toHex (clamp_channel (Num.parseInt r 10))
    ++ toHex (clamp_channel (Num.parseInt g 10))
    ++ toHex (clamp_channel (Num.parseInt b 10)).
Proof.
  intros css r g b Nr Ng Nb Dr Dg Db.
  unfold convertToken, convertBody, sampleForFormatter.
  rewrite rgb_plain_cleaned by assumption.
  change (parseToken M ($"rgb(" ++ r ++ $", " ++ g ++ $", " ++ b ++ $")"))
    with (rgbStringToRgb ($"rgb(" ++ r ++ $", " ++ g ++ $", " ++ b ++ $")")).
  unfold rgbStringToRgb. rewrite RGB_REGEX_plain by assumption.
  reflexivity.
Qed.

(** C3. For every 6-digit hex token, converting it with format rgb and
    CSS syntax gives [rgb(r, g, b)] with the three channel values in
    decimal, and converting that text with format hex gives the same six
    hex digits in lower case (behind [#] with CSS syntax, bare without). *)
Theorem hex_rgb_hex_round_trip :
  forall (h : Str.t) (css : bool),
    length h = 6 -> all Str.is_hex_digit h ->
    let rgbText :=
      convertCssColors M ("#"%char :: h)
        {| format := $"rgb"; useCssSyntax := true |} in
    (exists r g b,
        rgbText = $"rgb(" ++ r ++ $", " ++ g ++ $", " ++ b ++ $")"
        /\ all Str.is_digit r /\ all Str.is_digit g /\ all Str.is_digit b)
    /\ convertCssColors M rgbText {| format := $"hex"; useCssSyntax := css |}
       = (if css then $"#" else []) ++ Str.toLowerCase h.
Proof.
  intros h css Hlen Hh rgbText.
  destruct h as [|c1 [|c2 [|c3 [|c4 [|c5 [|c6 [|c7 h]]]]]]];
    try discriminate Hlen.
  assert (Hc : forall c,
             In c [c1; c2; c3; c4; c5; c6] -> Str.is_hex_digit c = true).
  { unfold all in Hh. rewrite Forall_forall in Hh. exact Hh. }
  destruct (channel_round_trip c1 c2) as (N1 & D1 & T1);
    [apply Hc; simpl; auto 10..|].
  destruct (channel_round_trip c3 c4) as (N2 & D2 & T2);
    [apply Hc; simpl; auto 10..|].
  destruct (channel_round_trip c5 c6) as (N3 & D3 & T3);
    [apply Hc; simpl; auto 10..|].
  assert (E : rgbText
              = $"rgb(" ++ channel_text c1 c2 ++ $", " ++ channel_text c3 c4
                ++ $", " ++ channel_text c5 c6 ++ $")").
  { unfold rgbText.
    rewrite convertCssColors_pieces, scan_hex6 by assumption.
    cbn [map concat piece_out]. rewrite app_nil_r.
    apply convert_hex6_to_rgb. exact Hh. }
  split.
  - exists (channel_text c1 c2), (channel_text c3 c4), (channel_text c5 c6).
    auto.
  - rewrite E, convertCssColors_pieces.
    rewrite (scan_rgb_plain _ _ _ D1 D2 D3).
    cbn [map concat piece_out]. rewrite app_nil_r.
    rewrite convert_rgb_plain_to_hex by assumption.
    rewrite T1, T2, T3. reflexivity.
Qed.

End RoundTrip.

Lemma hex_rgb_hex_round_trip_witness :
  length $"6750A4" = 6
  /\ all Str.is_hex_digit $"6750A4"
  /\ convertCssColors Math_NaN
       (convertCssColors Math_NaN $"#6750A4"
          {| format := $"rgb"; useCssSyntax := true |})
       {| format := $"hex"; useCssSyntax := false |}
     = $"6750a4".
Proof.
  assert (H1 : length $"6750A4" = 6) by reflexivity.
  assert (H2 : all Str.is_hex_digit $"6750A4") by (repeat constructor).
  split; [exact H1|]. split; [exact H2|].
  exact (proj2 (hex_rgb_hex_round_trip Math_NaN $"6750A4" false H1 H2)).
Defined.

(** * Further properties of the code *)

Lemma token_has_marker : forall m,
  token_shape m -> In "#"%char m \/ In "("%char m.
Proof.
  intros m [(kw & body & Hkw & -> & _)|(ds & -> & _)].
  - right. apply in_or_app. left.
    simpl in Hkw.
    destruct Hkw as [<-|[<-|[<-|[<-|[<-|[]]]]]]; simpl; auto 10.
  - left. simpl. auto.
Qed.

Lemma scan_token_in_text : forall r s m a,
  In (Token m) (scan r s) -> In a m -> In a s.
Proof.
  intros r s m a H Ha. apply pieces_tokens in H.
  destruct H as (pre & s' & rest & c & -> & Hm & ->).
  apply match_at_sound in Hm. destruct Hm as (w & -> & _ & E).
  rewrite E in Ha. apply in_or_app. right. apply in_or_app. left. exact Ha.
Qed.

(** X1. A text that holds neither [#] nor [(] has no colour token: its
    scan is the text itself, character by character, and
    [convertCssColors] returns it as it is, for every format and syntax
    style. *)
Theorem text_without_markers_unchanged :
  forall (M : MathLib) (cssString : Str.t) (options : ConvertOptions),
    ~ In "#"%char cssString -> ~ In "("%char cssString ->
    scan COLOR_REGEX cssString = map Text cssString
    /\ convertCssColors M cssString options = cssString.
Proof.
  intros M s options Hh Hp.
  assert (Hno : forall m, ~ In (Token m) (scan COLOR_REGEX s)).
  { intros m Hm.
    destruct (token_has_marker m (COLOR_REGEX_shape m (scan_tokens_lang _ _ _ Hm)))
      as [H|H].
    - apply Hh. exact (scan_token_in_text _ _ _ _ Hm H).
    - apply Hp. exact (scan_token_in_text _ _ _ _ Hm H). }
  split.
  - pose proof (scan_src COLOR_REGEX s) as Hsrc.
    revert Hno Hsrc. generalize (scan COLOR_REGEX s) as ps.
    intros ps Hno. revert s Hh Hp.
    induction ps as [|p ps IH]; intros s Hh Hp Hsrc.
    + simpl in Hsrc. subst s. reflexivity.
    + destruct p as [a|m]; [|exfalso; apply (Hno m); left; reflexivity].
      simpl in Hsrc. subst s. simpl. f_equal.
      apply IH.
      * intros m Hm. apply (Hno m). right. exact Hm.
      * intros H. apply Hh. right. exact H.
      * intros H. apply Hp. right. exact H.
      * reflexivity.
  - rewrite convertCssColors_pieces.
    change (replace_all COLOR_REGEX (convertToken M options) s = s).
    apply replace_all_id. intros m Hm. destruct (Hno m Hm).
Qed.

Lemma text_without_markers_unchanged_witness :
  convertCssColors Math_NaN $".card { color: red; }"
    {| format := $"hex"; useCssSyntax := true |}
  = $".card { color: red; }".
Proof.
  apply (text_without_markers_unchanged Math_NaN $".card { color: red; }").
  - vm_compute. intuition discriminate.
  - vm_compute. intuition discriminate.
Defined.

(** ** Hex tokens *)

Lemma scan_hex : forall h,
  3 <= length h <= 8 -> all Str.is_hex_digit h ->
  scan COLOR_REGEX ("#"%char :: h) = [Token ("#"%char :: h)].
Proof.
  intros h Hlen Hh.
  assert (Hm : exists c, match_at COLOR_REGEX ("#"%char :: h) = Some ([], c)).
  { unfold match_at, COLOR_REGEX.
    rewrite run_alt_none by reflexivity.
    rewrite run_alt_none by reflexivity.
    eexists. apply run_alt_some.
    rewrite run_group.
    change ("#"%char :: h) with ($"#" ++ h).
    rewrite run_seq, run_lit_here. cbn [run].
    rewrite <- (app_nil_r h) at 1.
    apply rep_greedy_all; auto.
    - exact I.
    - lia.
    - lia.
    - unfold accept. reflexivity. }
  destruct Hm as [c Hm].
  apply (scan_single _ _ c); [discriminate|exact Hm|reflexivity].
Qed.

Lemma all_hex_lower_not_space : forall h,
  all Str.is_hex_digit h ->
  Forall (fun a => Str.is_space a = false) (Str.toLowerCase h).
Proof.
  intros h H. unfold Str.toLowerCase. induction H as [|a h Ha Hh IH].
  - constructor.
  - cbn [map]. constructor; [apply hex_digit_lower_not_space, Ha|exact IH].
Qed.

Lemma trim_no_space_ends : forall a s,
  Str.is_space a = false ->
  Forall (fun c => Str.is_space c = false) s ->
  Str.trim (a :: s) = a :: s.
Proof.
  intros a s Ha Hs.
  destruct (rev s) as [|z m] eqn:E.
  - apply (f_equal (@rev ascii)) in E. rewrite rev_involutive in E. subst s.
    unfold Str.trim. cbn. rewrite Ha. cbn. rewrite Ha. reflexivity.
  - apply (f_equal (@rev ascii)) in E. rewrite rev_involutive in E.
    cbn [rev] in E. subst s. apply trim_id; [exact Ha|].
    rewrite Forall_forall in Hs. apply Hs. apply in_or_app. right. left.
    reflexivity.
Qed.

(** The cleaned match of a hex token: the token in lower case. *)
Lemma hex_token_cleaned : forall h,
  all Str.is_hex_digit h ->
  Str.trim (Str.toLowerCase ("#"%char :: h)) = "#"%char :: Str.toLowerCase h.
Proof.
  intros h H. change (Str.toLowerCase ("#"%char :: h))
    with ("#"%char :: Str.toLowerCase h).
  apply trim_no_space_ends; [reflexivity|].
  apply all_hex_lower_not_space, H.
Qed.

Lemma hexToRgb_length : forall ds,
  hexToRgb ("#"%char :: ds) = None <-> ~ In (length ds) [3; 4; 6; 8].
Proof.
  intros ds.
  destruct ds as [|c1 [|c2 [|c3 [|c4 [|c5 [|c6 [|c7 [|c8 [|c9 ds]]]]]]]]];
    cbn; split; intros H; try reflexivity; try discriminate H;
    try (intros [E|[E|[E|[E|[]]]]]; discriminate E);
    try (exfalso; apply H; auto 10).
Qed.

(** X2. [hexToRgb] returns nothing exactly when the digits after [#] are
    not 3, 4, 6 or 8 in number.  A token of [#] and five or seven hex
    digits is matched by the scanning pattern, and [convertCssColors]
    leaves it as it is, for every format and syntax style. *)
Theorem hex_token_length_law :
  (forall ds, hexToRgb ("#"%char :: ds) = None
              <-> ~ In (length ds) [3; 4; 6; 8])
  /\ forall (M : MathLib) (options : ConvertOptions) (h : Str.t),
      all Str.is_hex_digit h -> length h = 5 \/ length h = 7 ->
      scan COLOR_REGEX ("#"%char :: h) = [Token ("#"%char :: h)]
      /\ convertCssColors M ("#"%char :: h) options = "#"%char :: h.
Proof.
  split; [exact hexToRgb_length|].
  intros M options h Hh Hlen.
  assert (Hs : scan COLOR_REGEX ("#"%char :: h) = [Token ("#"%char :: h)])
    by (apply scan_hex; [lia|exact Hh]).
  split; [exact Hs|].
  rewrite convertCssColors_pieces, Hs. cbn [map concat piece_out].
  rewrite app_nil_r. apply convertToken_parse_failure.
  rewrite hex_token_cleaned by exact Hh.
  change (hexToRgb ("#"%char :: Str.toLowerCase h) = None).
  apply hexToRgb_length. unfold Str.toLowerCase. rewrite length_map.
  intros [E|[E|[E|[E|[]]]]]; lia.
Qed.

Lemma hex_token_length_law_witness :
  convertCssColors Math_NaN $"#12345"
    {| format := $"rgb"; useCssSyntax := true |} = $"#12345".
Proof.
  apply (proj2 hex_token_length_law Math_NaN
           {| format := $"rgb"; useCssSyntax := true |} $"12345").
  - repeat constructor.
  - left. reflexivity.
Defined.

Lemma formatColor_known_match : forall M options rgb m1 m2,
  known_format (format options) ->
  formatColor M options rgb m1 = formatColor M options rgb m2.
Proof.
  intros M [f css] rgb m1 m2 H. unfold known_format in H. cbn [format] in H.
  unfold formatColor. cbn [format useCssSyntax].
  destruct H as [-> | [-> | [-> | ->]]]; vm_tests; reflexivity.
Qed.

(** The [switch] never throws: the digit counts passed to [toFixed] are
    within its range. *)
Lemma formatColor_total : forall M options rgb m,
  exists t, formatColor M options rgb m = Ok t.
Proof.
  intros M options rgb m.
  assert (D : known_format (format options) \/ ~ known_format (format options)).
  { unfold known_format.
    destruct (Str.eqb (format options) $"oklch") eqn:E1;
      [apply Str_eqb_eq in E1; auto|].
    destruct (Str.eqb (format options) $"hex") eqn:E2;
      [apply Str_eqb_eq in E2; auto|].
    destruct (Str.eqb (format options) $"rgb") eqn:E3;
      [apply Str_eqb_eq in E3; auto|].
    destruct (Str.eqb (format options) $"hsl") eqn:E4;
      [apply Str_eqb_eq in E4; auto 6|].
    right. intros [H|[H|[H|H]]]; apply Str_eqb_eq in H; congruence. }
  destruct D as [Hk|Hu].
  - destruct (formatColor_forms M options rgb m Hk) as (c & H0 & H1 & H2).
    destruct (alpha_below_1 (RGB.a rgb)) as [a|] eqn:Ea.
    + destruct (H2 a eq_refl) as (alpha & H & _). eauto.
    + rewrite (H1 eq_refl). eauto.
  - rewrite (formatColor_unknown M options rgb m Hu). eauto.
Qed.

(** X5. The [try] block of the callback never throws: every [toFixed] is
    called with a digit count in its range, so for every token, format and
    syntax style the block returns a text, and this text is what the
    callback returns.  The [catch] clause is never taken. *)
Theorem conversion_never_throws :
  forall (M : MathLib) (options : ConvertOptions) (match_ : Str.t),
    exists t, convertBody M options match_ = Ok t
              /\ convertToken M options match_ = t.
Proof.
  intros M options m. unfold convertToken, convertBody.
  destruct (sampleForFormatter M m) as [rgb|].
  - destruct (formatColor_total M options rgb m) as [t H].
    exists t. rewrite H. auto.
  - exists m. auto.
Qed.

(** X3. With one of the four formats, the short hex token [#rgb] is
    converted to the same text as [#rrggbb], and [#rgba] to the same text
    as [#rrggbbaa]. *)
Theorem hex_shorthand_expands :
  forall (M : MathLib) (options : ConvertOptions) (c1 c2 c3 c4 : ascii),
    known_format (format options) ->
    all Str.is_hex_digit [c1; c2; c3; c4] ->
    convertCssColors M ("#"%char :: [c1; c2; c3]) options
    = convertCssColors M ("#"%char :: [c1; c1; c2; c2; c3; c3]) options
    /\ convertCssColors M ("#"%char :: [c1; c2; c3; c4]) options
       = convertCssColors M ("#"%char :: [c1; c1; c2; c2; c3; c3; c4; c4])
           options.
Proof.
  intros M options c1 c2 c3 c4 Hk Hh.
  assert (H1 : Str.is_hex_digit c1 = true) by (inversion Hh; assumption).
  assert (H2 : Str.is_hex_digit c2 = true)
    by (inversion Hh as [|? ? ? Hh2]; inversion Hh2; assumption).
  assert (H3 : Str.is_hex_digit c3 = true)
    by (inversion Hh as [|? ? ? Hh2]; inversion Hh2 as [|? ? ? Hh3];
        inversion Hh3; assumption).
  assert (H4 : Str.is_hex_digit c4 = true)
    by (inversion Hh as [|? ? ? Hh2]; inversion Hh2 as [|? ? ? Hh3];
        inversion Hh3 as [|? ? ? Hh4]; inversion Hh4; assumption).
  assert (Htok : forall h h' rgb,
    all Str.is_hex_digit h -> all Str.is_hex_digit h' ->
    3 <= length h <= 8 -> 3 <= length h' <= 8 ->
    hexToRgb ("#"%char :: Str.toLowerCase h) = Some rgb ->
    hexToRgb ("#"%char :: Str.toLowerCase h') = Some rgb ->
    convertCssColors M ("#"%char :: h) options
    = convertCssColors M ("#"%char :: h') options).
  { intros h h' rgb Hh1 Hh2 L1 L2 E1 E2.
    rewrite !convertCssColors_pieces, !scan_hex by assumption.
    cbn [map concat piece_out]. rewrite !app_nil_r.
    unfold convertToken, convertBody, sampleForFormatter.
    rewrite !hex_token_cleaned by assumption.
    change (parseToken M ("#"%char :: Str.toLowerCase h))
      with (hexToRgb ("#"%char :: Str.toLowerCase h)).
    change (parseToken M ("#"%char :: Str.toLowerCase h'))
      with (hexToRgb ("#"%char :: Str.toLowerCase h')).
    rewrite E1, E2. cbn [option_map].
    rewrite (formatColor_known_match M options _ ("#"%char :: h)
               ("#"%char :: h') Hk).
    destruct (formatColor_total M options (clampRgb rgb) ("#"%char :: h'))
      as [t Ht].
    rewrite Ht. reflexivity. }
  split.
  - eapply Htok; try reflexivity; try (cbn [length]; lia);
      unfold all; auto 10.
  - eapply Htok; try reflexivity; try (cbn [length]; lia);
      unfold all; auto 10.
Qed.

Lemma hex_shorthand_expands_witness :
  convertCssColors Math_NaN $"#fa0"
    {| format := $"rgb"; useCssSyntax := true |}
  = convertCssColors Math_NaN $"#ffaa00"
      {| format := $"rgb"; useCssSyntax := true |}.
Proof.
  apply (hex_shorthand_expands Math_NaN
           {| format := $"rgb"; useCssSyntax := true |}
           "f"%char "a"%char "0"%char "8"%char).
  - right. right. left. reflexivity.
  - repeat constructor.
Defined.

Lemma hex_pairs_kept_all :
  forallb (fun c1 =>
    forallb (fun c2 => hex_channel_kept c1 c2 && hex_alpha_kept c1 c2)%bool
            hex_digits) hex_digits
  = true.
Proof. vm_compute. reflexivity. Qed.

Lemma hex_pair_kept : forall c1 c2,
  Str.is_hex_digit c1 = true -> Str.is_hex_digit c2 = true ->
  hex_channel_kept c1 c2 = true /\ hex_alpha_kept c1 c2 = true.
Proof.
  intros c1 c2 H1 H2.
  pose proof hex_pairs_kept_all as H.
  rewrite forallb_forall in H. specialize (H c1 (hex_digit_listed c1 H1)).
  rewrite forallb_forall in H. specialize (H c2 (hex_digit_listed c2 H2)).
  apply andb_true_iff in H. exact H.
Qed.

Lemma hex_token_sample : forall M h,
  all Str.is_hex_digit h ->
  sampleForFormatter M ("#"%char :: h)
  = option_map clampRgb (hexToRgb ("#"%char :: Str.toLowerCase h)).
Proof.
  intros M h H. unfold sampleForFormatter.
  rewrite hex_token_cleaned by exact H. reflexivity.
Qed.

(** X4. Converting a hex token to format hex.  Six digits come back in
    lower case (behind [#] with CSS syntax, bare without).  Eight digits
    come back in lower case too, alpha pair included, unless the alpha pair
    is [ff]: then the alpha is 1 and only the six colour digits are
    written. *)
Theorem hex_to_hex_normalises :
  forall (M : MathLib) (css : bool) (h : Str.t),
    all Str.is_hex_digit h ->
    let options := {| format := $"hex"; useCssSyntax := css |} in
    let sharp := if css then $"#" else [] in
    (length h = 6 ->
     convertCssColors M ("#"%char :: h) options = sharp ++ Str.toLowerCase h)
    /\ (length h = 8 ->
        convertCssColors M ("#"%char :: h) options
        = sharp ++ Str.toLowerCase (firstn 6 h)
          ++ (if Str.eqb (Str.toLowerCase (skipn 6 h)) $"ff" then []
              else Str.toLowerCase (skipn 6 h))).
Proof.
  intros M css h Hh options sharp.
  assert (Hc : forall c, In c h -> Str.is_hex_digit c = true).
  { unfold all in Hh. rewrite Forall_forall in Hh. exact Hh. }
  assert (Hconv : 3 <= length h <= 8 ->
    convertCssColors M ("#"%char :: h) options
    = convertToken M options ("#"%char :: h)).
  { intros L. rewrite convertCssColors_pieces, scan_hex by assumption.
    cbn [map concat piece_out]. apply app_nil_r. }
  split; intros Hlen; rewrite Hconv by lia;
    unfold convertToken, convertBody; rewrite hex_token_sample by exact Hh.
  - destruct h as [|c1 [|c2 [|c3 [|c4 [|c5 [|c6 [|c7 h]]]]]]];
      try discriminate Hlen.
    destruct (hex_pair_kept c1 c2) as [K1 _]; [apply Hc; simpl; auto 10..|].
    destruct (hex_pair_kept c3 c4) as [K2 _]; [apply Hc; simpl; auto 10..|].
    destruct (hex_pair_kept c5 c6) as [K3 _]; [apply Hc; simpl; auto 10..|].
    apply Str_eqb_eq in K1, K2, K3.
    change (sharp
            ++ toHex (clamp_channel
                 (Num.parseInt [Str.lower_char c1; Str.lower_char c2] 16))
            ++ toHex (clamp_channel
                 (Num.parseInt [Str.lower_char c3; Str.lower_char c4] 16))
            ++ toHex (clamp_channel
                 (Num.parseInt [Str.lower_char c5; Str.lower_char c6] 16))
            = sharp ++ Str.toLowerCase [c1; c2; c3; c4; c5; c6]).
    rewrite K1, K2, K3. reflexivity.
  - destruct h as [|c1 [|c2 [|c3 [|c4 [|c5 [|c6 [|c7 [|c8 [|c9 h]]]]]]]]];
      try discriminate Hlen.
    destruct (hex_pair_kept c1 c2) as [K1 _]; [apply Hc; simpl; auto 10..|].
    destruct (hex_pair_kept c3 c4) as [K2 _]; [apply Hc; simpl; auto 10..|].
    destruct (hex_pair_kept c5 c6) as [K3 _]; [apply Hc; simpl; auto 10..|].
    destruct (hex_pair_kept c7 c8) as [_ K4]; [apply Hc; simpl; auto 10..|].
    apply Str_eqb_eq in K1, K2, K3.
    change (sharp
            ++ (let hex :=
                  toHex (clamp_channel
                    (Num.parseInt [Str.lower_char c1; Str.lower_char c2] 16))
                  ++ toHex (clamp_channel
                    (Num.parseInt [Str.lower_char c3; Str.lower_char c4] 16))
                  ++ toHex (clamp_channel
                    (Num.parseInt [Str.lower_char c5; Str.lower_char c6] 16))
                in
                match alpha_below_1 (Some (hex_alpha c7 c8)) with
                | Some a => hex ++ toHex (Num.mul a (Num.lit "255"))
                | None => hex
                end)
            = sharp ++ Str.toLowerCase [c1; c2; c3; c4; c5; c6]
              ++ (if Str.eqb [Str.lower_char c7; Str.lower_char c8] $"ff"
                  then [] else [Str.lower_char c7; Str.lower_char c8])).
    cbv zeta. rewrite K1, K2, K3. unfold hex_alpha_kept in K4.
    unfold alpha_below_1.
    destruct (Str.eqb [Str.lower_char c7; Str.lower_char c8] $"ff").
    + apply negb_true_iff in K4. rewrite K4. reflexivity.
    + apply andb_true_iff in K4. destruct K4 as [K4 K5].
      apply Str_eqb_eq in K5. rewrite K4, K5. reflexivity.
Qed.

Lemma hex_to_hex_normalises_witness :
  convertCssColors Math_NaN $"#6750A4FF"
    {| format := $"hex"; useCssSyntax := true |} = $"#6750a4"
  /\ convertCssColors Math_NaN $"#6750A480"
       {| format := $"hex"; useCssSyntax := true |} = $"#6750a480".
Proof.
  split.
  - apply (proj2 (hex_to_hex_normalises Math_NaN true $"6750A4FF"
                    ltac:(repeat constructor)) eq_refl).
  - apply (proj2 (hex_to_hex_normalises Math_NaN true $"6750A480"
                    ltac:(repeat constructor)) eq_refl).
Defined.

Lemma all_app : forall p (u v : Str.t), all p u -> all p v -> all p (u ++ v).
Proof. intros p u v Hu Hv. apply Forall_app. split; assumption. Qed.

Lemma all_firstn : forall p n (w : Str.t), all p w -> all p (firstn n w).
Proof.
  intros p n w H. revert n. induction H as [|a w Ha Hw IH]; intros [|n];
    simpl; constructor; [exact Ha|apply IH].
Qed.

Lemma all_skipn : forall p n (w : Str.t), all p w -> all p (skipn n w).
Proof.
  intros p n w H. revert n. induction H as [|a w Ha Hw IH]; intros [|n];
    simpl; try constructor; try assumption. apply IH.
Qed.

Lemma is_digit_number_char : forall a,
  Str.is_digit a = true -> number_char a = true.
Proof. intros a. ascii_cases a; vm_compute; congruence. Qed.

Lemma digit_char_digit : forall d : Z,
  (0 <= d < 10)%Z -> Str.is_digit (Num.digit_char d) = true.
Proof.
  intros d H.
  assert (E : In d [0; 1; 2; 3; 4; 5; 6; 7; 8; 9]%Z) by (simpl; lia).
  simpl in E.
  repeat (destruct E as [<-|E]; [reflexivity|]). destruct E.
Qed.

Lemma digits_fuel_digits : forall fuel n acc,
  all Str.is_digit acc -> all Str.is_digit (Num.digits_fuel fuel 10 n acc).
Proof.
  induction fuel as [|fuel IH]; intros n acc H; [exact H|].
  cbn [Num.digits_fuel].
  assert (Hc : all Str.is_digit (Num.digit_char (n mod 10) :: acc)).
  { constructor; [|exact H]. apply digit_char_digit.
    apply Z.mod_pos_bound. lia. }
  destruct (n / 10 =? 0)%Z; [exact Hc|]. apply IH, Hc.
Qed.

Lemma Z_digits_digits : forall n, all Str.is_digit (Num.Z_digits 10 n).
Proof. intros n. apply digits_fuel_digits. constructor. Qed.

Lemma zeros_digits : forall n, all Str.is_digit (Num.zeros n).
Proof.
  intros n. unfold Num.zeros. induction (Z.to_nat n); simpl; constructor; auto.
Qed.

Lemma digits_number_chars : forall w, all Str.is_digit w -> all number_char w.
Proof. intros w. apply all_impl, is_digit_number_char. Qed.

Ltac number_chars :=
  repeat first
    [ solve [repeat constructor]
    | assumption
    | apply all_app
    | apply all_firstn
    | apply all_skipn
    | solve [apply digits_number_chars;
             first [assumption | apply Z_digits_digits | apply zeros_digits
                   | apply all_firstn; assumption
                   | apply all_skipn; assumption]] ].

Lemma exponent_form_chars : forall ds ex : Str.t,
  all number_char ds -> all number_char ex ->
  all number_char
    match ds with
    | [d] => [d] ++ Str.lit "e" ++ ex
    | d :: rest => [d] ++ Str.lit "." ++ rest ++ Str.lit "e" ++ ex
    | [] => []
    end.
Proof.
  intros ds ex Hds Hex. destruct ds as [|d [|d' rest]].
  - constructor.
  - inversion Hds; subst. constructor; [assumption|]. number_chars.
  - inversion Hds as [|? ? Hd Hr]; subst. constructor; [assumption|].
    number_chars.
Qed.

Lemma toString_chars : forall x, all number_char (Num.toString x).
Proof.
  intros [s|s| |s m e]; unfold Num.toString.
  - repeat constructor.
  - destruct s; repeat constructor.
  - repeat constructor.
  - destruct (Num.shortest _ _ _ _ _ _) as [s0 sc0].
    destruct (Num.strip_zeros_fuel _ _ _) as [s1 sc].
    set (ds := Num.Z_digits 10 s1).
    assert (Hds : all number_char ds)
      by (apply digits_number_chars, Z_digits_digits).
    apply all_app; [destruct s; repeat constructor|].
    repeat match goal with
           | |- context [if (?a && ?b)%bool then _ else _] =>
             destruct (a && b)%bool
           end.
    + number_chars.
    + number_chars.
    + number_chars.
    + apply exponent_form_chars; [exact Hds|].
      destruct (0 <=? _)%Z; number_chars.
Qed.

Lemma point_form_chars : forall n f, all number_char (Num.point_form n f).
Proof.
  intros n f. unfold Num.point_form.
  set (ds := if (n =? 0)%Z then Str.lit "0" else Num.Z_digits 10 n).
  assert (Hds : all number_char ds).
  { unfold ds. destruct (n =? 0)%Z; number_chars. }
  destruct (f =? 0)%Z; [exact Hds|].
  assert (Hds' : all number_char
                   (Num.zeros (f + 1 - Z.of_nat (length ds)) ++ ds))
    by number_chars.
  number_chars.
Qed.

Lemma Ok_inj : forall (A : Type) (a b : A), Ok a = Ok b -> a = b.
Proof. intros A a b H. congruence. Qed.

Lemma toFixed_chars : forall x f t,
  Num.toFixed x f = Ok t -> all number_char t.
Proof.
  intros x f t H. unfold Num.toFixed in H.
  destruct (negb _); [discriminate H|].
  destruct x as [s|s| |s m e].
  - apply Ok_inj in H. rewrite <- H. apply point_form_chars.
  - apply Ok_inj in H. rewrite <- H.
    exact (toString_chars (S754_infinity s)).
  - apply Ok_inj in H. rewrite <- H. repeat constructor.
  - destruct (Num.cmp_pow10 (Z.pos m) e 21); apply Ok_inj in H;
      rewrite <- H.
    + exact (toString_chars (S754_finite s m e)).
    + apply all_app; [destruct s; repeat constructor|apply point_form_chars].
    + exact (toString_chars (S754_finite s m e)).
Qed.

(** ** Texts over a set of characters *)

Section Keeps.

Variable P : ascii -> bool.

Lemma all_suffix : forall u v : Str.t, all P (u ++ v) -> all P v.
Proof. intros u v H. apply Forall_app in H. apply H. Qed.

Lemma rep_greedy_keeps_all : forall p k, keeps_chars P k ->
  forall s lo hi c st, all P s -> caps_over P c ->
    rep_greedy p lo hi k s c = Some st ->
    all P (fst st) /\ caps_over P (snd st).
Proof.
  intros p k Hk s lo hi c st Hs Hc H.
  apply rep_greedy_sound in H. destruct H as (w & s' & -> & _ & H).
  apply (Hk s' c st); auto. apply (all_suffix w), Hs.
Qed.

Lemma rep_lazy_keeps_all : forall p k, keeps_chars P k ->
  forall s c st, all P s -> caps_over P c ->
    rep_lazy p k s c = Some st ->
    all P (fst st) /\ caps_over P (snd st).
Proof.
  intros p k Hk s c st Hs Hc H.
  apply rep_lazy_sound in H. destruct H as (w & s' & -> & _ & H).
  apply (Hk s' c st); auto. apply (all_suffix w), Hs.
Qed.

Lemma run_keeps : forall r k, keeps_chars P k -> keeps_chars P (run r k).
Proof.
  induction r as [l|p|r1 IH1 r2 IH2|r1 IH1 r2 IH2|r1 IH1|p lo hi|p|i r1 IH1|];
    intros k Hk s c st Hs Hc H; cbn [run] in H.
  - destruct (Str.strip_prefix l s) as [s'|] eqn:E; [|discriminate].
    apply strip_prefix_app in E. subst s.
    apply (Hk s' c st); auto. apply (all_suffix l), Hs.
  - destruct s as [|a s]; [discriminate|].
    destruct (p a); [|discriminate].
    apply (Hk s c st); auto. inversion Hs; assumption.
  - apply (IH1 (run r2 k) (IH2 k Hk) s c st); assumption.
  - destruct (run r1 k s c) as [x|] eqn:E.
    + injection H as ->. apply (IH1 k Hk s c st); assumption.
    + apply (IH2 k Hk s c st); assumption.
  - destruct (run r1 k s c) as [x|] eqn:E.
    + injection H as ->. apply (IH1 k Hk s c st); assumption.
    + apply (Hk s c st); assumption.
  - apply (rep_greedy_keeps_all p k Hk s lo hi c st); assumption.
  - apply (rep_lazy_keeps_all p k Hk s c st); assumption.
  - refine (IH1 _ _ s c st Hs Hc H).
    intros s' c' st' Hs' Hc' H'. apply (Hk _ _ _ Hs' ) in H'; [exact H'|].
    constructor; [|exact Hc']. cbn [snd]. apply all_firstn, Hs.
  - destruct s; [|discriminate]. apply (Hk [] c st); assumption.
Qed.

Lemma match_at_keeps : forall r s rest c,
  all P s -> match_at r s = Some (rest, c) -> all P rest /\ caps_over P c.
Proof.
  intros r s rest c Hs H.
  apply (run_keeps r accept) in H; [exact H| |exact Hs|constructor].
  intros s' c' st' Hs' Hc' E. unfold accept in E. injection E as <-.
  auto.
Qed.

Lemma replace_first_keeps : forall r f s,
  (forall c, caps_over P c -> all P (f c)) -> all P s ->
  all P (replace_first r f s).
Proof.
  intros r f s Hf. induction s as [|a s IH]; intros Hs; cbn [replace_first].
  - destruct (match_at r []) as [[rest c]|] eqn:E; [|constructor].
    apply match_at_keeps in E; [|exact Hs]. destruct E as [Hr Hc].
    apply all_app; [apply Hf, Hc|exact Hr].
  - destruct (match_at r (a :: s)) as [[rest c]|] eqn:E.
    + apply match_at_keeps in E; [|exact Hs]. destruct E as [Hr Hc].
      apply all_app; [apply Hf, Hc|exact Hr].
    + inversion Hs; subst. constructor; [assumption|]. apply IH. assumption.
Qed.

Lemma group_keeps : forall c i, caps_over P c -> all P (group c i).
Proof.
  intros c i H. unfold group.
  induction H as [|[j t] c Ht Hc IH]; cbn [cap]; [constructor|].
  destruct (Nat.eqb i j); [exact Ht|exact IH].
Qed.

Lemma replace_prefix_keeps : forall p by_ s,
  all P by_ -> all P s -> all P (replace_prefix p by_ s).
Proof.
  intros p by_ s Hb Hs. unfold replace_prefix.
  destruct (Str.strip_prefix p s) as [rest|] eqn:E; [|exact Hs].
  apply strip_prefix_app in E. subst s.
  apply all_app; [exact Hb|]. apply (all_suffix p), Hs.
Qed.

Lemma strips_keep : forall s,
  all P s ->
  all P (strip_dot0 s) /\ all P (strip_dot00 s) /\ all P (strip_dot s)
  /\ all P (strip_fraction_zeros s) /\ all P (strip_zeros s).
Proof.
  intros s Hs.
  repeat split; apply replace_first_keeps; auto;
    intros c Hc; try constructor.
  apply group_keeps, Hc.
Qed.

End Keeps.


(** ** The CSS form of a converted colour is a token again *)

Lemma run_opt_some : forall r (k : cont) s c st,
  run r k s c = Some st -> run (Opt r) k s c = Some st.
Proof. intros r k s c st H. cbn [run]. rewrite H. reflexivity. Qed.

Lemma number_char_body : forall w, all number_char w -> all body_char w.
Proof.
  intros w. apply all_impl. intros a H. unfold body_char. rewrite H.
  reflexivity.
Qed.

Lemma body_char_not_rparen : forall a,
  body_char a = true -> not_rparen a = true.
Proof. intros a. ascii_cases a; vm_compute; congruence. Qed.

Lemma scan_functional : forall kw body,
  In kw functional_keywords -> body <> [] -> all not_rparen body ->
  scan COLOR_REGEX (kw ++ body ++ $")") = [Token (kw ++ body ++ $")")].
Proof.
  intros kw body Hkw Hne Hb.
  assert (Hplus : forall (k : cont) c st,
            k [] c = Some st ->
            run (Plus not_rparen -:- Lit $")") k (body ++ $")") c = Some st).
  { intros k c st Hk. rewrite run_seq.
    apply run_plus_all; [exact Hne|exact Hb|reflexivity|].
    change ($")") with ($")" ++ []). rewrite run_lit_here. exact Hk. }
  assert (Hm : exists cs,
            match_at COLOR_REGEX (kw ++ body ++ $")") = Some ([], cs)).
  { unfold match_at, COLOR_REGEX. unfold functional_keywords in Hkw.
    destruct Hkw as [<-|[<-|[<-|[<-|[<-|[]]]]]].
    - eexists. apply run_alt_some. rewrite run_group.
      change ($"hsl(" ++ body ++ $")") with ($"hsl" ++ $"(" ++ body ++ $")").
      rewrite run_seq, run_lit_here.
      rewrite run_seq, run_group, run_opt_none by reflexivity.
      rewrite run_seq, run_lit_here.
      apply Hplus. reflexivity.
    - eexists. apply run_alt_some. rewrite run_group.
      change ($"hsla(" ++ body ++ $")")
        with ($"hsl" ++ $"a" ++ $"(" ++ body ++ $")").
      rewrite run_seq, run_lit_here.
      rewrite run_seq, run_group. apply run_opt_some.
      rewrite run_lit_here.
      rewrite run_seq, run_lit_here.
      apply Hplus. reflexivity.
    - rewrite run_alt_none by reflexivity.
      eexists. apply run_alt_some. rewrite run_group.
      change ($"rgb(" ++ body ++ $")") with ($"rgb" ++ $"(" ++ body ++ $")").
      rewrite run_seq, run_lit_here.
      rewrite run_seq, run_group, run_opt_none by reflexivity.
      rewrite run_seq, run_lit_here.
      apply Hplus. reflexivity.
    - rewrite run_alt_none by reflexivity.
      eexists. apply run_alt_some. rewrite run_group.
      change ($"rgba(" ++ body ++ $")")
        with ($"rgb" ++ $"a" ++ $"(" ++ body ++ $")").
      rewrite run_seq, run_lit_here.
      rewrite run_seq, run_group. apply run_opt_some.
      rewrite run_lit_here.
      rewrite run_seq, run_lit_here.
      apply Hplus. reflexivity.
    - rewrite run_alt_none by reflexivity.
      rewrite run_alt_none by reflexivity.
      rewrite run_alt_none by reflexivity.
      eexists. rewrite run_group.
      rewrite run_seq, run_lit_here.
      apply Hplus. reflexivity. }
  destruct Hm as [cs Hm].
  apply (scan_single _ _ cs); [|exact Hm|reflexivity].
  unfold functional_keywords in Hkw.
  destruct Hkw as [<-|[<-|[<-|[<-|[<-|[]]]]]]; discriminate.
Qed.

Lemma app_nonempty_r : forall u v : Str.t, v <> [] -> u ++ v <> [].
Proof. intros u v H E. apply app_eq_nil in E. destruct E. contradiction. Qed.

Lemma toFixed_body : forall x f t, Num.toFixed x f = Ok t -> all body_char t.
Proof. intros x f t H. apply number_char_body, (toFixed_chars x f t H). Qed.

Ltac body_chars :=
  repeat first
    [ solve [repeat constructor]
    | assumption
    | apply all_app
    | solve [apply number_char_body, toString_chars]
    | solve [apply strips_keep; body_chars]
    | solve [apply replace_prefix_keeps; body_chars] ].

Ltac fixed_body x f t Ht Hb :=
  destruct (toFixed_ok x f) as [t Ht]; [lia|];
  pose proof (toFixed_body x f t Ht) as Hb;
  rewrite Ht; cbn [bind].

Lemma formatOklch_css_shape : forall o,
  exists body,
    formatOklch o true = Ok ($"oklch(" ++ body ++ $")")
    /\ body <> [] /\ all body_char body.
Proof.
  intros [L C h al]. unfold formatOklch.
  cbn [Oklch.L Oklch.C Oklch.h Oklch.a].
  fixed_body (Num.mul L (Num.lit "100")) 2%Z l0 Hl Bl.
  fixed_body C 4%Z c0 Hc Bc. fixed_body h 2%Z h0 Hh Bh.
  destruct (alpha_below_1 al) as [a|].
  - fixed_body a 2%Z a0 Ha Ba.
    exists (strip_dot00 l0 ++ $"% " ++ strip_dot (strip_fraction_zeros c0)
            ++ $" " ++ strip_dot00 h0
            ++ $" / " ++ replace_prefix $"0." $"." (strip_dot (strip_zeros a0))).
    split; [|split].
    + rewrite <- ?app_assoc. reflexivity.
    + apply app_nonempty_r. discriminate.
    + body_chars.
  - cbn [bind].
    exists (strip_dot00 l0 ++ $"% " ++ strip_dot (strip_fraction_zeros c0)
            ++ $" " ++ strip_dot00 h0).
    split; [|split].
    + rewrite <- ?app_assoc. reflexivity.
    + apply app_nonempty_r. discriminate.
    + body_chars.
Qed.

Lemma formatColor_css_shape : forall M f rgb m,
  functional_format f ->
  exists kw body,
    formatColor M {| format := f; useCssSyntax := true |} rgb m
    = Ok (kw ++ body ++ $")")
    /\ In kw functional_keywords /\ body <> [] /\ all body_char body.
Proof.
  intros M f [r g b al] m H. unfold functional_format in H.
  unfold formatColor. cbn [format useCssSyntax RGB.r RGB.g RGB.b RGB.a].
  destruct H as [-> | [-> | ->]]; vm_tests; cbv iota.
  - (* rgb *)
    destruct (alpha_below_1 al) as [a|].
    + fixed_body a 2%Z a0 Ha Ba.
      exists $"rgba(",
        (Num.toString (Num.round r) ++ $", " ++ Num.toString (Num.round g)
         ++ $", " ++ Num.toString (Num.round b) ++ $", "
         ++ Num.toString (Num.parseFloat a0)).
      split; [|split; [|split]].
      * rewrite <- ?app_assoc. reflexivity.
      * simpl. auto.
      * apply app_nonempty_r. discriminate.
      * body_chars.
    + exists $"rgb(",
        (Num.toString (Num.round r) ++ $", " ++ Num.toString (Num.round g)
         ++ $", " ++ Num.toString (Num.round b)).
      split; [|split; [|split]].
      * rewrite <- ?app_assoc. reflexivity.
      * simpl. auto.
      * apply app_nonempty_r. discriminate.
      * body_chars.
  - (* hsl *)
    set (hsl := rgbToHsl (RGB.mk r g b al)).
    fixed_body (HSL.h hsl) 0%Z h0 Hh0 Bh. fixed_body (HSL.s hsl) 1%Z s0 Hs0 Bs.
    fixed_body (HSL.l hsl) 1%Z l0 Hl0 Bl.
    destruct (alpha_below_1 (HSL.a hsl)) as [a|].
    + fixed_body a 2%Z a0 Ha Ba.
      exists $"hsla(",
        (h0 ++ $", " ++ strip_dot0 s0 ++ $"%, " ++ strip_dot0 l0 ++ $"%, "
         ++ Num.toString (Num.parseFloat a0)).
      split; [|split; [|split]].
      * rewrite <- ?app_assoc. reflexivity.
      * simpl. auto.
      * apply app_nonempty_r. discriminate.
      * body_chars.
    + exists $"hsl(",
        (h0 ++ $", " ++ strip_dot0 s0 ++ $"%, " ++ strip_dot0 l0 ++ $"%").
      split; [|split; [|split]].
      * rewrite <- ?app_assoc. reflexivity.
      * simpl. auto.
      * apply app_nonempty_r. discriminate.
      * body_chars.
  - (* oklch *)
    destruct (formatOklch_css_shape (rgbToOklch M (RGB.mk r g b al)))
      as (body & E & Hne & Hb).
    exists $"oklch(", body. rewrite E. simpl. auto 10.
Qed.

(** X6. With CSS syntax and format rgb, hsl or oklch, the text that
    replaces a token whose parse succeeds is a keyword of the scanning
    pattern, a non-empty argument list made of the characters of numbers,
    space, comma, per cent and slash, and [)]; the scanning pattern matches
    it as one token. *)
Theorem css_output_is_a_token :
  forall (M : MathLib) (f : Str.t) (token : Str.t) (rgb : RGB.t),
    functional_format f ->
    sampleForFormatter M token = Some rgb ->
    let out := convertToken M {| format := f; useCssSyntax := true |} token in
    (exists kw body,
        out = kw ++ body ++ $")" /\ In kw functional_keywords
        /\ body <> [] /\ all body_char body)
    /\ scan COLOR_REGEX out = [Token out].
Proof.
  intros M f token rgb Hf Hs out.
  destruct (formatColor_css_shape M f rgb token Hf)
    as (kw & body & E & Hkw & Hne & Hb).
  assert (Eo : out = kw ++ body ++ $")").
  { unfold out, convertToken, convertBody. rewrite Hs, E. reflexivity. }
  split.
  - exists kw, body. auto.
  - rewrite Eo. apply scan_functional; auto.
    revert Hb. apply all_impl, body_char_not_rparen.
Qed.

Lemma css_output_is_a_token_witness :
  scan COLOR_REGEX
    (convertToken Math_NaN {| format := $"hsl"; useCssSyntax := true |}
       $"#6750A4")
  = [Token $"hsl(256, 34.4%, 47.8%)"].
Proof.
  apply (proj2 (css_output_is_a_token Math_NaN $"hsl" $"#6750A4"
                  (RGB.mk (Num.lit "103") (Num.lit "80") (Num.lit "164") None)
                  (or_intror (or_introl eq_refl)) eq_refl)).
Defined.

(** ** Rounding keeps a positive mantissa *)

Section Rounding.

Local Open Scope Z_scope.

Lemma iter_pos_nat : forall (A : Type) (f : A -> A) (n : positive) (x : A),
  iter_pos f n x = Nat.iter (Pos.to_nat n) f x.
Proof.
  intros A f. induction n as [n IH|n IH|]; intros x; cbn [iter_pos].
  - rewrite !IH, Pos2Nat.inj_xI.
    replace (S (2 * Pos.to_nat n))%nat
      with (Pos.to_nat n + S (Pos.to_nat n))%nat by lia.
    rewrite Nat.iter_add, Nat.iter_succ_r. reflexivity.
  - rewrite !IH, Pos2Nat.inj_xO.
    replace (2 * Pos.to_nat n)%nat with (Pos.to_nat n + Pos.to_nat n)%nat
      by lia.
    rewrite Nat.iter_add. reflexivity.
  - reflexivity.
Qed.

Lemma shr_1_m : forall r, 0 <= shr_m r -> shr_m (shr_1 r) = shr_m r / 2.
Proof.
  intros [m r s] H. cbn [shr_m] in *. unfold shr_1.
  destruct m as [|[p|p|]|p]; cbn [shr_m]; try reflexivity; try lia.
  - rewrite Pos2Z.inj_xI. apply Z.div_unique with 1; lia.
  - rewrite Pos2Z.inj_xO. apply Z.div_unique with 0; lia.
Qed.

Lemma shr_iter_m : forall n r,
  0 <= shr_m r ->
  shr_m (Nat.iter n shr_1 r) = shr_m r / 2 ^ Z.of_nat n.
Proof.
  induction n as [|n IH]; intros r H.
  - simpl. rewrite Z.div_1_r. reflexivity.
  - rewrite Nat.iter_succ_r, IH by (rewrite shr_1_m by exact H;
                                     apply Z.div_pos; lia).
    rewrite shr_1_m by exact H.
    rewrite Nat2Z.inj_succ, Z.pow_succ_r by lia.
    rewrite Z.div_div by lia. reflexivity.
Qed.

Lemma digits2_pos_size : forall p, digits2_pos p = Pos.size p.
Proof. induction p; simpl; congruence. Qed.

Lemma Zdigits2_bounds : forall p,
  2 ^ (Z.pos (digits2_pos p) - 1) <= Z.pos p < 2 ^ Z.pos (digits2_pos p).
Proof.
  intros p. rewrite digits2_pos_size. split.
  - pose proof (Pos.size_le p) as H.
    assert (H' : 2 ^ Z.pos (Pos.size p) <= 2 * Z.pos p).
    { rewrite <- Pos2Z.inj_pow. change (2 * Z.pos p) with (Z.pos p~0). lia. }
    replace (Z.pos (Pos.size p)) with (Z.succ (Z.pos (Pos.size p) - 1)) in H'
      by lia.
    rewrite Z.pow_succ_r in H' by lia. lia.
  - pose proof (Pos.size_gt p) as H. rewrite <- Pos2Z.inj_pow. lia.
Qed.

Lemma shr_record_of_loc_m : forall m l, shr_m (shr_record_of_loc m l) = m.
Proof. intros m [|[]]; reflexivity. Qed.

(** Bringing a positive mantissa to the format's exponent leaves it
    positive and does not lower the exponent. *)
Lemma shr_fexp_pos : forall m e l r e2,
  0 < m -> -1074 <= e ->
  shr_fexp Num.prec Num.emax m e l = (r, e2) ->
  0 < shr_m r /\ e <= e2.
Proof.
  intros m e l r e2 Hm He H. unfold shr_fexp, shr in H.
  destruct m as [|p|p]; try lia.
  cbn [Zdigits2] in H.
  set (D := Z.pos (digits2_pos p)) in *.
  pose proof (Zdigits2_bounds p) as HD. fold D in HD.
  assert (Hf : fexp Num.prec Num.emax (D + e) = Z.max (D + e - 53) (-1074))
    by reflexivity.
  rewrite Hf in H.
  destruct (Z.max (D + e - 53) (-1074) - e) as [|k|k] eqn:En.
  - injection H as <- <-. rewrite shr_record_of_loc_m. lia.
  - injection H as <- <-. split; [|lia].
    rewrite iter_pos_nat, shr_iter_m
      by (rewrite shr_record_of_loc_m; lia).
    rewrite shr_record_of_loc_m, positive_nat_Z.
    assert (Ek : Z.pos k = D - 53) by lia.
    rewrite Ek.
    assert (Hp : 2 ^ (D - 53) * 2 ^ 52 <= Z.pos p).
    { rewrite <- Z.pow_add_r by lia.
      replace (D - 53 + 52) with (D - 1) by lia. lia. }
    assert (H2 : 0 < 2 ^ (D - 53)) by (apply Z.pow_pos_nonneg; lia).
    assert (Hq : 2 ^ 52 <= Z.pos p / 2 ^ (D - 53)).
    { apply Z.div_le_lower_bound; lia. }
    assert (0 < 2 ^ 52) by (apply Z.pow_pos_nonneg; lia). lia.
  - injection H as <- <-. rewrite shr_record_of_loc_m. lia.
Qed.

Lemma round_nearest_even_pos : forall m l, 0 < m -> 0 < round_nearest_even m l.
Proof.
  intros m l H. unfold round_nearest_even.
  destruct l as [|[]]; try lia. destruct (Z.even m); lia.
Qed.

(** Rounding a positive mantissa gives a finite number of the same sign
    with an exponent no lower, or overflows to infinity: never zero, never
    NaN. *)
Lemma binary_round_aux_pos : forall sx mx ex lx,
  0 < mx -> -1074 <= ex ->
  binary_round_aux Num.prec Num.emax sx mx ex lx = S754_infinity sx
  \/ exists m e,
       binary_round_aux Num.prec Num.emax sx mx ex lx = S754_finite sx m e
       /\ ex <= e.
Proof.
  intros sx mx ex lx Hm He. unfold binary_round_aux.
  destruct (shr_fexp Num.prec Num.emax mx ex lx) as [r1 e1] eqn:E1.
  apply shr_fexp_pos in E1; [|lia|lia]. destruct E1 as [Hr1 He1].
  destruct (shr_fexp Num.prec Num.emax
              (round_nearest_even (shr_m r1) (loc_of_shr_record r1)) e1
              loc_Exact) as [r2 e2] eqn:E2.
  apply shr_fexp_pos in E2;
    [|apply round_nearest_even_pos; exact Hr1|lia].
  destruct E2 as [Hr2 He2].
  destruct (shr_m r2) as [|m|m]; try lia.
  destruct (e2 <=? Num.emax - Num.prec); [|left; reflexivity].
  right. exists m, e2. split; [reflexivity|lia].
Qed.


Lemma same_number_eq : forall x y, same_number x y = true -> x = y.
Proof.
  intros [a|a| |a m e] [b|b| |b m' e'] H; simpl in H; try discriminate H;
    try reflexivity.
  - apply Bool.eqb_prop in H. congruence.
  - apply Bool.eqb_prop in H. congruence.
  - apply andb_true_iff in H. destruct H as [H He].
    apply andb_true_iff in H. destruct H as [Ha Hm].
    apply Bool.eqb_prop in Ha. apply Pos.eqb_eq in Hm. apply Z.eqb_eq in He.
    congruence.
Qed.

(** The number nearest to a positive integer is positive, and its exponent
    is that of a 53-bit mantissa or higher. *)
Lemma of_Z_pos_shape : forall p,
  Num.of_Z (Z.pos p) = S754_infinity false
  \/ exists m e,
       Num.of_Z (Z.pos p) = S754_finite false m e
       /\ Z.min (Z.pos (digits2_pos p) - 53) 0 <= e.
Proof.
  intros p. unfold Num.of_Z, binary_normalize, binary_round.
  set (D := Z.pos (digits2_pos p)).
  assert (Hf : fexp Num.prec Num.emax (D + 0) = D - 53).
  { unfold fexp, emin, Num.prec, Num.emax. lia. }
  rewrite Hf. unfold shl_align.
  destruct (D - 53 - 0) as [|d|d] eqn:Ed.
  - destruct (binary_round_aux_pos false (Z.pos p) 0 loc_Exact) as [H|H];
      [lia|lia|auto|].
    destruct H as (m & e & H & He). right. exists m, e. split; [exact H|lia].
  - destruct (binary_round_aux_pos false (Z.pos p) 0 loc_Exact) as [H|H];
      [lia|lia|auto|].
    destruct H as (m & e & H & He). right. exists m, e. split; [exact H|lia].
  - destruct (binary_round_aux_pos false (Z.pos (Pos.iter xO p d)) (D - 53)
                loc_Exact) as [H|H]; [lia|lia|auto|].
    destruct H as (m & e & H & He). right. exists m, e. split; [exact H|lia].
Qed.

Lemma channels_written_all : forallb channel_written byte_values = true.
Proof. vm_compute. reflexivity. Qed.

Lemma channel_written_spec : forall k,
  0 <= k <= 255 ->
  clamp_channel (Num.of_Z k) = Num.of_Z k
  /\ Num.toString (Num.round (Num.of_Z k)) = Num.Z_digits 10 k
  /\ toHex (Num.of_Z k) = two_hex k
  /\ Num.Z_digits 10 k <> []
  /\ Num.digits_val (Num.Z_digits 10 k) = k.
Proof.
  intros k Hk.
  pose proof channels_written_all as H. rewrite forallb_forall in H.
  assert (Hin : In k byte_values).
  { unfold byte_values. apply in_map_iff. exists (Z.to_nat k).
    split; [lia|]. apply in_seq. lia. }
  specialize (H k Hin). unfold channel_written in H.
  repeat (apply andb_true_iff in H; destruct H as [H ?]).
  repeat split.
  - apply same_number_eq. assumption.
  - apply Str_eqb_eq. assumption.
  - apply Str_eqb_eq. assumption.
  - intros E. rewrite E in *. discriminate.
  - apply Z.eqb_eq. assumption.
Qed.

(** The clamp of the callback on the number nearest to an integer. *)
Lemma clamp_channel_of_Z : forall n,
  0 <= n -> clamp_channel (Num.of_Z n) = Num.of_Z (Z.min 255 n).
Proof.
  intros n Hn. destruct (Z.le_gt_cases n 255) as [Hs|Hl].
  - rewrite Z.min_r by exact Hs. apply channel_written_spec. lia.
  - rewrite Z.min_l by lia.
    destruct n as [|p|p]; try lia.
    assert (HD : 9 <= Z.pos (digits2_pos p)).
    { pose proof (Zdigits2_bounds p) as [_ Hp].
      destruct (Z.le_gt_cases 9 (Z.pos (digits2_pos p))) as [|Hlt]; [assumption|].
      assert (2 ^ Z.pos (digits2_pos p) <= 2 ^ 8)
        by (apply Z.pow_le_mono_r; lia).
      change (2 ^ 8) with 256 in *. lia. }
    unfold clamp_channel.
    destruct (of_Z_pos_shape p) as [E|(m & e & E & He)]; rewrite E.
    + reflexivity.
    + assert (Hmin : Num.min (Num.lit "255") (S754_finite false m e)
                     = Num.lit "255").
      { unfold Num.min.
        assert (Hc : SFcompare (Num.lit "255") (S754_finite false m e)
                     = Some Lt).
        { vm_sub (Num.lit "255"). cbn [SFcompare].
          destruct (Z.compare_spec (-45) e) as [E1|E1|E1]; try reflexivity;
            lia. }
        rewrite Hc. reflexivity. }
      rewrite Hmin. reflexivity.
Qed.

(** ** Reading a run of digits *)

Lemma digit_of_digit : forall a,
  Str.is_digit a = true ->
  exists d, Num.digit_of 10 a = Some d /\ 0 <= d < 10.
Proof.
  intros a. ascii_cases a; intros H; try discriminate H;
    eexists; (split; [vm_compute; reflexivity|lia]).
Qed.

Lemma digits_prefix_digits : forall r acc,
  all Str.is_digit r ->
  match acc with Some n => 0 <= n | None => r <> [] end ->
  exists n, Num.digits_prefix 10 r acc = Some n /\ 0 <= n.
Proof.
  induction r as [|a r IH]; intros acc Hr Hacc.
  - destruct acc as [n|]; [|contradiction]. exists n. auto.
  - inversion Hr as [|? ? Ha Hr']; subst.
    destruct (digit_of_digit a Ha) as (d & Ed & Hd).
    cbn [Num.digits_prefix]. rewrite Ed. apply IH; [exact Hr'|].
    destruct acc as [n|]; lia.
Qed.

Lemma digit_start : forall a r,
  Str.is_digit a = true ->
  Num.split_sign (Str.trimStart (a :: r)) = (false, a :: r).
Proof.
  intros a r. ascii_cases a; intros H; try discriminate H; reflexivity.
Qed.

(** [parseInt] of a run of digits: the number nearest to its value. *)
Lemma parseInt_digits : forall r,
  r <> [] -> all Str.is_digit r ->
  Num.parseInt r 10 = Num.of_Z (Num.digits_val r) /\ 0 <= Num.digits_val r.
Proof.
  intros r Hne Hr.
  destruct (digits_prefix_digits r None Hr Hne) as (n & En & Hn).
  unfold Num.digits_val. rewrite En. split; [|exact Hn].
  destruct r as [|a r]; [contradiction|]. inversion Hr; subst.
  unfold Num.parseInt. rewrite digit_start by assumption.
  change (10 =? 16) with false. cbv iota. rewrite En.
  destruct (Z.eqb_spec n 0) as [->|Hz]; reflexivity.
Qed.

(** ** Integers below 2^53 are numbers *)

Lemma shr_fexp_exact : forall m e,
  digits2_pos m = 53%positive -> -1074 <= e ->
  shr_fexp Num.prec Num.emax (Z.pos m) e loc_Exact
  = ({| shr_m := Z.pos m; shr_r := false; shr_s := false |}, e).
Proof.
  intros m e Hd He. unfold shr_fexp. cbn [Zdigits2]. rewrite Hd.
  assert (Hf : fexp Num.prec Num.emax (53 + e) - e = 0).
  { unfold fexp, emin, Num.prec, Num.emax. lia. }
  rewrite Hf. reflexivity.
Qed.

Lemma binary_round_aux_exact : forall s m e,
  digits2_pos m = 53%positive -> -1074 <= e <= 971 ->
  binary_round_aux Num.prec Num.emax s (Z.pos m) e loc_Exact
  = S754_finite s m e.
Proof.
  intros s m e Hd He. unfold binary_round_aux.
  rewrite shr_fexp_exact by (assumption || lia).
  cbn [shr_m loc_of_shr_record round_nearest_even].
  rewrite shr_fexp_exact by (assumption || lia).
  cbn [shr_m].
  replace (e <=? Num.emax - Num.prec) with true; [reflexivity|].
  symmetry. apply Z.leb_le. unfold Num.emax, Num.prec. lia.
Qed.

Lemma iter_xO : forall p d,
  digits2_pos (Pos.iter xO p d) = (digits2_pos p + d)%positive
  /\ Z.pos (Pos.iter xO p d) = Z.pos p * 2 ^ Z.pos d.
Proof.
  intros p d. apply Pos.iter_ind.
  - cbn [digits2_pos]. split; [lia|]. rewrite Pos2Z.inj_xO. lia.
  - intros q a [H1 H2]. cbn [digits2_pos]. rewrite H1. split; [lia|].
    rewrite Pos2Z.inj_xO, H2, Pos2Z.inj_succ, Z.pow_succ_r by lia. lia.
Qed.

(** The number nearest to a positive integer below 2^53 is that integer. *)
Lemma of_Z_exact : forall p,
  Z.pos p < 2 ^ 53 ->
  exists m e,
    Num.of_Z (Z.pos p) = S754_finite false m e
    /\ -52 <= e <= 0 /\ Z.pos m = Z.pos p * 2 ^ (- e).
Proof.
  intros p Hp.
  pose proof (Zdigits2_bounds p) as [Hlo _].
  set (D := Z.pos (digits2_pos p)) in *.
  assert (HD : 1 <= D <= 53).
  { split; [unfold D; lia|].
    destruct (Z.le_gt_cases D 53) as [|Hgt]; [assumption|].
    assert (2 ^ 53 <= 2 ^ (D - 1)) by (apply Z.pow_le_mono_r; lia). lia. }
  unfold Num.of_Z, binary_normalize, binary_round. fold D.
  assert (Hf : fexp Num.prec Num.emax (D + 0) = D - 53).
  { unfold fexp, emin, Num.prec, Num.emax. lia. }
  rewrite Hf. unfold shl_align.
  destruct (D - 53 - 0) as [|d|d] eqn:Ed; try lia.
  - exists p, 0. rewrite binary_round_aux_exact.
    + split; [reflexivity|]. split; [lia|]. simpl. lia.
    + apply Pos2Z.inj. fold D. lia.
    + lia.
  - destruct (iter_xO p d) as [H1 H2].
    exists (Pos.iter xO p d), (D - 53). rewrite binary_round_aux_exact.
    + split; [reflexivity|]. split; [lia|].
      rewrite H2. f_equal. f_equal. lia.
    + rewrite H1. apply Pos2Z.inj. rewrite Pos2Z.inj_add. fold D. lia.
    + lia.
Qed.

(** ** Arithmetic on numbers gives NaN from NaN only *)

Lemma shr_fexp_nonneg : forall m e l r e2,
  0 <= m ->
  shr_fexp Num.prec Num.emax m e l = (r, e2) -> 0 <= shr_m r.
Proof.
  intros m e l r e2 Hm H. unfold shr_fexp, shr in H.
  destruct (fexp Num.prec Num.emax (Zdigits2 m + e) - e) as [|k|k].
  - injection H as <- <-. rewrite shr_record_of_loc_m. exact Hm.
  - injection H as <- <-.
    rewrite iter_pos_nat, shr_iter_m by (rewrite shr_record_of_loc_m; lia).
    rewrite shr_record_of_loc_m. apply Z.div_pos; [exact Hm|].
    apply Z.pow_pos_nonneg; lia.
  - injection H as <- <-. rewrite shr_record_of_loc_m. exact Hm.
Qed.

Lemma round_nearest_even_nonneg : forall m l,
  0 <= m -> 0 <= round_nearest_even m l.
Proof.
  intros m l H. unfold round_nearest_even.
  destruct l as [|[]]; try lia. destruct (Z.even m); lia.
Qed.

Lemma binary_round_aux_not_nan : forall sx mx ex lx,
  0 <= mx ->
  Num.is_nan (binary_round_aux Num.prec Num.emax sx mx ex lx) = false.
Proof.
  intros sx mx ex lx Hm. unfold binary_round_aux.
  destruct (shr_fexp Num.prec Num.emax mx ex lx) as [r1 e1] eqn:E1.
  apply shr_fexp_nonneg in E1; [|exact Hm].
  destruct (shr_fexp Num.prec Num.emax
              (round_nearest_even (shr_m r1) (loc_of_shr_record r1)) e1
              loc_Exact) as [r2 e2] eqn:E2.
  apply shr_fexp_nonneg in E2; [|apply round_nearest_even_nonneg, E1].
  destruct (shr_m r2) as [|m|m]; try lia; [reflexivity|].
  destruct (e2 <=? Num.emax - Num.prec); reflexivity.
Qed.

(** Dividing a number by a finite number other than zero gives a number. *)
Lemma div_not_nan : forall x s m e,
  Num.is_nan x = false ->
  Num.is_nan (Num.div x (S754_finite s m e)) = false.
Proof.
  intros [sx|sx| |sx mx ex] s m e H; try discriminate H; try reflexivity.
  unfold Num.div, SFdiv.
  destruct (SFdiv_core_binary Num.prec Num.emax (Z.pos mx) ex (Z.pos m) e)
    as [[mz ez] lz] eqn:E.
  apply binary_round_aux_not_nan.
  unfold SFdiv_core_binary in E.
  set (m' := match ex - e - _ with
             | 0 => Z.pos mx
             | Z.pos _ => Z.shiftl (Z.pos mx) _
             | Z.neg _ => 0
             end) in E.
  assert (Hm' : 0 <= m').
  { unfold m'. destruct (ex - e - _); try lia.
    apply Z.shiftl_nonneg. lia. }
  pose proof (Z.div_eucl_eq m' (Z.pos m) ltac:(lia)) as Hq.
  pose proof (Z.mod_pos_bound m' (Z.pos m) ltac:(lia)) as Hr.
  unfold Z.modulo in Hr.
  destruct (Z.div_eucl m' (Z.pos m)) as [q r] eqn:Ed.
  injection E as <- _ _. nia.
Qed.

End Rounding.

Lemma comma_or_space_lower : forall w,
  all comma_or_space w -> Str.toLowerCase w = w.
Proof.
  intros w H. unfold Str.toLowerCase. induction H as [|a w Ha Hw IH];
    [reflexivity|].
  cbn [map]. rewrite IH. f_equal.
  revert Ha. ascii_cases a; vm_compute; congruence.
Qed.

Lemma comma_or_space_not_rparen : forall a,
  comma_or_space a = true -> not_rparen a = true.
Proof. intros a. ascii_cases a; vm_compute; congruence. Qed.

Lemma comma_or_space_not_digit : forall a,
  comma_or_space a = true -> Str.is_digit a = false.
Proof. intros a. ascii_cases a; vm_compute; congruence. Qed.

Lemma stops_after : forall (p q : ascii -> bool) w s,
  w <> [] -> all q w -> (forall a, q a = true -> p a = false) ->
  stops p (w ++ s).
Proof.
  intros p q [|a w] s Hne Hw Hp; [contradiction|].
  inversion Hw; subst. simpl. auto.
Qed.

Section RgbTokens.

Variables r s1 g s2 b : Str.t.
Hypothesis Nr : r <> [].
Hypothesis Ng : g <> [].
Hypothesis Nb : b <> [].
Hypothesis N1 : s1 <> [].
Hypothesis N2 : s2 <> [].
Hypothesis Dr : all Str.is_digit r.
Hypothesis Dg : all Str.is_digit g.
Hypothesis Db : all Str.is_digit b.
Hypothesis S1 : all comma_or_space s1.
Hypothesis S2 : all comma_or_space s2.

(** The rgb parser on three runs of digits with any separators. *)
Lemma RGB_REGEX_separated :
  search RGB_REGEX (rgb_token_with r s1 g s2 b)
  = Some [(3, b); (2, g); (1, r)].
Proof.
  assert (Hm : match_at RGB_REGEX (rgb_token_with r s1 g s2 b)
               = Some ([], [(3, b); (2, g); (1, r)])).
  { unfold match_at, RGB_REGEX, rgb_token_with.
    change ($"rgb(" ++ r ++ s1 ++ g ++ s2 ++ b ++ $")")
      with ($"rgb" ++ $"(" ++ r ++ s1 ++ g ++ s2 ++ b ++ $")").
    rewrite run_seq, run_lit_here.
    rewrite run_seq, run_opt_none by reflexivity.
    rewrite run_seq, run_lit_here.
    rewrite run_seq. apply run_group_plus_all; [exact Nr|exact Dr| |].
    { apply (stops_after _ comma_or_space); auto.
      apply comma_or_space_not_digit. }
    rewrite run_seq. apply run_plus_all; [exact N1|exact S1| |].
    { apply stops_after_digits; auto using digit_not_comma_or_space. }
    rewrite run_seq. apply run_group_plus_all; [exact Ng|exact Dg| |].
    { apply (stops_after _ comma_or_space); auto.
      apply comma_or_space_not_digit. }
    rewrite run_seq. apply run_plus_all; [exact N2|exact S2| |].
    { apply stops_after_digits; auto using digit_not_comma_or_space. }
    rewrite run_seq. apply run_group_plus_all; [exact Nb|exact Db| |];
      reflexivity. }
  unfold rgb_token_with in *.
  cbn [Str.lit String.list_ascii_of_string app] in *.
  cbn [search]. rewrite Hm. reflexivity.
Qed.

Lemma scan_rgb_separated :
  scan COLOR_REGEX (rgb_token_with r s1 g s2 b)
  = [Token (rgb_token_with r s1 g s2 b)].
Proof.
  assert (Hbody : all not_rparen (r ++ s1 ++ g ++ s2 ++ b)).
  { assert (Hd : forall w, all Str.is_digit w -> all not_rparen w)
      by (intros w; apply all_impl, digit_not_rparen).
    assert (Hs : forall w, all comma_or_space w -> all not_rparen w)
      by (intros w; apply all_impl, comma_or_space_not_rparen).
    unfold all in *. repeat (apply Forall_app; split); auto. }
  assert (Hm : exists c, match_at COLOR_REGEX (rgb_token_with r s1 g s2 b)
                         = Some ([], c)).
  { unfold match_at, COLOR_REGEX, rgb_token_with.
    rewrite run_alt_none by reflexivity.
    eexists. apply run_alt_some.
    rewrite run_group.
    change ($"rgb(" ++ r ++ s1 ++ g ++ s2 ++ b ++ $")")
      with ($"rgb" ++ $"(" ++ r ++ s1 ++ g ++ s2 ++ b ++ $")").
    rewrite run_seq, run_lit_here.
    rewrite run_seq, run_group, run_opt_none by reflexivity.
    rewrite run_seq, run_lit_here.
    rewrite run_seq.
    replace (r ++ s1 ++ g ++ s2 ++ b ++ $")")
      with ((r ++ s1 ++ g ++ s2 ++ b) ++ $")")
      by (rewrite <- !app_assoc; reflexivity).
    apply run_plus_all; auto.
    - destruct r; [contradiction|discriminate].
    - reflexivity.
    - reflexivity. }
  destruct Hm as [c Hm].
  apply (scan_single _ _ c); [discriminate|exact Hm|reflexivity].
Qed.

Lemma rgb_separated_cleaned :
  Str.trim (Str.toLowerCase (rgb_token_with r s1 g s2 b))
  = rgb_token_with r s1 g s2 b.
Proof.
  unfold rgb_token_with.
  assert (E : Str.toLowerCase ($"rgb(" ++ r ++ s1 ++ g ++ s2 ++ b ++ $")")
              = $"rgb(" ++ r ++ s1 ++ g ++ s2 ++ b ++ $")").
  { unfold Str.toLowerCase. rewrite !map_app.
    fold (Str.toLowerCase r). fold (Str.toLowerCase g).
    fold (Str.toLowerCase b). fold (Str.toLowerCase s1).
    fold (Str.toLowerCase s2).
    rewrite (digits_lower r Dr), (digits_lower g Dg), (digits_lower b Db),
      (comma_or_space_lower s1 S1), (comma_or_space_lower s2 S2).
    reflexivity. }
  rewrite E.
  replace ($"rgb(" ++ r ++ s1 ++ g ++ s2 ++ b ++ $")")
    with ("r"%char :: ($"gb(" ++ r ++ s1 ++ g ++ s2 ++ b) ++ [")"%char]).
  - apply trim_id; reflexivity.
  - rewrite <- !app_assoc. reflexivity.
Qed.

(** The sample of such a token: its three values, clamped at 255. *)
Lemma rgb_separated_sample : forall M,
  sampleForFormatter M (rgb_token_with r s1 g s2 b)
  = Some (RGB.mk (Num.of_Z (clamped_value r)) (Num.of_Z (clamped_value g))
                 (Num.of_Z (clamped_value b)) None).
Proof.
  intros M. unfold sampleForFormatter. rewrite rgb_separated_cleaned.
  assert (P : parseToken M (rgb_token_with r s1 g s2 b)
              = rgbStringToRgb (rgb_token_with r s1 g s2 b)) by reflexivity.
  rewrite P. unfold rgbStringToRgb. rewrite RGB_REGEX_separated.
  cbn [option_map group cap Nat.eqb].
  destruct (parseInt_digits r Nr Dr) as [Er Hr].
  destruct (parseInt_digits g Ng Dg) as [Eg Hg].
  destruct (parseInt_digits b Nb Db) as [Eb Hb].
  rewrite Er, Eg, Eb.
  change (Some (clampRgb (RGB.mk (Num.of_Z (Num.digits_val r))
                                 (Num.of_Z (Num.digits_val g))
                                 (Num.of_Z (Num.digits_val b)) None)))
    with (Some (RGB.mk (clamp_channel (Num.of_Z (Num.digits_val r)))
                       (clamp_channel (Num.of_Z (Num.digits_val g)))
                       (clamp_channel (Num.of_Z (Num.digits_val b))) None)).
  rewrite !clamp_channel_of_Z by assumption. reflexivity.
Qed.

Lemma convert_rgb_separated : forall M options,
  convertCssColors M (rgb_token_with r s1 g s2 b) options
  = catch_with
      (formatColor M options
         (RGB.mk (Num.of_Z (clamped_value r)) (Num.of_Z (clamped_value g))
                 (Num.of_Z (clamped_value b)) None)
         (rgb_token_with r s1 g s2 b))
      (fun _ => rgb_token_with r s1 g s2 b).
Proof.
  intros M options.
  rewrite convertCssColors_pieces, scan_rgb_separated.
  cbn [map concat piece_out]. rewrite app_nil_r.
  unfold convertToken, convertBody.
  rewrite rgb_separated_sample. reflexivity.
Qed.

End RgbTokens.

Lemma clamped_value_written : forall w,
  w <> [] -> all Str.is_digit w ->
  Num.toString (Num.round (Num.of_Z (clamped_value w)))
  = Num.Z_digits 10 (clamped_value w)
  /\ toHex (Num.of_Z (clamped_value w)) = two_hex (clamped_value w)
  /\ Num.Z_digits 10 (clamped_value w) <> []
  /\ all Str.is_digit (Num.Z_digits 10 (clamped_value w))
  /\ clamped_value (Num.Z_digits 10 (clamped_value w)) = clamped_value w.
Proof.
  intros w Nw Dw. destruct (parseInt_digits w Nw Dw) as [_ Hw].
  destruct (channel_written_spec (clamped_value w)) as (_ & T & X & N & V);
    [unfold clamped_value; lia|].
  repeat split; auto.
  - apply Z_digits_digits.
  - unfold clamped_value at 1. rewrite V. unfold clamped_value. lia.
Qed.

(** X7. For a token [rgb(r g b)] whose channels are runs of digits of
    any length, separated by commas or white space: with format rgb and CSS
    syntax it is replaced by [rgb(R, G, B)], each channel the decimal
    digits of its value clamped at 255 (leading zeros dropped); converting
    that text again leaves it as it is; with format hex the three clamped
    values are written with two hex digits each. *)
Theorem rgb_channels_clamped_at_255 :
  forall (M : MathLib) (r s1 g s2 b : Str.t),
    r <> [] -> g <> [] -> b <> [] -> s1 <> [] -> s2 <> [] ->
    all Str.is_digit r -> all Str.is_digit g -> all Str.is_digit b ->
    all comma_or_space s1 -> all comma_or_space s2 ->
    let rgb := {| format := $"rgb"; useCssSyntax := true |} in
    let out := rgb_token (Num.Z_digits 10 (clamped_value r))
                         (Num.Z_digits 10 (clamped_value g))
                         (Num.Z_digits 10 (clamped_value b)) in
    convertCssColors M (rgb_token_with r s1 g s2 b) rgb = out
    /\ convertCssColors M out rgb = out
    /\ forall css,
         convertCssColors M (rgb_token_with r s1 g s2 b)
           {| format := $"hex"; useCssSyntax := css |}
         = (if css then $"#" else [])
           ++ two_hex (clamped_value r) ++ two_hex (clamped_value g)
           ++ two_hex (clamped_value b).
Proof.
  intros M r s1 g s2 b Nr Ng Nb N1 N2 Dr Dg Db S1 S2 rgb out.
  destruct (clamped_value_written r Nr Dr) as (Tr & Xr & Zr & Wr & Vr).
  destruct (clamped_value_written g Ng Dg) as (Tg & Xg & Zg & Wg & Vg).
  destruct (clamped_value_written b Nb Db) as (Tb & Xb & Zb & Wb & Vb).
  assert (Hrgb : forall r' s1' g' s2' b',
    r' <> [] -> g' <> [] -> b' <> [] -> s1' <> [] -> s2' <> [] ->
    all Str.is_digit r' -> all Str.is_digit g' -> all Str.is_digit b' ->
    all comma_or_space s1' -> all comma_or_space s2' ->
    convertCssColors M (rgb_token_with r' s1' g' s2' b') rgb
    = rgb_token (Num.Z_digits 10 (clamped_value r'))
                (Num.Z_digits 10 (clamped_value g'))
                (Num.Z_digits 10 (clamped_value b'))).
  { intros r' s1' g' s2' b' Nr' Ng' Nb' N1' N2' Dr' Dg' Db' S1' S2'.
    rewrite convert_rgb_separated by assumption.
    destruct (clamped_value_written r' Nr' Dr') as (T1 & _).
    destruct (clamped_value_written g' Ng' Dg') as (T2 & _).
    destruct (clamped_value_written b' Nb' Db') as (T3 & _).
    unfold formatColor, rgb.
    cbn [format useCssSyntax RGB.r RGB.g RGB.b RGB.a alpha_below_1].
    vm_tests. cbv iota. rewrite T1, T2, T3. reflexivity. }
  split; [apply Hrgb; assumption|]. split.
  - unfold out, rgb_token.
    rewrite Hrgb; try assumption; try discriminate; try (repeat constructor).
    rewrite Vr, Vg, Vb. reflexivity.
  - intros css. rewrite convert_rgb_separated by assumption.
    unfold formatColor, rgbToHex.
    cbn [format useCssSyntax RGB.r RGB.g RGB.b RGB.a alpha_below_1].
    vm_tests. cbv iota. rewrite Xr, Xg, Xb. reflexivity.
Qed.

Lemma rgb_channels_clamped_at_255_witness :
  convertCssColors Math_NaN $"rgb(300 007,99999999999999999999999)"
    {| format := $"rgb"; useCssSyntax := true |}
  = $"rgb(255, 7, 255)".
Proof.
  apply (proj1 (rgb_channels_clamped_at_255 Math_NaN $"300" $" " $"007" $","
                  $"99999999999999999999999"
                  ltac:(discriminate) ltac:(discriminate) ltac:(discriminate)
                  ltac:(discriminate) ltac:(discriminate)
                  ltac:(repeat constructor) ltac:(repeat constructor)
                  ltac:(repeat constructor) ltac:(repeat constructor)
                  ltac:(repeat constructor))).
Defined.

(** ** Hues from 360 *)

Lemma SFltb_finite_mono : forall h m1 e1 m2 e2,
  (e1 < e2 \/ (e1 = e2 /\ (m1 <= m2)%positive))%Z ->
  SFltb h (S754_finite false m2 e2) = false ->
  SFltb h (S754_finite false m1 e1) = false.
Proof.
  intros h m1 e1 m2 e2 Hle H.
  destruct h as [s|s| |s m e]; try reflexivity;
    unfold SFltb, SFcompare in *.
  - discriminate H.
  - destruct s; [discriminate H|reflexivity].
  - destruct s; [discriminate H|].
    destruct (Z.compare_spec e e2) as [E2|E2|E2]; [|discriminate H|].
    + subst e. destruct (Z.compare_spec e2 e1) as [E1|E1|E1]; try reflexivity.
      * subst e1. change (PosDef.Pos.compare_cont Eq m m2) with (m ?= m2)%positive in H.
        change (PosDef.Pos.compare_cont Eq m m1) with (m ?= m1)%positive.
        destruct (Pos.compare_spec m m2) as [P2|P2|P2]; try discriminate H;
          destruct (Pos.compare_spec m m1) as [P1|P1|P1]; try reflexivity; lia.
      * lia.
    + destruct (Z.compare_spec e e1) as [E1|E1|E1]; try reflexivity; lia.
Qed.

Lemma ltb_below_360 : forall h k,
  In k hue_bounds ->
  Num.ltb h (Num.lit "360") = false -> Num.ltb h k = false.
Proof.
  intros h k Hk H. unfold Num.ltb in *.
  revert H. vm_sub (Num.lit "360"). intros H.
  unfold hue_bounds in Hk.
  destruct Hk as [<-|[<-|[<-|[<-|[<-|[<-|[]]]]]]];
    match goal with
    | |- SFltb h ?k = false => vm_sub k
    end;
    (eapply SFltb_finite_mono; [|exact H]); lia.
Qed.

(** When the hue the parser read is not below 360, no sector applies. *)
Lemma hslStringToRgb_from_360 : forall (s : Str.t) (mt : caps),
  search HSL_REGEX s = Some mt ->
  Num.ltb (Num.parseInt (group mt 1) 10) (Num.lit "360") = false ->
  exists v,
    hslStringToRgb s
    = Some (RGB.mk v v v (option_map Num.parseFloat (cap mt 4))).
Proof.
  intros s mt Hs Hh. unfold hslStringToRgb. rewrite Hs.
  assert (Hb : forall k, In k hue_bounds ->
                 Num.ltb (Num.parseInt (group mt 1) 10) k = false)
    by (intros k Hk; apply ltb_below_360; assumption).
  unfold hue_bounds in Hb.
  rewrite !Hb by (simpl; auto 10). rewrite !andb_false_r.
  eexists. reflexivity.
Qed.

Section Hues.
Local Open Scope Z_scope.

Lemma hues_not_below_360 :
  forallb (fun n => negb (Num.ltb (Num.of_Z n) (Num.lit "360"))) hues_360_511
  = true.
Proof. vm_compute. reflexivity. Qed.

Lemma of_Z_not_below_360 : forall n,
  360 <= n -> Num.ltb (Num.of_Z n) (Num.lit "360") = false.
Proof.
  intros n Hn. destruct (Z.lt_ge_cases n 512) as [Hs|Hl].
  - pose proof hues_not_below_360 as H. rewrite forallb_forall in H.
    apply negb_true_iff, H. unfold hues_360_511. apply in_map_iff.
    exists (Z.to_nat (n - 360)). split; [lia|]. apply in_seq. lia.
  - destruct n as [|p|p]; try lia.
    assert (HD : 10 <= Z.pos (digits2_pos p)).
    { pose proof (Zdigits2_bounds p) as [_ Hp].
      destruct (Z.le_gt_cases 10 (Z.pos (digits2_pos p))) as [|Hlt];
        [assumption|].
      assert (2 ^ Z.pos (digits2_pos p) <= 2 ^ 9)
        by (apply Z.pow_le_mono_r; lia).
      change (2 ^ 9) with 512 in *. lia. }
    destruct (of_Z_pos_shape p) as [E|(m & e & E & He)]; rewrite E.
    + reflexivity.
    + vm_sub (Num.lit "360"). unfold Num.ltb, SFltb. cbn [SFcompare].
      destruct (Z.compare_spec e (-44)) as [E1|E1|E1]; try reflexivity; lia.
Qed.

End Hues.

Lemma digit_or_dot_stops : forall (p : ascii -> bool) w s,
  w <> [] -> all digit_or_dot w ->
  (forall a, digit_or_dot a = true -> p a = false) ->
  stops p (w ++ s).
Proof.
  intros p [|a w] s Hne Hw Hp; [contradiction|].
  inversion Hw; subst. simpl. auto.
Qed.

Lemma digit_is_digit_or_dot : forall a,
  Str.is_digit a = true -> digit_or_dot a = true.
Proof. intros a H. unfold digit_or_dot. rewrite H. reflexivity. Qed.

Lemma dd_not_sep : forall a,
  digit_or_dot a = true ->
  comma_or_space a = false /\ comma_qmark_or_space a = false.
Proof. intros a. ascii_cases a; vm_compute; intros H; split; congruence. Qed.

(** The hsl parser on [hsl(h, s%, l%)]. *)
Lemma HSL_REGEX_plain : forall h s l,
  h <> [] -> s <> [] -> l <> [] ->
  all Str.is_digit h -> all digit_or_dot s -> all digit_or_dot l ->
  search HSL_REGEX (hsl_token h s l) = Some [(3, l); (2, s); (1, h)].
Proof.
  intros h s l Nh Ns Nl Dh Ds Dl.
  assert (Hm : match_at HSL_REGEX (hsl_token h s l)
               = Some ([], [(3, l); (2, s); (1, h)])).
  { unfold match_at, HSL_REGEX, hsl_token.
    change ($"hsl(" ++ h ++ $", " ++ s ++ $"%, " ++ l ++ $"%)")
      with ($"hsl" ++ $"(" ++ h ++ $", " ++ s ++ $"%" ++ $", " ++ l ++ $"%"
            ++ $")").
    rewrite run_seq, run_lit_here.
    rewrite run_seq, run_opt_none by reflexivity.
    rewrite run_seq, run_lit_here.
    rewrite run_seq.
    apply run_group_plus_all; [exact Nh|exact Dh|reflexivity|].
    rewrite run_seq, run_opt_none by reflexivity.
    rewrite run_seq.
    apply (run_plus_all _ _ $", "); [discriminate|repeat constructor| |].
    { apply digit_or_dot_stops; auto. intros a Ha. apply dd_not_sep, Ha. }
    rewrite run_seq.
    apply run_group_plus_all; [exact Ns|exact Ds|reflexivity|].
    rewrite run_seq. apply run_opt_some. rewrite run_lit_here.
    rewrite run_seq.
    apply (run_plus_all _ _ $", "); [discriminate|repeat constructor| |].
    { apply digit_or_dot_stops; auto. intros a Ha. apply dd_not_sep, Ha. }
    rewrite run_seq.
    apply run_group_plus_all; [exact Nl|exact Dl|reflexivity|].
    rewrite run_seq. apply run_opt_some. rewrite run_lit_here.
    reflexivity. }
  unfold hsl_token in *.
  cbn [Str.lit String.list_ascii_of_string app] in *.
  cbn [search]. rewrite Hm. reflexivity.
Qed.

(** X8. The hue of an hsl token is not wrapped.  For a token
    [hsl(h, s%, l%)] whose hue is 360 or more, and in general whenever the
    hue the parser read is not below 360, none of the six sectors applies
    and the three channels of the sample are the same number: the colour is
    a grey.  So [hsl(360, 100%, 50%)] becomes [rgb(0, 0, 0)], while
    [hsl(0, 100%, 50%)] becomes [rgb(255, 0, 0)]. *)
Theorem hsl_hue_from_360_is_grey :
  (forall (h s l : Str.t),
      h <> [] -> s <> [] -> l <> [] ->
      all Str.is_digit h -> all digit_or_dot s -> all digit_or_dot l ->
      (360 <= Num.digits_val h)%Z ->
      exists v, hslStringToRgb (hsl_token h s l) = Some (RGB.mk v v v None))
  /\ (forall (s : Str.t) (mt : caps),
        search HSL_REGEX s = Some mt ->
        Num.ltb (Num.parseInt (group mt 1) 10) (Num.lit "360") = false ->
        exists v,
          hslStringToRgb s
          = Some (RGB.mk v v v (option_map Num.parseFloat (cap mt 4))))
  /\ forall M : MathLib,
       convertCssColors M $"hsl(360, 100%, 50%)"
         {| format := $"rgb"; useCssSyntax := true |} = $"rgb(0, 0, 0)"
       /\ convertCssColors M $"hsl(0, 100%, 50%)"
            {| format := $"rgb"; useCssSyntax := true |} = $"rgb(255, 0, 0)".
Proof.
  split; [|split; [exact hslStringToRgb_from_360|split; reflexivity]].
  intros h s l Nh Ns Nl Dh Ds Dl H360.
  destruct (hslStringToRgb_from_360 (hsl_token h s l)
              [(3, l); (2, s); (1, h)]) as [v Hv].
  - apply HSL_REGEX_plain; assumption.
  - cbn [group cap Nat.eqb].
    rewrite (proj1 (parseInt_digits h Nh Dh)).
    apply of_Z_not_below_360, H360.
  - exists v. exact Hv.
Qed.

Lemma hsl_hue_from_360_is_grey_witness :
  exists v, hslStringToRgb $"hsl(400, 50%, 50%)" = Some (RGB.mk v v v None).
Proof.
  apply (proj1 hsl_hue_from_360_is_grey $"400" $"50" $"50");
    try discriminate; try (repeat constructor).
Defined.

(** ** Greys *)

Lemma SFcompare_refl : forall x,
  Num.is_nan x = false -> SFcompare x x = Some Eq.
Proof.
  intros [s|s| |s m e] H; try discriminate H; cbn.
  - reflexivity.
  - destruct s; reflexivity.
  - rewrite Z.compare_refl.
    change (PosDef.Pos.compare_cont Eq m m) with (m ?= m)%positive.
    rewrite Pos.compare_refl. destruct s; reflexivity.
Qed.

Lemma max_same : forall x, Num.is_nan x = false -> Num.max x x = x.
Proof.
  intros x H. unfold Num.max. rewrite SFcompare_refl by exact H.
  destruct (Num.sign_bit x); reflexivity.
Qed.

Lemma min_same : forall x, Num.is_nan x = false -> Num.min x x = x.
Proof.
  intros x H. unfold Num.min. rewrite SFcompare_refl by exact H.
  destruct (Num.sign_bit x); reflexivity.
Qed.

Lemma eqb_same : forall x, Num.is_nan x = false -> Num.eqb x x = true.
Proof.
  intros x H. unfold Num.eqb, SFeqb. rewrite SFcompare_refl by exact H.
  reflexivity.
Qed.

(** X9. [rgbToHsl] on a grey: for three equal channels that are a number
    (not NaN), hue and saturation are 0, lightness is the channel over 255
    (as (v/255 + v/255) / 2, times 100), and alpha is passed on. *)
Theorem grey_has_no_hue :
  forall (v : Num.t) (a : option Num.t),
    Num.is_nan v = false ->
    let hsl := rgbToHsl (RGB.mk v v v a) in
    HSL.h hsl = Num.zero /\ HSL.s hsl = Num.zero
    /\ HSL.l hsl
       = Num.mul (Num.div (Num.add (Num.div v (Num.lit "255"))
                                   (Num.div v (Num.lit "255")))
                          (Num.lit "2"))
                 (Num.lit "100")
    /\ HSL.a hsl = a.
Proof.
  intros v a Hv hsl. unfold hsl, rgbToHsl.
  assert (H : Num.is_nan (Num.div v (Num.lit "255")) = false).
  { vm_sub (Num.lit "255"). apply div_not_nan, Hv. }
  cbn [RGB.r RGB.g RGB.b RGB.a HSL.h HSL.s HSL.l HSL.a].
  rewrite !max_same, !min_same, eqb_same by exact H.
  cbn [negb]. repeat split; reflexivity.
Qed.

Lemma grey_has_no_hue_witness :
  HSL.h (rgbToHsl (RGB.mk (Num.lit "128") (Num.lit "128") (Num.lit "128")
                          None)) = Num.zero.
Proof.
  apply (grey_has_no_hue (Num.lit "128") None). reflexivity.
Defined.

Lemma run_star_all : forall p (k : cont) w rest c st,
  all p w -> stops p rest -> k rest c = Some st ->
  run (Star p) k (w ++ rest) c = Some st.
Proof.
  intros p k w rest c st Hw Hr Hk. unfold Star. cbn [run].
  apply rep_greedy_all; auto. lia.
Qed.

(** The oklch parser on [oklch(L C H)], with or without [%] after the
    lightness. *)
Lemma OKLCH_REGEX_plain : forall (pct : bool) l c h,
  l <> [] -> c <> [] -> h <> [] ->
  all digit_or_dot l -> all digit_or_dot c -> all digit_or_dot h ->
  search OKLCH_REGEX (oklch_token pct l c h)
  = Some [(3, h); (2, c); (1, l)].
Proof.
  intros pct l c h Nl Nc Nh Dl Dc Dh.
  assert (Hm : match_at OKLCH_REGEX (oklch_token pct l c h)
               = Some ([], [(3, h); (2, c); (1, l)])).
  { unfold match_at, OKLCH_REGEX, oklch_token.
    rewrite run_seq, run_lit_here.
    rewrite run_seq.
    assert (Hl0 : stops Str.is_space
                    (l ++ (if pct then $"%" else []) ++ $" " ++ c ++ $" " ++ h
                     ++ $")")).
    { destruct l as [|a l]; [contradiction|]. inversion Dl; subst. simpl.
      revert H1. clear. ascii_cases a; vm_compute; congruence. }
    apply (run_star_all _ _ []); [constructor|exact Hl0|].
    rewrite run_seq.
    apply run_group_plus_all;
      [exact Nl|exact Dl|destruct pct; reflexivity|].
    assert (Hrest :
      run (Plus Str.is_space -:- Grp 2 (Plus digit_or_dot)
           -:- Plus Str.is_space -:- Grp 3 (Plus digit_or_dot)
           -:- Opt (Lit $"deg")
           -:- Opt (Star Str.is_space -:- Lit $"/" -:- Star Str.is_space
                    -:- Grp 4 (Plus digit_or_dot -:- Opt (Lit $"%")))
           -:- Star Str.is_space -:- Lit $")") accept
          ($" " ++ c ++ $" " ++ h ++ $")") [(1, l)]
      = Some ([], [(3, h); (2, c); (1, l)])).
    { assert (Hd : forall w s, w <> [] -> all digit_or_dot w ->
                     stops Str.is_space (w ++ s)).
      { intros [|a w] s Hne Hw; [contradiction|]. inversion Hw; subst. simpl.
        revert H1. clear. ascii_cases a; vm_compute; congruence. }
      rewrite run_seq.
      apply (run_plus_all _ _ $" "); [discriminate|repeat constructor|auto|].
      rewrite run_seq. apply run_group_plus_all; auto; [reflexivity|].
      rewrite run_seq.
      apply (run_plus_all _ _ $" "); [discriminate|repeat constructor|auto|].
      rewrite run_seq. apply run_group_plus_all; auto; reflexivity. }
    rewrite run_seq. destruct pct.
    - apply run_opt_some. rewrite run_lit_here. exact Hrest.
    - rewrite run_opt_none by reflexivity. exact Hrest. }
  unfold oklch_token in *.
  destruct pct; cbn [Str.lit String.list_ascii_of_string app] in *;
    cbn [search]; rewrite Hm; reflexivity.
Qed.

Lemma convertToken_same_sample : forall M options m1 m2 rgb,
  known_format (format options) ->
  sampleForFormatter M m1 = Some rgb -> sampleForFormatter M m2 = Some rgb ->
  convertToken M options m1 = convertToken M options m2.
Proof.
  intros M options m1 m2 rgb Hk E1 E2. unfold convertToken, convertBody.
  rewrite E1, E2. rewrite (formatColor_known_match M options rgb m1 m2 Hk).
  destruct (formatColor_total M options rgb m2) as [t Ht].
  rewrite Ht. reflexivity.
Qed.

Lemma digit_or_dot_lower : forall w,
  all digit_or_dot w -> Str.toLowerCase w = w.
Proof.
  intros w H. unfold Str.toLowerCase. induction H as [|a w Ha Hw IH];
    [reflexivity|].
  cbn [map]. rewrite IH. f_equal.
  revert Ha. ascii_cases a; vm_compute; congruence.
Qed.

Lemma digit_or_dot_not_rparen : forall a,
  digit_or_dot a = true -> not_rparen a = true.
Proof. intros a. ascii_cases a; vm_compute; congruence. Qed.

Section OklchTokens.
Variable M : MathLib.
Variables l c h : Str.t.
Hypothesis Nl : l <> [].
Hypothesis Nc : c <> [].
Hypothesis Nh : h <> [].
Hypothesis Dl : all digit_or_dot l.
Hypothesis Dc : all digit_or_dot c.
Hypothesis Dh : all digit_or_dot h.

Lemma oklch_plain_cleaned : forall pct,
  Str.trim (Str.toLowerCase (oklch_token pct l c h)) = oklch_token pct l c h.
Proof.
  intros pct. unfold oklch_token.
  assert (E : Str.toLowerCase
                ($"oklch(" ++ l ++ (if pct then $"%" else []) ++ $" " ++ c
                 ++ $" " ++ h ++ $")")
              = $"oklch(" ++ l ++ (if pct then $"%" else []) ++ $" " ++ c
                ++ $" " ++ h ++ $")").
  { unfold Str.toLowerCase. rewrite !map_app.
    fold (Str.toLowerCase l). fold (Str.toLowerCase c).
    fold (Str.toLowerCase h).
    rewrite (digit_or_dot_lower l Dl), (digit_or_dot_lower c Dc),
      (digit_or_dot_lower h Dh).
    destruct pct; reflexivity. }
  rewrite E.
  replace ($"oklch(" ++ l ++ (if pct then $"%" else []) ++ $" " ++ c ++ $" "
           ++ h ++ $")")
    with ("o"%char :: ($"klch(" ++ l ++ (if pct then $"%" else []) ++ $" "
                       ++ c ++ $" " ++ h) ++ [")"%char]).
  - apply trim_id; reflexivity.
  - rewrite <- !app_assoc. reflexivity.
Qed.

Lemma scan_oklch_plain : forall pct,
  scan COLOR_REGEX (oklch_token pct l c h) = [Token (oklch_token pct l c h)].
Proof.
  intros pct.
  assert (Hbody : all not_rparen
            (l ++ (if pct then $"%" else []) ++ $" " ++ c ++ $" " ++ h)).
  { assert (Hd : forall w, all digit_or_dot w -> all not_rparen w)
      by (intros w; apply all_impl, digit_or_dot_not_rparen).
    unfold all in *. repeat (apply Forall_app; split); auto;
      destruct pct; repeat constructor. }
  assert (Hm : exists cs, match_at COLOR_REGEX (oklch_token pct l c h) = Some ([], cs)).
  { unfold match_at, COLOR_REGEX, oklch_token.
    rewrite run_alt_none by reflexivity.
    rewrite run_alt_none by reflexivity.
    rewrite run_alt_none by reflexivity.
    eexists. rewrite run_group.
    rewrite run_seq, run_lit_here.
    rewrite run_seq.
    replace (l ++ (if pct then $"%" else []) ++ $" " ++ c ++ $" " ++ h ++ $")")
      with ((l ++ (if pct then $"%" else []) ++ $" " ++ c ++ $" " ++ h)
            ++ $")")
      by (rewrite <- !app_assoc; reflexivity).
    apply run_plus_all; auto.
    - destruct l; [contradiction|discriminate].
    - reflexivity.
    - reflexivity. }
  destruct Hm as [cs Hm].
  apply (scan_single _ _ cs); [discriminate|exact Hm|reflexivity].
Qed.

Lemma oklch_plain_sample : forall pct,
  sampleForFormatter M (oklch_token pct l c h)
  = option_map clampRgb (oklchStringToRgb M (oklch_token pct l c h)).
Proof.
  intros pct. unfold sampleForFormatter. rewrite oklch_plain_cleaned.
  reflexivity.
Qed.

End OklchTokens.

(** X10. The [%] after the lightness of an oklch token is optional and
    changes nothing: [oklch(l% c h)] and [oklch(l c h)] parse to the same
    sample (the lightness is divided by 100 in both), and with one of the
    four formats they are converted to the same text. *)
Theorem oklch_lightness_percent_optional :
  forall (M : MathLib) (l c h : Str.t),
    l <> [] -> c <> [] -> h <> [] ->
    all digit_or_dot l -> all digit_or_dot c -> all digit_or_dot h ->
    oklchStringToRgb M (oklch_token true l c h)
    = oklchStringToRgb M (oklch_token false l c h)
    /\ oklchStringToRgb M (oklch_token true l c h) <> None
    /\ forall options,
         known_format (format options) ->
         convertCssColors M (oklch_token true l c h) options
         = convertCssColors M (oklch_token false l c h) options.
Proof.
  intros M l c h Nl Nc Nh Dl Dc Dh.
  assert (E : forall pct,
    exists rgb, oklchStringToRgb M (oklch_token pct l c h) = Some rgb
                /\ oklchStringToRgb M (oklch_token false l c h) = Some rgb).
  { intros pct. unfold oklchStringToRgb.
    rewrite (OKLCH_REGEX_plain pct), (OKLCH_REGEX_plain false) by assumption.
    eexists. split; reflexivity. }
  destruct (E true) as (rgb & E1 & E2).
  split; [congruence|]. split; [congruence|].
  intros options Hk.
  rewrite !convertCssColors_pieces, !scan_oklch_plain by assumption.
  cbn [map concat piece_out]. rewrite !app_nil_r.
  apply (convertToken_same_sample M options _ _ (clampRgb rgb) Hk).
  - rewrite oklch_plain_sample, E1 by assumption. reflexivity.
  - rewrite oklch_plain_sample, E2 by assumption. reflexivity.
Qed.

Lemma oklch_lightness_percent_optional_witness :
  oklchStringToRgb Math_NaN $"oklch(59.69% 0.154 292.34)"
  = oklchStringToRgb Math_NaN $"oklch(59.69 0.154 292.34)".
Proof.
  apply (oklch_lightness_percent_optional Math_NaN $"59.69" $"0.154"
           $"292.34"); try discriminate; repeat constructor.
Defined.

Lemma split_length : forall sep s,
  length (split sep s) = S (count_occ ascii_dec s sep).
Proof.
  intros sep. induction s as [|a s IH]; [reflexivity|].
  cbn [split count_occ].
  destruct (Ascii.eqb a sep) eqn:E.
  - apply Ascii.eqb_eq in E. subst a.
    destruct (ascii_dec sep sep); [|contradiction]. simpl. rewrite IH.
    reflexivity.
  - apply Ascii.eqb_neq in E.
    destruct (ascii_dec a sep); [contradiction|].
    rewrite <- IH. destruct (split sep s); [discriminate IH|reflexivity].
Qed.

Lemma count_occ_none : forall (sep : ascii) (w : Str.t),
  ~ In sep w -> count_occ ascii_dec w sep = 0.
Proof. intros sep w H. apply count_occ_not_In. exact H. Qed.

Lemma join_count : forall (sep : ascii) (xs : list Str.t),
  Forall (fun x => ~ In sep x) xs ->
  count_occ ascii_dec (join [sep] xs) sep = pred (length xs).
Proof.
  intros sep xs H. induction H as [|x xs Hx Hxs IH]; [reflexivity|].
  destruct xs as [|y ys].
  - simpl. apply count_occ_none, Hx.
  - change (join [sep] (x :: y :: ys)) with (x ++ [sep] ++ join [sep] (y :: ys)).
    rewrite !count_occ_app, IH, (count_occ_none sep x Hx).
    simpl. destruct (ascii_dec sep sep); [reflexivity|contradiction].
Qed.

Lemma number_char_not_newline : forall w,
  all number_char w -> ~ In newline w.
Proof.
  intros w H Hin. unfold all in H. rewrite Forall_forall in H.
  apply H in Hin. vm_compute in Hin. discriminate Hin.
Qed.

(** X12. The gutter of the editor.  [lineCount] is one more than the
    number of line feeds in the value (at least 1, so [Math.max] never
    changes it), and the text of line numbers has exactly [lineCount]
    lines. *)
Theorem line_numbers_match_lines :
  forall value : Str.t,
    lineCount value = S (count_occ ascii_dec value newline)
    /\ length (split newline (lineNumbers (lineCount value)))
       = lineCount value.
Proof.
  intros value.
  assert (E : lineCount value = S (count_occ ascii_dec value newline)).
  { unfold lineCount. rewrite split_length. lia. }
  split; [exact E|].
  rewrite split_length. unfold lineNumbers. rewrite join_count.
  - rewrite length_map, length_seq. rewrite E. reflexivity.
  - apply Forall_forall. intros x Hx. apply in_map_iff in Hx.
    destruct Hx as (i & <- & _).
    apply number_char_not_newline, toString_chars.
Qed.

(** ** The highlight layer *)

Lemma substring_prefix : forall (pre rest : Str.t) last n,
  last <= length pre ->
  Str.substring last (length pre + n) (pre ++ rest)
  = skipn last pre ++ firstn n rest.
Proof.
  intros pre rest last n H. unfold Str.substring.
  rewrite skipn_app.
  replace (last - length pre) with 0 by lia. cbn [skipn].
  rewrite firstn_app, length_skipn.
  replace (length pre + n - last - (length pre - last)) with n by lia.
  rewrite firstn_all2 by (rewrite length_skipn; lia). reflexivity.
Qed.

Lemma substring_upto : forall (pre rest : Str.t) last,
  last <= length pre ->
  Str.substring last (length pre) (pre ++ rest) = skipn last pre.
Proof.
  intros pre rest last H.
  rewrite <- (Nat.add_0_r (length pre)) at 1.
  rewrite substring_prefix by exact H. apply app_nil_r.
Qed.

Lemma match_positions_tokens : forall ps i,
  map snd (match_positions i ps) = tokens ps.
Proof.
  induction ps as [|[a|m] ps IH]; intros i; cbn [match_positions map tokens].
  - reflexivity.
  - apply IH.
  - cbn [snd]. f_equal. apply IH.
Qed.

Lemma span_labels_app : forall ps1 ps2,
  span_labels (ps1 ++ ps2) = span_labels ps1 ++ span_labels ps2.
Proof.
  induction ps1 as [|[t|i c k] ps1 IH]; intros ps2; cbn; rewrite ?IH;
    reflexivity.
Qed.

Section Highlight.

Variable value : Str.t.
Variable f : Str.t -> Str.t.

Lemma highlight_fold : forall ps pre parts last k parts' last' k',
  value = pre ++ concat (map piece_src ps) ->
  last <= length pre ->
  fold_left (highlight_step value) (match_positions (length pre) ps)
            (parts, last, k) = (parts', last', k') ->
  concat (map (part_out f) parts') ++ skipn last' value
  = concat (map (part_out f) parts) ++ skipn last pre
    ++ concat (map (piece_out f) ps)
  /\ span_labels parts'
     = span_labels parts ++ combine (tokens ps) (seq k (length (tokens ps))).
Proof.
  induction ps as [|[a|m] ps IH];
    intros pre parts last k parts' last' k' Hv Hl Hf.
  - cbn in Hf. injection Hf as <- <- <-. cbn [map concat] in *.
    rewrite app_nil_r in Hv. subst value. split.
    + rewrite app_nil_r. reflexivity.
    + cbn. rewrite app_nil_r. reflexivity.
  - cbn [match_positions] in Hf.
    assert (Hv' : value = (pre ++ [a]) ++ concat (map piece_src ps)).
    { rewrite Hv. cbn [map concat piece_src]. rewrite <- app_assoc.
      reflexivity. }
    replace (S (length pre)) with (length (pre ++ [a])) in Hf
      by (rewrite length_app; simpl; lia).
    destruct (IH (pre ++ [a]) parts last k parts' last' k' Hv') as [H1 H2];
      [rewrite length_app; lia|exact Hf|].
    split.
    + rewrite H1. cbn [map concat piece_out].
      rewrite skipn_app. replace (last - length pre) with 0 by lia.
      cbn [skipn]. rewrite <- !app_assoc. reflexivity.
    + exact H2.
  - cbn [match_positions fold_left] in Hf.
    assert (Hv' : value = (pre ++ m) ++ concat (map piece_src ps)).
    { rewrite Hv. cbn [map concat piece_src]. rewrite <- app_assoc.
      reflexivity. }
    replace (length pre + length m) with (length (pre ++ m)) in Hf
      by (rewrite length_app; reflexivity).
    unfold highlight_step at 2 in Hf.
    set (parts1 := if last <? length pre
                   then parts
                        ++ [Plain (Str.substring last (length pre) value)]
                   else parts) in Hf.
    assert (E1 : concat (map (part_out f) parts1)
                 = concat (map (part_out f) parts) ++ skipn last pre).
    { unfold parts1. destruct (last <? length pre) eqn:El.
      - rewrite map_app, concat_app. cbn [map concat part_out].
        rewrite app_nil_r. rewrite Hv at 1.
        rewrite substring_upto by exact Hl. reflexivity.
      - apply Nat.ltb_ge in El.
        rewrite skipn_all2 by lia. rewrite app_nil_r. reflexivity. }
    assert (E2 : span_labels parts1 = span_labels parts).
    { unfold parts1. destruct (last <? length pre); [|reflexivity].
      rewrite span_labels_app. apply app_nil_r. }
    rewrite <- (length_app pre m) in Hf.
    destruct (IH (pre ++ m) (parts1 ++ [Span (length pre) m k])
                (length (pre ++ m)) (S k) parts' last' k' Hv')
      as [H1 H2]; [lia|exact Hf|].
    split.
    + rewrite H1. rewrite map_app, concat_app, E1.
      cbn [map concat part_out piece_out].
      rewrite skipn_all, app_nil_r. cbn [app].
      rewrite <- !app_assoc. reflexivity.
    + rewrite H2, span_labels_app, E2.
      cbn [span_labels tokens length seq combine].
      rewrite <- app_assoc. reflexivity.
Qed.

End Highlight.

Lemma matchGlobal_tokens : forall r s, matchGlobal r s = tokens (scan r s).
Proof. intros r s. apply match_positions_tokens. Qed.

(** X11. The highlight layer of the editor.  Without highlighting the
    content is the value.  With it, for a value that is not empty, the
    parts are a list whose texts, put together, are the value; replacing
    the colour of each span by its conversion gives the text
    [convertCssColors] returns; and the arguments the spans hand to their
    hover handlers are the matches of [value.match(COLOR_REGEX)], in order,
    with their positions 0, 1, 2, ... in that list. *)
Theorem highlight_parts_are_the_scan :
  forall value : Str.t,
    value <> [] ->
    highlightContent value false = Raw value
    /\ exists parts,
         highlightContent value true = Parts parts
         /\ concat (map part_text parts) = value
         /\ (forall (M : MathLib) (options : ConvertOptions),
               concat (map (part_out (convertToken M options)) parts)
               = convertCssColors M value options)
         /\ span_labels parts
            = combine (matchGlobal COLOR_REGEX value)
                      (seq 0 (length (matchGlobal COLOR_REGEX value))).
Proof.
  intros value Hne.
  split; [destruct value; [contradiction|reflexivity]|].
  destruct (fold_left (highlight_step value) (matchAll COLOR_REGEX value)
                      ([], 0, 0)) as [[parts' last'] k'] eqn:Hf.
  exists (if last' <? length value
          then parts' ++ [Plain (skipn last' value)] else parts').
  split.
  { unfold highlightContent. destruct value; [contradiction|].
    cbn [negb]. rewrite Hf. reflexivity. }
  assert (Hall : forall f,
    concat (map (part_out f)
              (if last' <? length value
               then parts' ++ [Plain (skipn last' value)] else parts'))
    = replace_all COLOR_REGEX f value
    /\ span_labels (if last' <? length value
                    then parts' ++ [Plain (skipn last' value)] else parts')
       = combine (matchGlobal COLOR_REGEX value)
                 (seq 0 (length (matchGlobal COLOR_REGEX value)))).
  { intros f.
    destruct (highlight_fold value f (scan COLOR_REGEX value) [] [] 0 0
                parts' last' k') as [H1 H2].
    - rewrite scan_src. reflexivity.
    - simpl. lia.
    - exact Hf.
    - cbn [map concat span_labels skipn app] in H1, H2.
      rewrite matchGlobal_tokens. rewrite <- H2.
      destruct (last' <? length value) eqn:El.
      + rewrite map_app, concat_app, span_labels_app.
        cbn [map concat part_out span_labels]. rewrite !app_nil_r.
        split; [exact H1|reflexivity].
      + apply Nat.ltb_ge in El. rewrite skipn_all2 in H1 by exact El.
        rewrite app_nil_r in H1. split; [exact H1|reflexivity]. }
  split; [|split].
  - unfold part_text. rewrite (proj1 (Hall (fun color => color))).
    apply replace_all_id. reflexivity.
  - intros M options. rewrite (proj1 (Hall (convertToken M options))).
    destruct value; [contradiction|reflexivity].
  - exact (proj2 (Hall (fun color => color))).
Qed.

Lemma highlight_parts_are_the_scan_witness :
  highlightContent $"a: #fff; b: rgb(1, 2, 3)" true
  = Parts [Plain $"a: "; Span 3 $"#fff" 0; Plain $"; b: ";
           Span 12 $"rgb(1, 2, 3)" 1]
  /\ exists parts,
       highlightContent $"a: #fff; b: rgb(1, 2, 3)" true = Parts parts
       /\ concat (map part_text parts) = $"a: #fff; b: rgb(1, 2, 3)".
Proof.
  split; [vm_compute; reflexivity|].
  destruct (proj2 (highlight_parts_are_the_scan $"a: #fff; b: rgb(1, 2, 3)"
                     ltac:(discriminate)))
    as (parts & H1 & H2 & _).
  exists parts. split; [exact H1|exact H2].
Defined.

(** ** The copy at services/colorConverter.ts on hex tokens *)

Lemma scan_hex_v1 : forall h,
  3 <= length h <= 8 -> all Str.is_hex_digit h ->
  scan colorRegex ("#"%char :: h) = [Token ("#"%char :: h)].
Proof.
  intros h Hlen Hh.
  assert (Hm : exists c, match_at colorRegex ("#"%char :: h) = Some ([], c)).
  { unfold match_at, colorRegex.
    rewrite run_alt_none by reflexivity.
    rewrite run_alt_none by reflexivity.
    eexists. rewrite run_group.
    change ("#"%char :: h) with ($"#" ++ h).
    rewrite run_seq, run_lit_here. cbn [run].
    rewrite <- (app_nil_r h) at 1.
    apply rep_greedy_all; auto.
    - exact I.
    - lia.
    - lia.
    - unfold accept. reflexivity. }
  destruct Hm as [c Hm].
  apply (scan_single _ _ c); [discriminate|exact Hm|reflexivity].
Qed.

Lemma v1_convertCssColors_pieces : forall M cssString options,
  V1.convertCssColors M cssString options
  = concat (map (piece_out (V1.convertToken M options))
                (scan colorRegex cssString)).
Proof. intros M [|a s] options; reflexivity. Qed.

Lemma v1_hexToRgb_length : forall ds,
  V1.hexToRgb ("#"%char :: ds) = None <-> ~ In (length ds) [3; 6].
Proof.
  intros ds.
  destruct ds as [|c1 [|c2 [|c3 [|c4 [|c5 [|c6 [|c7 ds]]]]]]];
    cbn; split; intros H; try reflexivity; try discriminate H;
    try (intros [E|[E|[]]]; discriminate E);
    try (exfalso; apply H; auto 10).
Qed.

(** X13. The copy of the converter at services/colorConverter.ts knows no
    alpha: its [hexToRgb] reads three or six digits only.  A hex token of
    four, five, seven or eight digits is matched by its scanning pattern
    and returned as it is, for every format and syntax style. *)
Theorem services_copy_leaves_alpha_hex :
  forall (M : MathLib) (options : ConvertOptions) (h : Str.t),
    all Str.is_hex_digit h ->
    In (length h) [4; 5; 7; 8] ->
    V1.hexToRgb ("#"%char :: Str.toLowerCase h) = None
    /\ scan colorRegex ("#"%char :: h) = [Token ("#"%char :: h)]
    /\ V1.convertCssColors M ("#"%char :: h) options = "#"%char :: h.
Proof.
  intros M options h Hh Hlen.
  assert (Hn : V1.hexToRgb ("#"%char :: Str.toLowerCase h) = None).
  { apply v1_hexToRgb_length. unfold Str.toLowerCase. rewrite length_map.
    simpl in Hlen. intros [E|[E|[]]]; lia. }
  assert (Hs : scan colorRegex ("#"%char :: h) = [Token ("#"%char :: h)]).
  { apply scan_hex_v1; [|exact Hh]. simpl in Hlen. lia. }
  split; [exact Hn|]. split; [exact Hs|].
  rewrite v1_convertCssColors_pieces, Hs. cbn [map concat piece_out].
  rewrite app_nil_r.
  unfold V1.convertToken, V1.convertBody, V1.sampleForFormatter.
  rewrite hex_token_cleaned by exact Hh.
  change (V1.parseToken ("#"%char :: Str.toLowerCase h))
    with (V1.hexToRgb ("#"%char :: Str.toLowerCase h)).
  rewrite Hn. reflexivity.
Qed.

Lemma services_copy_leaves_alpha_hex_witness :
  V1.convertCssColors Math_NaN $"#fff8"
    {| format := $"rgb"; useCssSyntax := true |} = $"#fff8"
  /\ convertCssColors Math_NaN $"#fff8"
       {| format := $"rgb"; useCssSyntax := true |}
     = $"rgba(255, 255, 255, 0.53)".
Proof.
  split; [|vm_compute; reflexivity].
  apply (services_copy_leaves_alpha_hex Math_NaN
           {| format := $"rgb"; useCssSyntax := true |} $"fff8").
  - repeat constructor.
  - simpl. auto.
Defined.

(** ** The two readings of a hex token agree *)

Section HexReadings.

Local Open Scope Z_scope.

Lemma ToInt32_of_Z : forall n, 0 <= n < 2 ^ 31 -> ToInt32 (Num.of_Z n) = n.
Proof.
  intros n Hn. destruct n as [|p|p]; try lia; [reflexivity|].
  assert (H31 : 2 ^ 31 < 2 ^ 53) by (apply Z.pow_lt_mono_r; lia).
  destruct (of_Z_exact p) as (m & e & E & He & Hm); [lia|].
  rewrite E. unfold ToInt32.
  assert (Ht : (if 0 <=? e then Z.pos m * 2 ^ e else Z.pos m / 2 ^ (- e))
               = Z.pos p).
  { destruct (Z.leb_spec 0 e) as [H0|H0].
    - assert (e = 0) by lia. subst e. simpl in Hm. lia.
    - rewrite Hm. apply Z.div_mul.
      assert (0 < 2 ^ (- e)) by (apply Z.pow_pos_nonneg; lia). lia. }
  rewrite Ht.
  assert (H32 : 2 ^ 31 < 2 ^ 32) by (apply Z.pow_lt_mono_r; lia).
  rewrite Z.mod_small by lia.
  destruct (Z.ltb_spec (Z.pos p) (2 ^ 31)); lia.
Qed.

Lemma hex_digit_of : forall a,
  Str.is_hex_digit a = true ->
  exists d, Num.digit_of 16 a = Some d /\ 0 <= d < 16.
Proof.
  intros a. ascii_cases a; intros H; try discriminate H;
    eexists; (split; [vm_compute; reflexivity|lia]).
Qed.

Lemma hex_start : forall a r,
  Str.is_hex_digit a = true ->
  Num.split_sign (Str.trimStart (a :: r)) = (false, a :: r).
Proof.
  intros a r. ascii_cases a; intros H; try discriminate H; reflexivity.
Qed.

Lemma parseInt16_hex : forall a r,
  Str.is_hex_digit a = true -> all Str.is_hex_digit r ->
  Num.parseInt (a :: r) 16
  = match Num.digits_prefix 16 (a :: r) None with
    | None => Num.nan
    | Some n => Num.of_Z n
    end.
Proof.
  intros a r Ha Hr. unfold Num.parseInt.
  rewrite hex_start by exact Ha.
  change (16 =? 16) with true. cbv iota.
  match goal with
  | |- context [Num.digits_prefix 16 ?s None] =>
    assert (E : s = a :: r)
  end.
  { destruct r as [|b r].
    - revert Ha. ascii_cases a; intros H; try discriminate H; reflexivity.
    - inversion Hr as [|? ? Hb _]; subst. revert Ha.
      ascii_cases a; intros H; try discriminate H; try reflexivity.
      revert Hb. ascii_cases b; intros H'; try discriminate H'; reflexivity. }
  rewrite E.
  destruct (Num.digits_prefix 16 (a :: r) None) as [n|]; [|reflexivity].
  destruct (Z.eqb_spec n 0) as [->|]; reflexivity.
Qed.

Lemma byte_extraction : forall d1 d2 d3 d4 d5 d6,
  0 <= d1 < 16 -> 0 <= d2 < 16 -> 0 <= d3 < 16 ->
  0 <= d4 < 16 -> 0 <= d5 < 16 -> 0 <= d6 < 16 ->
  let N := 16 * (16 * (16 * (16 * (16 * (16 * 0 + d1) + d2) + d3) + d4) + d5)
           + d6 in
  0 <= N < 2 ^ 24
  /\ Z.land (Z.shiftr N 16) 255 = 16 * (16 * 0 + d1) + d2
  /\ Z.land (Z.shiftr N 8) 255 = 16 * (16 * 0 + d3) + d4
  /\ Z.land N 255 = 16 * (16 * 0 + d5) + d6.
Proof.
  intros d1 d2 d3 d4 d5 d6 H1 H2 H3 H4 H5 H6 N.
  change 255 with (Z.ones 8).
  rewrite !Z.land_ones, !Z.shiftr_div_pow2 by lia.
  change (2 ^ 24) with 16777216. change (2 ^ 16) with 65536.
  change (2 ^ 8) with 256.
  unfold N. repeat split; try lia.
  - pose proof (Z.div_mod N 65536 ltac:(lia)).
    pose proof (Z.mod_pos_bound N 65536 ltac:(lia)).
    unfold N in *.
    assert (E : (16 * (16 * (16 * (16 * (16 * (16 * 0 + d1) + d2) + d3) + d4)
                       + d5) + d6) / 65536 = 16 * d1 + d2).
    { symmetry. apply Z.div_unique with (4096 * d3 + 256 * d4 + 16 * d5 + d6);
        lia. }
    rewrite E. rewrite Z.mod_small; lia.
  - assert (E : (16 * (16 * (16 * (16 * (16 * (16 * 0 + d1) + d2) + d3) + d4)
                       + d5) + d6) / 256
                = 256 * (16 * d1 + d2) + (16 * d3 + d4)).
    { symmetry. apply Z.div_unique with (16 * d5 + d6); lia. }
    rewrite E. symmetry.
    apply Z.mod_unique with (16 * d1 + d2); lia.
  - symmetry.
    apply Z.mod_unique with (256 * (16 * d1 + d2) + (16 * d3 + d4)); lia.
Qed.

Lemma hexToRgb_agree6 : forall c1 c2 c3 c4 c5 c6,
  all Str.is_hex_digit [c1; c2; c3; c4; c5; c6] ->
  V1.hexToRgb ("#"%char :: [c1; c2; c3; c4; c5; c6])
  = hexToRgb ("#"%char :: [c1; c2; c3; c4; c5; c6]).
Proof.
  intros c1 c2 c3 c4 c5 c6 H.
  assert (Hc : forall c, In c [c1; c2; c3; c4; c5; c6] ->
                         Str.is_hex_digit c = true).
  { unfold all in H. rewrite Forall_forall in H. exact H. }
  destruct (hex_digit_of c1) as (d1 & E1 & B1); [apply Hc; simpl; auto 10|].
  destruct (hex_digit_of c2) as (d2 & E2 & B2); [apply Hc; simpl; auto 10|].
  destruct (hex_digit_of c3) as (d3 & E3 & B3); [apply Hc; simpl; auto 10|].
  destruct (hex_digit_of c4) as (d4 & E4 & B4); [apply Hc; simpl; auto 10|].
  destruct (hex_digit_of c5) as (d5 & E5 & B5); [apply Hc; simpl; auto 10|].
  destruct (hex_digit_of c6) as (d6 & E6 & B6); [apply Hc; simpl; auto 10|].
  destruct (byte_extraction d1 d2 d3 d4 d5 d6 B1 B2 B3 B4 B5 B6)
    as (HN & X1 & X2 & X3).
  assert (P6 : Num.parseInt [c1; c2; c3; c4; c5; c6] 16
               = Num.of_Z (16 * (16 * (16 * (16 * (16 * (16 * 0 + d1) + d2)
                                               + d3) + d4) + d5) + d6)).
  { rewrite parseInt16_hex;
      [|apply Hc; simpl; auto 10
       |repeat constructor; apply Hc; simpl; auto 10].
    cbn [Num.digits_prefix]. rewrite E1, E2, E3, E4, E5, E6. reflexivity. }
  assert (P2 : forall a b da db,
             Str.is_hex_digit a = true -> Str.is_hex_digit b = true ->
             Num.digit_of 16 a = Some da -> Num.digit_of 16 b = Some db ->
             Num.parseInt [a; b] 16 = Num.of_Z (16 * (16 * 0 + da) + db)).
  { intros a b da db Ha Hb Ea Eb.
    rewrite parseInt16_hex; [|exact Ha|repeat constructor; exact Hb].
    cbn [Num.digits_prefix]. rewrite Ea, Eb. reflexivity. }
  assert (S16 : forall k, 0 <= k ->
             0 <= Z.shiftr (16 * (16 * (16 * (16 * (16 * (16 * 0 + d1) + d2)
                                                + d3) + d4) + d5) + d6) k
             < 2 ^ 31).
  { intros k Hk. rewrite Z.shiftr_div_pow2 by exact Hk.
    assert (0 < 2 ^ k) by (apply Z.pow_pos_nonneg; lia).
    assert (2 ^ 24 < 2 ^ 31) by (apply Z.pow_lt_mono_r; lia).
    split; [apply Z.div_pos; lia|].
    apply Z.le_lt_trans with
      (16 * (16 * (16 * (16 * (16 * (16 * 0 + d1) + d2) + d3) + d4) + d5)
       + d6); [|lia].
    apply Z.div_le_upper_bound; [lia|]. nia. }
  assert (T255 : ToInt32 (Num.lit "255") = 255) by reflexivity.
  assert (H31 : 2 ^ 24 < 2 ^ 31) by (apply Z.pow_lt_mono_r; lia).
  transitivity
    (Some (RGB.mk
       (bit_and (shift_right (Num.parseInt [c1; c2; c3; c4; c5; c6] 16) 16)
                (Num.lit "255"))
       (bit_and (shift_right (Num.parseInt [c1; c2; c3; c4; c5; c6] 16) 8)
                (Num.lit "255"))
       (bit_and (Num.parseInt [c1; c2; c3; c4; c5; c6] 16) (Num.lit "255"))
       None)); [reflexivity|].
  transitivity
    (Some (RGB.mk (Num.parseInt [c1; c2] 16) (Num.parseInt [c3; c4] 16)
                  (Num.parseInt [c5; c6] 16) None)); [|reflexivity].
  rewrite P6.
  rewrite (P2 c1 c2 d1 d2), (P2 c3 c4 d3 d4), (P2 c5 c6 d5 d6)
    by (assumption || (apply Hc; simpl; auto 10)).
  unfold bit_and, shift_right.
  rewrite T255.
  rewrite (ToInt32_of_Z (16 * (16 * (16 * (16 * (16 * (16 * 0 + d1) + d2)
                                           + d3) + d4) + d5) + d6)) by lia.
  rewrite !ToInt32_of_Z by (apply S16; lia).
  rewrite X1, X2, X3. reflexivity.
Qed.

End HexReadings.

Lemma lower_hex_digit : forall a,
  Str.is_hex_digit a = true -> Str.is_hex_digit (Str.lower_char a) = true.
Proof. intros a. ascii_cases a; vm_compute; congruence. Qed.

Lemma lower_hex_digits : forall h,
  all Str.is_hex_digit h -> all Str.is_hex_digit (Str.toLowerCase h).
Proof.
  intros h H. unfold Str.toLowerCase. induction H as [|a h Ha Hh IH];
    cbn [map]; constructor; [apply lower_hex_digit, Ha|exact IH].
Qed.

Lemma hexToRgb_agree : forall h,
  all Str.is_hex_digit h -> (length h = 3 \/ length h = 6)%nat ->
  V1.hexToRgb ("#"%char :: h) = hexToRgb ("#"%char :: h)
  /\ exists r g b, hexToRgb ("#"%char :: h) = Some (RGB.mk r g b None).
Proof.
  intros h Hh [Hl|Hl].
  - destruct h as [|c1 [|c2 [|c3 [|c4 h]]]]; try discriminate Hl.
    assert (H6 : all Str.is_hex_digit [c1; c1; c2; c2; c3; c3]).
    { inversion Hh as [|? ? K1 Hh2]; inversion Hh2 as [|? ? K2 Hh3];
        inversion Hh3 as [|? ? K3 Hh4]; subst.
      repeat constructor; assumption. }
    split.
    + change (V1.hexToRgb ("#"%char :: [c1; c2; c3]))
        with (V1.hexToRgb ("#"%char :: [c1; c1; c2; c2; c3; c3])).
      change (hexToRgb ("#"%char :: [c1; c2; c3]))
        with (hexToRgb ("#"%char :: [c1; c1; c2; c2; c3; c3])).
      apply hexToRgb_agree6, H6.
    + eexists _, _, _. reflexivity.
  - destruct h as [|c1 [|c2 [|c3 [|c4 [|c5 [|c6 [|c7 h]]]]]]];
      try discriminate Hl.
    split; [apply hexToRgb_agree6, Hh|].
    eexists _, _, _. reflexivity.
Qed.

Lemma v1_formatOklch_same : forall L C h css,
  V1.formatOklch (Oklch.mk L C h None) css
  = formatOklch (Oklch.mk L C h None) css.
Proof.
  intros L C h css. unfold V1.formatOklch, formatOklch.
  cbn [Oklch.L Oklch.C Oklch.h Oklch.a alpha_below_1].
  destruct (Num.toFixed (Num.mul L (Num.lit "100")) 2); [|reflexivity].
  destruct (Num.toFixed C 4); [|reflexivity].
  destruct (Num.toFixed h 2); [|reflexivity].
  destruct css; cbn [bind]; rewrite ?app_nil_r; reflexivity.
Qed.

Lemma v1_formatColor_same : forall M options r g b m,
  format options <> $"hsl" ->
  V1.formatColor M options (RGB.mk r g b None) m
  = formatColor M options (RGB.mk r g b None) m.
Proof.
  intros M [f css] r g b m Hf. cbn [format] in Hf.
  unfold V1.formatColor, formatColor. cbn [format useCssSyntax].
  destruct (Str.eqb f $"oklch"); [apply v1_formatOklch_same|].
  destruct (Str.eqb f $"hex"); [reflexivity|].
  destruct (Str.eqb f $"rgb"); [reflexivity|].
  rewrite (Str_eqb_neq f $"hsl" Hf). reflexivity.
Qed.

(** X14. On a hex token of three or six digits, the [hexToRgb] of the
    copy at services/colorConverter.ts, which reads the digits as one
    integer and takes the channels apart with [>>] and [&], gives the
    sample of the [hexToRgb] that reads two digits per channel; and for
    every format but hsl the two copies of [convertCssColors] return the
    same text. *)
Theorem services_copy_agrees_on_hex :
  forall (M : MathLib) (options : ConvertOptions) (h : Str.t),
    all Str.is_hex_digit h -> (length h = 3 \/ length h = 6)%nat ->
    V1.hexToRgb ("#"%char :: Str.toLowerCase h)
    = hexToRgb ("#"%char :: Str.toLowerCase h)
    /\ (format options <> $"hsl" ->
        V1.convertCssColors M ("#"%char :: h) options
        = convertCssColors M ("#"%char :: h) options).
Proof.
  intros M options h Hh Hlen.
  assert (Hlow : (length (Str.toLowerCase h) = 3
                  \/ length (Str.toLowerCase h) = 6)%nat).
  { unfold Str.toLowerCase. rewrite length_map. exact Hlen. }
  destruct (hexToRgb_agree (Str.toLowerCase h) (lower_hex_digits h Hh) Hlow)
    as (E & r & g & b & Es).
  split; [exact E|]. intros Hf.
  rewrite v1_convertCssColors_pieces, convertCssColors_pieces.
  rewrite scan_hex_v1, scan_hex by (assumption || lia).
  cbn [map concat piece_out]. rewrite !app_nil_r.
  unfold V1.convertToken, V1.convertBody, V1.sampleForFormatter.
  unfold convertToken, convertBody, sampleForFormatter.
  rewrite hex_token_cleaned by exact Hh.
  change (V1.parseToken ("#"%char :: Str.toLowerCase h))
    with (V1.hexToRgb ("#"%char :: Str.toLowerCase h)).
  change (parseToken M ("#"%char :: Str.toLowerCase h))
    with (hexToRgb ("#"%char :: Str.toLowerCase h)).
  rewrite E, Es. cbn [option_map].
  change (V1.clampRgb (RGB.mk r g b None))
    with (clampRgb (RGB.mk r g b None)).
  unfold clampRgb. cbn [RGB.r RGB.g RGB.b RGB.a].
  rewrite v1_formatColor_same by exact Hf. reflexivity.
Qed.

Lemma services_copy_agrees_on_hex_witness :
  V1.convertCssColors Math_NaN $"#6750A4"
    {| format := $"rgb"; useCssSyntax := true |}
  = convertCssColors Math_NaN $"#6750A4"
      {| format := $"rgb"; useCssSyntax := true |}.
Proof.
  apply (proj2 (services_copy_agrees_on_hex Math_NaN
                  {| format := $"rgb"; useCssSyntax := true |} $"6750A4"
                  ltac:(repeat constructor) (or_intror eq_refl))).
  discriminate.
Defined.

(** ** The services copy reads comma-separated arguments only *)

Lemma in_trimStart : forall (a : ascii) s, In a (Str.trimStart s) -> In a s.
Proof.
  intros a s. induction s as [|b s IH]; cbn [Str.trimStart]; [easy|].
  destruct (Str.is_space b); [|easy]. intros H. right. now apply IH.
Qed.

Lemma in_trim : forall (a : ascii) s, In a (Str.trim s) -> In a s.
Proof.
  intros a s H. unfold Str.trim in H.
  apply in_rev, in_trimStart, in_rev, in_trimStart in H. exact H.
Qed.

Lemma lower_char_comma_sharp : forall a x,
  x = ","%char \/ x = "#"%char -> Str.lower_char a = x -> a = x.
Proof.
  intros a x [-> | ->]; ascii_cases a; intros H; vm_compute in H;
    try discriminate H; reflexivity.
Qed.

Lemma in_lower_comma_sharp : forall x s,
  x = ","%char \/ x = "#"%char -> In x (Str.toLowerCase s) -> In x s.
Proof.
  intros x s Hx H. unfold Str.toLowerCase in H. apply in_map_iff in H.
  destruct H as (a & Ha & Hin).
  apply (lower_char_comma_sharp a x Hx) in Ha. now subst a.
Qed.

Lemma v1_RGB_REGEX_comma : forall w, lang V1.RGB_REGEX w -> In ","%char w.
Proof.
  intros w H. unfold V1.RGB_REGEX in H. cbn [lang] in H.
  destruct H as (u0 & v0 & -> & -> & ua & v1 & -> & _ & u2 & v2 & -> & ->
                 & d1 & v3 & -> & _ & c & v4 & -> & -> & _).
  rewrite !in_app_iff. right. right. right. right. left. now left.
Qed.

Lemma v1_HSL_REGEX_comma : forall w, lang V1.HSL_REGEX w -> In ","%char w.
Proof.
  intros w H. unfold V1.HSL_REGEX in H. cbn [lang] in H.
  destruct H as (u0 & v0 & -> & -> & ua & v1 & -> & _ & u2 & v2 & -> & ->
                 & d1 & v3 & -> & _ & c & v4 & -> & -> & _).
  rewrite !in_app_iff. right. right. right. right. left. now left.
Qed.

Lemma search_needs_comma : forall r s,
  (forall w, lang r w -> In ","%char w) ->
  ~ In ","%char s -> search r s = None.
Proof.
  intros r s Hr Hs. destruct (search r s) as [c|] eqn:E; [|reflexivity].
  apply search_sound in E. destruct E as (pre & w & post & -> & Hw).
  exfalso. apply Hs. rewrite !in_app_iff. right. left. now apply Hr.
Qed.

Lemma v1_parseToken_needs_comma : forall cleaned,
  ~ In ","%char cleaned -> ~ In "#"%char cleaned ->
  V1.parseToken cleaned = None.
Proof.
  intros s Hc Hs. unfold V1.parseToken.
  destruct (Str.startsWith s $"#") eqn:E1.
  { exfalso. apply Hs. destruct s as [|a s]; [discriminate|].
    unfold Str.startsWith in E1. change $"#" with ["#"%char] in E1.
    cbn [Str.strip_prefix] in E1.
    destruct (Ascii.eqb "#" a) eqn:Ea; [|discriminate].
    apply Ascii.eqb_eq in Ea. subst a. now left. }
  unfold V1.rgbStringToRgb, V1.hslStringToRgb.
  rewrite (search_needs_comma _ s v1_RGB_REGEX_comma Hc).
  rewrite (search_needs_comma _ s v1_HSL_REGEX_comma Hc).
  destruct (Str.startsWith s $"rgb"); [reflexivity|].
  destruct (Str.startsWith s $"hsl"); reflexivity.
Qed.

(** X15. The copy of the converter at services/colorConverter.ts reads
    comma-separated arguments only: a text that holds neither a comma nor
    [#] is returned as it is, for every format and syntax style, whatever
    [rgb(...)] and [hsl(...)] tokens it holds. *)
Theorem services_copy_needs_commas :
  forall (M : MathLib) (cssString : Str.t) (options : ConvertOptions),
    ~ In ","%char cssString -> ~ In "#"%char cssString ->
    V1.convertCssColors M cssString options = cssString.
Proof.
  intros M s options Hc Hs.
  rewrite v1_convertCssColors_pieces.
  change (replace_all colorRegex (V1.convertToken M options) s = s).
  apply replace_all_id. intros m Hm.
  unfold V1.convertToken, V1.convertBody, V1.sampleForFormatter.
  rewrite v1_parseToken_needs_comma; [reflexivity| |].
  - intros H. apply Hc. apply in_trim, in_lower_comma_sharp in H; [|now left].
    exact (scan_token_in_text _ _ _ _ Hm H).
  - intros H. apply Hs. apply in_trim, in_lower_comma_sharp in H; [|now right].
    exact (scan_token_in_text _ _ _ _ Hm H).
Qed.

Lemma services_copy_needs_commas_witness :
  V1.convertCssColors Math_NaN $"a { color: rgb(255 0 0) }"
    {| format := $"hex"; useCssSyntax := true |}
  = $"a { color: rgb(255 0 0) }"
  /\ convertCssColors Math_NaN $"a { color: rgb(255 0 0) }"
       {| format := $"hex"; useCssSyntax := true |}
     = $"a { color: #ff0000 }".
Proof.
  split; [|vm_compute; reflexivity].
  apply (services_copy_needs_commas Math_NaN $"a { color: rgb(255 0 0) }").
  - vm_compute. intuition discriminate.
  - vm_compute. intuition discriminate.
Defined.

Import Share.


(** ** Sharing the input through the URL *)

Section Sharing.

Local Open Scope N_scope.

Ltac dlia := zify; Z.to_euclidean_division_equations; lia.

Lemma within_spec (lo hi c : N) :
  within lo hi c = true <-> lo <= c <= hi.
Proof.
  unfold within. rewrite andb_true_iff, !N.leb_le. tauto.
Qed.

Lemma within_false (lo hi c : N) :
  within lo hi c = false <-> c < lo \/ hi < c.
Proof.
  unfold within. rewrite andb_false_iff, !N.leb_gt. tauto.
Qed.

Ltac bounds :=
  repeat match goal with
  | H : within _ _ _ = true |- _ => apply within_spec in H
  | H : within _ _ _ = false |- _ => apply within_false in H
  | H : (_ <? _) = true |- _ => apply N.ltb_lt in H
  | H : (_ <? _) = false |- _ => apply N.ltb_ge in H
  | H : (_ <=? _) = true |- _ => apply N.leb_le in H
  | H : (_ <=? _) = false |- _ => apply N.leb_gt in H
  | H : (_ =? _) = true |- _ => apply N.eqb_eq in H
  | H : (_ =? _) = false |- _ => apply N.eqb_neq in H
  end.

(** *** Hexadecimal digits *)

Lemma upper_hex_value (d : N) :
  d < 16 -> hex_value (upper_hex d) = Some d.
Proof.
  intros Hd. unfold upper_hex, hex_value.
  destruct (d <? 10) eqn:E.
  - destruct (within 48 57 (48 + d)) eqn:W; bounds; [f_equal; lia | lia].
  - destruct (within 48 57 (55 + d)) eqn:W; bounds; [lia|].
    destruct (within 65 70 (55 + d)) eqn:W'; bounds; [f_equal; lia | lia].
Qed.

Lemma upper_hex_not_u (d : N) : d < 16 -> (upper_hex d =? 117) = false.
Proof.
  intros Hd. apply N.eqb_neq. unfold upper_hex.
  destruct (d <? 10) eqn:E; bounds; lia.
Qed.

Lemma hex_number_percent (b : N) (rest : units) :
  b < 256 ->
  hex_number 2 0 (upper_hex (b / 16) :: upper_hex (b mod 16) :: rest) = Some b.
Proof.
  intros Hb. cbn [hex_number].
  rewrite !upper_hex_value by dlia. f_equal. dlia.
Qed.

(** *** [unescape] undoes the percent signs of [encodeURIComponent] *)

Lemma unescape_at_plain (c : N) (rest : units) :
  c <> 37 -> unescape_at 0 (c :: rest) = c :: unescape_at 0 rest.
Proof.
  intros Hc. cbn [unescape_at]. apply N.eqb_neq in Hc. now rewrite Hc.
Qed.

Lemma unescape_at_percent (b : N) (rest : units) :
  b < 256 -> unescape_at 0 (percent b ++ rest) = b :: unescape_at 0 rest.
Proof.
  intros Hb. unfold percent. cbn [app unescape_at].
  rewrite N.eqb_refl, upper_hex_not_u by dlia.
  now rewrite hex_number_percent.
Qed.

Lemma unescape_at_octets (bs : list N) (rest : units) :
  Forall (fun b => b < 256) bs ->
  unescape_at 0 (flat_map percent bs ++ rest) = bs ++ unescape_at 0 rest.
Proof.
  induction 1 as [|b bs Hb _ IH]; [reflexivity|].
  cbn [flat_map]. rewrite <- app_assoc, unescape_at_percent by exact Hb.
  now rewrite IH.
Qed.

Lemma utf8_octets_bytes (cp : N) :
  cp < 0x110000 -> Forall (fun b => b < 256) (utf8_octets cp).
Proof.
  intros Hcp. unfold utf8_octets.
  destruct (cp <? 0x80) eqn:E1; [|destruct (cp <? 0x800) eqn:E2;
    [|destruct (cp <? 0x10000) eqn:E3]]; bounds;
    repeat constructor; dlia.
Qed.

(** *** [decodeURIComponent] reads the escaped UTF-8 form *)

Lemma decode_at_plain (c : N) (rest : units) :
  c <> 37 -> decode_at 0 (c :: rest) = prepend [c] (decode_at 0 rest).
Proof.
  intros Hc. cbn [decode_at]. apply N.eqb_neq in Hc. now rewrite Hc.
Qed.

Lemma leading_ones_0 (b : N) : b < 0x80 -> leading_ones b = 0%nat.
Proof.
  intros H. unfold leading_ones. destruct (b <? 0x80) eqn:E; bounds;
    [reflexivity | lia].
Qed.

Lemma leading_ones_2 (b : N) : 0xC0 <= b < 0xE0 -> leading_ones b = 2%nat.
Proof.
  intros H. unfold leading_ones.
  repeat match goal with
         | |- context [b <? ?k] => destruct (b <? k) eqn:?
         end; bounds; try reflexivity; lia.
Qed.

Lemma leading_ones_3 (b : N) : 0xE0 <= b < 0xF0 -> leading_ones b = 3%nat.
Proof.
  intros H. unfold leading_ones.
  repeat match goal with
         | |- context [b <? ?k] => destruct (b <? k) eqn:?
         end; bounds; try reflexivity; lia.
Qed.

Lemma leading_ones_4 (b : N) : 0xF0 <= b < 0xF8 -> leading_ones b = 4%nat.
Proof.
  intros H. unfold leading_ones.
  repeat match goal with
         | |- context [b <? ?k] => destruct (b <? k) eqn:?
         end; bounds; try reflexivity; lia.
Qed.

Lemma decode_at_ascii (b : N) (rest : units) :
  b < 0x80 ->
  decode_at 0 (percent b ++ rest) = prepend [b] (decode_at 0 rest).
Proof.
  intros Hb. unfold percent. cbn [app decode_at].
  rewrite N.eqb_refl, hex_number_percent by lia.
  cbv zeta. rewrite leading_ones_0 by exact Hb. reflexivity.
Qed.

Lemma decode_at_sequence (b : N) (bs : list N) (cp : N) (rest : units) :
  b < 256 -> Forall (fun x => x < 256) bs ->
  leading_ones b = S (length bs) ->
  (1 <= length bs <= 3)%nat ->
  utf8_code_point (b :: bs) = Some cp ->
  decode_at 0 (flat_map percent (b :: bs) ++ rest)
  = prepend (UTF16EncodeCodePoint cp) (decode_at 0 rest).
Proof.
  intros Hb Hbs Hn Hlen Hcp.
  cbn [flat_map]. unfold percent at 1. cbn [app decode_at].
  rewrite N.eqb_refl, hex_number_percent by exact Hb.
  cbv zeta. rewrite Hn. cbn [skipn].
  destruct bs as [|b2 [|b3 [|b4 [|b5 bs]]]]; cbn [length] in Hlen;
    try lia.
  - inversion Hbs as [|? ? H2 _]; subst.
    cbn [Nat.eqb Nat.ltb Nat.leb orb length Nat.sub flat_map app].
    unfold percent. cbn [app continuation skipn].
    rewrite N.eqb_refl, hex_number_percent by exact H2.
    cbn [option_map]. rewrite Hcp. reflexivity.
  - inversion Hbs as [|? ? H2 Hbs']; subst.
    inversion Hbs' as [|? ? H3 _]; subst.
    cbn [Nat.eqb Nat.ltb Nat.leb orb length Nat.sub flat_map app].
    unfold percent. cbn [app continuation skipn].
    rewrite !N.eqb_refl, !hex_number_percent by assumption.
    cbn [option_map]. rewrite Hcp. reflexivity.
  - inversion Hbs as [|? ? H2 Hbs']; subst.
    inversion Hbs' as [|? ? H3 Hbs'']; subst.
    inversion Hbs'' as [|? ? H4 _]; subst.
    cbn [Nat.eqb Nat.ltb Nat.leb orb length Nat.sub flat_map app].
    unfold percent. cbn [app continuation skipn].
    rewrite !N.eqb_refl, !hex_number_percent by assumption.
    cbn [option_map]. rewrite Hcp. reflexivity.
Qed.

Lemma escapeUnescaped_ascii (c : N) :
  escapeUnescaped c = true -> c < 0x80 /\ c <> 37.
Proof.
  unfold escapeUnescaped, alphanumeric, one_of.
  let l := eval vm_compute in (chars $"@*_+-./") in
    change (chars $"@*_+-./") with l.
  cbn [existsb]. rewrite !orb_true_iff, !within_spec, !N.eqb_eq. lia.
Qed.

Lemma uriUnreserved_ascii (c : N) :
  uriUnreserved c = true -> c < 0x80 /\ c <> 37.
Proof.
  unfold uriUnreserved, alphanumeric, one_of.
  let l := eval vm_compute in (chars $"-_.!~*'()") in
    change (chars $"-_.!~*'()") with l.
  cbn [existsb]. rewrite !orb_true_iff, !within_spec, !N.eqb_eq. lia.
Qed.

Lemma escape_app (s t : units) : escape (s ++ t) = escape s ++ escape t.
Proof. unfold escape. apply flat_map_app. Qed.

Lemma escape_high (bs : list N) :
  Forall (fun b => 0x80 <= b < 256) bs -> escape bs = flat_map percent bs.
Proof.
  induction 1 as [|b bs Hb _ IH]; [reflexivity|].
  unfold escape in *. cbn [flat_map]. rewrite IH. f_equal.
  destruct (escapeUnescaped b) eqn:E.
  - apply escapeUnescaped_ascii in E. lia.
  - destruct (b <? 256) eqn:E'; bounds; [reflexivity | lia].
Qed.

(** One code unit below 128, as [escape] writes it. *)
Lemma decode_at_escaped_ascii (c : N) (rest : units) :
  c < 0x80 ->
  decode_at 0 (escape [c] ++ rest) = prepend [c] (decode_at 0 rest).
Proof.
  intros Hc. unfold escape. cbn [flat_map]. rewrite app_nil_r.
  destruct (escapeUnescaped c) eqn:E.
  - apply escapeUnescaped_ascii in E. apply decode_at_plain. tauto.
  - destruct (c <? 256) eqn:E'; bounds; [|lia].
    now apply decode_at_ascii.
Qed.

Lemma decode_at_code_point (cp : N) (rest : units) :
  cp < 0x110000 -> within 0xD800 0xDFFF cp = false ->
  decode_at 0 (escape (utf8_octets cp) ++ rest)
  = prepend (UTF16EncodeCodePoint cp) (decode_at 0 rest).
Proof.
  intros Hcp Hs. bounds. unfold utf8_octets.
  destruct (cp <? 0x80) eqn:E1; [|destruct (cp <? 0x800) eqn:E2;
    [|destruct (cp <? 0x10000) eqn:E3]]; bounds.
  - rewrite decode_at_escaped_ascii by exact E1.
    unfold UTF16EncodeCodePoint.
    destruct (cp <=? 0xFFFF) eqn:E; bounds; [reflexivity | lia].
  - rewrite escape_high by (repeat constructor; dlia).
    apply decode_at_sequence;
      [dlia | repeat constructor; dlia | apply leading_ones_2; dlia
      | cbn [length]; dlia | ].
    unfold utf8_code_point, continuation_octet.
    replace ((0xC0 + cp / 64 - 0xC0) * 64 + (0x80 + cp mod 64 - 0x80))
      with cp by dlia.
    replace (within 0x80 0xBF (0x80 + cp mod 64)) with true
      by (symmetry; apply within_spec; dlia).
    replace (0x80 <=? cp) with true by (symmetry; apply N.leb_le; dlia).
    reflexivity.
  - rewrite escape_high by (repeat constructor; dlia).
    apply decode_at_sequence;
      [dlia | repeat constructor; dlia | apply leading_ones_3; dlia
      | cbn [length]; dlia | ].
    unfold utf8_code_point, continuation_octet.
    replace ((0xE0 + cp / 4096 - 0xE0) * 4096
             + (0x80 + cp / 64 mod 64 - 0x80) * 64
             + (0x80 + cp mod 64 - 0x80))
      with cp by dlia.
    replace (within 0x80 0xBF (0x80 + cp / 64 mod 64)) with true
      by (symmetry; apply within_spec; dlia).
    replace (within 0x80 0xBF (0x80 + cp mod 64)) with true
      by (symmetry; apply within_spec; dlia).
    replace (0x800 <=? cp) with true by (symmetry; apply N.leb_le; dlia).
    replace (within 0xD800 0xDFFF cp) with false
      by (symmetry; apply within_false; dlia).
    reflexivity.
  - rewrite escape_high by (repeat constructor; dlia).
    apply decode_at_sequence;
      [dlia | repeat constructor; dlia | apply leading_ones_4; dlia
      | cbn [length]; dlia | ].
    unfold utf8_code_point, continuation_octet.
    replace ((0xF0 + cp / 262144 - 0xF0) * 262144
             + (0x80 + cp / 4096 mod 64 - 0x80) * 4096
             + (0x80 + cp / 64 mod 64 - 0x80) * 64
             + (0x80 + cp mod 64 - 0x80))
      with cp.
    2:{ rewrite !N.add_sub_swap, !N.sub_diag, !N.add_0_l by lia.
        rewrite <- !N.Div0.div_div with (b := 64) (c := 64).
        change 262144 with (64 * 64 * 64).
        rewrite <- !N.Div0.div_div. dlia. }
    replace (within 0x80 0xBF (0x80 + cp / 4096 mod 64)) with true
      by (symmetry; apply within_spec; dlia).
    replace (within 0x80 0xBF (0x80 + cp / 64 mod 64)) with true
      by (symmetry; apply within_spec; dlia).
    replace (within 0x80 0xBF (0x80 + cp mod 64)) with true
      by (symmetry; apply within_spec; dlia).
    replace (within 0x10000 0x10FFFF cp) with true
      by (symmetry; apply within_spec; dlia).
    reflexivity.
Qed.

(** *** Base64 *)

Lemma list_ind3 (P : list N -> Prop) :
  P [] -> (forall a, P [a]) -> (forall a b, P [a; b]) ->
  (forall a b c r, P r -> P (a :: b :: c :: r)) -> forall l, P l.
Proof.
  intros H0 H1 H2 H3 l.
  assert (K : P l /\ (forall a, P (a :: l)) /\ forall a b, P (a :: b :: l)).
  { induction l as [|x l (IH0 & IH1 & IH2)]; repeat split; auto. }
  apply K.
Qed.

Ltac tests :=
  repeat match goal with
         | |- context [if ?b then _ else _] => destruct b eqn:?
         end; bounds.

Lemma base64_value_char (v : N) :
  v < 64 -> base64_value (base64_char v) = Some v.
Proof.
  intros Hv. unfold base64_char. tests; unfold base64_value; tests;
    try (f_equal; lia); lia.
Qed.

Lemma base64_char_plain (v : N) :
  v < 64 ->
  ascii_whitespace (base64_char v) = false /\ base64_char v <> 61.
Proof.
  intros Hv. unfold ascii_whitespace.
  rewrite !orb_false_iff, !N.eqb_neq. unfold base64_char. tests; lia.
Qed.

Lemma base64_values_chars (vs : list N) :
  Forall (fun v => v < 64) vs ->
  base64_values (map base64_char vs) = Some vs.
Proof.
  induction 1 as [|v vs Hv _ IH]; [reflexivity|].
  cbn [map base64_values]. now rewrite base64_value_char, IH.
Qed.

Lemma sextets_small (bytes : list N) :
  Forall (fun b => b < 256) bytes ->
  Forall (fun v => v < 64) (sextets bytes).
Proof.
  induction bytes as [|a|a b|a b c r IH] using list_ind3; intros H;
    cbn [sextets].
  - constructor.
  - inversion_clear H. repeat constructor; dlia.
  - inversion_clear H as [|? ? Ha H']. inversion_clear H'.
    repeat constructor; dlia.
  - inversion_clear H as [|? ? Ha H']. inversion_clear H' as [|? ? Hb H''].
    inversion_clear H'' as [|? ? Hc Hr].
    repeat (constructor; [dlia|]). now apply IH.
Qed.

Lemma bytes_of_sextets_sextets (bytes : list N) :
  Forall (fun b => b < 256) bytes ->
  bytes_of_sextets (sextets bytes) = bytes.
Proof.
  induction bytes as [|a|a b|a b c r IH] using list_ind3; intros H;
    cbn [sextets bytes_of_sextets].
  - reflexivity.
  - inversion_clear H. f_equal. dlia.
  - inversion_clear H as [|? ? Ha H']. inversion_clear H'.
    f_equal; [dlia|]. f_equal. dlia.
  - inversion_clear H as [|? ? Ha H']. inversion_clear H' as [|? ? Hb H''].
    inversion_clear H'' as [|? ? Hc Hr].
    rewrite IH by exact Hr.
    f_equal; [dlia|]. f_equal; [dlia|]. f_equal. dlia.
Qed.

Lemma mod3_step (n : nat) : (S (S (S n)) mod 3 = n mod 3)%nat.
Proof.
  change (S (S (S n))) with (3 + n)%nat. rewrite Nat.add_comm.
  exact (Nat.Div0.mod_add n 1 3).
Qed.

Lemma mod4_step (n : nat) : (S (S (S (S n))) mod 4 = n mod 4)%nat.
Proof.
  change (S (S (S (S n)))) with (4 + n)%nat. rewrite Nat.add_comm.
  exact (Nat.Div0.mod_add n 1 4).
Qed.

(** The padding completes the groups to a multiple of four. *)
Lemma padding_cases (bytes : list N) :
  ((length (sextets bytes) mod 4 = 0)%nat /\ padding bytes = [])
  \/ ((length (sextets bytes) mod 4 = 3)%nat /\ padding bytes = [61])
  \/ ((length (sextets bytes) mod 4 = 2)%nat /\ padding bytes = [61; 61]).
Proof.
  induction bytes as [|a|a b|a b c r IH] using list_ind3.
  - left. split; reflexivity.
  - right. right. split; reflexivity.
  - right. left. split; reflexivity.
  - assert (E : padding (a :: b :: c :: r) = padding r).
    { unfold padding.
      cbn [length]. now rewrite mod3_step. }
    rewrite E. cbn [sextets length]. rewrite mod4_step. exact IH.
Qed.

Lemma filter_all {A : Type} (f : A -> bool) (l : list A) :
  Forall (fun x => f x = true) l -> filter f l = l.
Proof.
  induction 1 as [|x l Hx _ IH]; [reflexivity|].
  cbn [filter]. now rewrite Hx, IH.
Qed.

Lemma without_last_equals_snoc (d : units) :
  without_last_equals (d ++ [61]) = Some d.
Proof.
  unfold without_last_equals. rewrite rev_app_distr. cbn [rev app].
  now rewrite N.eqb_refl, rev_involutive.
Qed.

Lemma without_last_equals_none (d : units) :
  Forall (fun c => c <> 61) d -> without_last_equals d = None.
Proof.
  intros H. unfold without_last_equals.
  destruct (rev d) as [|c r] eqn:E; [reflexivity|].
  assert (Hc : In c d) by (apply in_rev; rewrite E; now left).
  rewrite Forall_forall in H. apply H, N.eqb_neq in Hc. now rewrite Hc.
Qed.

Lemma atob_encode (bytes : list N) :
  Forall (fun b => b < 256) bytes ->
  atob (forgiving_base64_encode bytes) = Done bytes.
Proof.
  intros H.
  pose proof (sextets_small bytes H) as Hs.
  assert (Hplain : Forall (fun c => negb (ascii_whitespace c) = true)
                     (map base64_char (sextets bytes))).
  { apply Forall_map. eapply Forall_impl; [|exact Hs].
    intros v Hv. cbv beta. now rewrite (proj1 (base64_char_plain v Hv)). }
  assert (Hne : Forall (fun c => c <> 61) (map base64_char (sextets bytes))).
  { apply Forall_map. eapply Forall_impl; [|exact Hs].
    intros v Hv. now apply base64_char_plain. }
  assert (Hlen : length (map base64_char (sextets bytes))
                 = length (sextets bytes)) by apply length_map.
  unfold atob, forgiving_base64_decode, forgiving_base64_encode.
  rewrite filter_all.
  2:{ apply Forall_app. split; [exact Hplain|].
      unfold padding. destruct (length bytes mod 3)%nat as [|[|[|]]];
        repeat constructor. }
  cbv zeta.
  destruct (padding_cases bytes) as [[H1 H2]|[[H1 H2]|[H1 H2]]]; rewrite H2.
  - rewrite app_nil_r, Hlen, H1. cbn [Nat.eqb].
    rewrite without_last_equals_none by exact Hne.
    rewrite Hlen, H1. cbn [Nat.eqb].
    rewrite base64_values_chars by exact Hs. cbn [option_map].
    now rewrite bytes_of_sextets_sextets.
  - replace (length (map base64_char (sextets bytes) ++ [61%N]) mod 4 =? 0)%nat
      with true
      by (symmetry; apply Nat.eqb_eq; rewrite length_app, Hlen;
          rewrite Nat.Div0.add_mod, H1; reflexivity).
    rewrite without_last_equals_snoc.
    rewrite without_last_equals_none by exact Hne.
    rewrite Hlen, H1. cbn [Nat.eqb].
    rewrite base64_values_chars by exact Hs. cbn [option_map].
    now rewrite bytes_of_sextets_sextets.
  - replace (length (map base64_char (sextets bytes) ++ [61%N; 61%N]) mod 4
             =? 0)%nat
      with true
      by (symmetry; apply Nat.eqb_eq; rewrite length_app, Hlen;
          rewrite Nat.Div0.add_mod, H1; reflexivity).
    change (map base64_char (sextets bytes) ++ [61; 61])
      with (map base64_char (sextets bytes) ++ [61] ++ [61]).
    rewrite app_assoc, !without_last_equals_snoc.
    rewrite Hlen, H1. cbn [Nat.eqb].
    rewrite base64_values_chars by exact Hs. cbn [option_map].
    now rewrite bytes_of_sextets_sextets.
Qed.

(** *** Well-formed strings *)

Lemma units_ind2 (P : units -> Prop) :
  (forall s, (forall c r, s = c :: r -> P r) ->
             (forall c d r, s = c :: d :: r -> P r) -> P s) ->
  forall s, P s.
Proof.
  intros H s.
  assert (K : P s /\ forall d r, s = d :: r -> P r).
  { induction s as [|x l [IH1 IH2]].
    - split; [apply H|]; discriminate.
    - split.
      + apply H.
        * intros c r E. injection E as _ <-. exact IH1.
        * intros c d r E. injection E as _ E. now apply (IH2 d).
      + intros d r E. injection E as _ <-. exact IH1. }
  apply K.
Qed.

Lemma UTF16Encode_unit (c : N) :
  c < 0x10000 -> UTF16EncodeCodePoint c = [c].
Proof.
  intros H. unfold UTF16EncodeCodePoint.
  destruct (c <=? 0xFFFF) eqn:E; bounds; [reflexivity | lia].
Qed.

Lemma pair_code_point_range (c d : N) :
  leading_surrogate c = true -> trailing_surrogate d = true ->
  0x10000 <= pair_code_point c d < 0x110000.
Proof.
  unfold leading_surrogate, trailing_surrogate, pair_code_point.
  intros Hc Hd. bounds. lia.
Qed.

Lemma UTF16Encode_pair (c d : N) :
  leading_surrogate c = true -> trailing_surrogate d = true ->
  UTF16EncodeCodePoint (pair_code_point c d) = [c; d].
Proof.
  intros Hc Hd. pose proof (pair_code_point_range c d Hc Hd) as R.
  unfold UTF16EncodeCodePoint.
  destruct (pair_code_point c d <=? 0xFFFF) eqn:E; bounds; [lia|].
  unfold leading_surrogate, trailing_surrogate in *. bounds.
  unfold pair_code_point.
  replace ((c - 0xD800) * 0x400 + (d - 0xDC00) + 0x10000 - 0x10000)
    with ((c - 0xD800) * 0x400 + (d - 0xDC00)) by lia.
  f_equal; [|f_equal]; dlia.
Qed.

Lemma utf8_cons (c : N) (r : units) :
  leading_surrogate c = false -> utf8 (c :: r) = utf8_octets c ++ utf8 r.
Proof. intros H. cbn [utf8]. now rewrite H. Qed.

Lemma utf8_pair (c d : N) (r : units) :
  leading_surrogate c = true ->
  utf8 (c :: d :: r) = utf8_octets (pair_code_point c d) ++ utf8 r.
Proof. intros H. cbn [utf8]. now rewrite H. Qed.

Lemma unreserved_octets (c : N) :
  uriUnreserved c = true ->
  utf8_octets c = [c] /\ leading_surrogate c = false
  /\ trailing_surrogate c = false.
Proof.
  intros H. apply uriUnreserved_ascii in H. destruct H as [H _].
  unfold utf8_octets, leading_surrogate, trailing_surrogate.
  destruct (c <? 0x80) eqn:E; bounds; [|lia].
  repeat split; [apply within_false; lia ..].
Qed.

Lemma encode_utf8 (s : units) :
  Forall (fun c => c < 0x10000) s -> well_formed s = true ->
  exists t, encodeURIComponent s = Done t
            /\ forall rest,
                 unescape_at 0 (t ++ rest) = utf8 s ++ unescape_at 0 rest.
Proof.
  induction s as [s IH1 IH2] using units_ind2. intros Hu Hw.
  destruct s as [|c r]; [exists []; split; reflexivity|].
  inversion_clear Hu as [|? ? Hc Hr].
  cbn [encodeURIComponent well_formed] in *.
  destruct (uriUnreserved c) eqn:U.
  - destruct (unreserved_octets c U) as (O & L & T).
    rewrite T, L in Hw.
    destruct (IH1 c r eq_refl Hr Hw) as (t & Et & Ht).
    exists ([c] ++ t). rewrite Et. split; [reflexivity|].
    intros rest. rewrite utf8_cons, O by exact L.
    cbn [app]. rewrite unescape_at_plain, Ht; [reflexivity|].
    now apply uriUnreserved_ascii.
  - destruct (trailing_surrogate c) eqn:T; [discriminate|].
    destruct (leading_surrogate c) eqn:L.
    + destruct r as [|d r']; [discriminate|].
      destruct (trailing_surrogate d) eqn:T'; [|discriminate].
      cbn [andb] in Hw. inversion_clear Hr as [|? ? Hd Hr'].
      destruct (IH2 c d r' eq_refl Hr' Hw) as (t & Et & Ht).
      eexists. rewrite Et. split; [reflexivity|].
      intros rest. rewrite utf8_pair by exact L.
      rewrite <- !app_assoc, unescape_at_octets, Ht; [reflexivity|].
      apply utf8_octets_bytes. now apply pair_code_point_range.
    + destruct (IH1 c r eq_refl Hr Hw) as (t & Et & Ht).
      eexists. rewrite Et. split; [reflexivity|].
      intros rest. rewrite utf8_cons by exact L.
      rewrite <- !app_assoc, unescape_at_octets, Ht; [reflexivity|].
      apply utf8_octets_bytes. lia.
Qed.

Lemma utf8_bytes (s : units) :
  Forall (fun c => c < 0x10000) s -> well_formed s = true ->
  Forall (fun b => b < 256) (utf8 s).
Proof.
  induction s as [s IH1 IH2] using units_ind2. intros Hu Hw.
  destruct s as [|c r]; [constructor|].
  inversion_clear Hu as [|? ? Hc Hr].
  cbn [well_formed] in Hw.
  destruct (trailing_surrogate c) eqn:T; [discriminate|].
  destruct (leading_surrogate c) eqn:L.
  - destruct r as [|d r']; [discriminate|].
    apply andb_true_iff in Hw. destruct Hw as [T' Hw].
    inversion_clear Hr as [|? ? Hd Hr'].
    rewrite utf8_pair by exact L. apply Forall_app. split.
    + apply utf8_octets_bytes. now apply pair_code_point_range.
    + exact (IH2 c d r' eq_refl Hr' Hw).
  - rewrite utf8_cons by exact L. apply Forall_app. split.
    + apply utf8_octets_bytes. lia.
    + exact (IH1 c r eq_refl Hr Hw).
Qed.

Lemma decode_utf8 (s : units) :
  Forall (fun c => c < 0x10000) s -> well_formed s = true ->
  decodeURIComponent (escape (utf8 s)) = Done s.
Proof.
  unfold decodeURIComponent.
  induction s as [s IH1 IH2] using units_ind2. intros Hu Hw.
  destruct s as [|c r]; [reflexivity|].
  inversion_clear Hu as [|? ? Hc Hr].
  cbn [well_formed] in Hw.
  destruct (trailing_surrogate c) eqn:T; [discriminate|].
  destruct (leading_surrogate c) eqn:L.
  - destruct r as [|d r']; [discriminate|].
    apply andb_true_iff in Hw. destruct Hw as [T' Hw].
    inversion_clear Hr as [|? ? Hd Hr'].
    pose proof (pair_code_point_range c d L T') as R.
    rewrite utf8_pair, escape_app, decode_at_code_point by
      (try exact L; try apply within_false; lia).
    rewrite (IH2 c d r' eq_refl Hr' Hw), UTF16Encode_pair by assumption.
    reflexivity.
  - rewrite utf8_cons, escape_app, decode_at_code_point.
    + rewrite (IH1 c r eq_refl Hr Hw), UTF16Encode_unit by exact Hc.
      reflexivity.
    + lia.
    + unfold leading_surrogate, trailing_surrogate in *. bounds.
      apply within_false. lia.
    + exact L.
Qed.

Lemma encode_ill_formed (s : units) :
  well_formed s = false -> encodeURIComponent s = Failed URIError.
Proof.
  induction s as [s IH1 IH2] using units_ind2. intros Hw.
  destruct s as [|c r]; [discriminate|].
  cbn [encodeURIComponent well_formed] in *.
  destruct (uriUnreserved c) eqn:U.
  - destruct (unreserved_octets c U) as (O & L & T).
    rewrite T, L in Hw. now rewrite (IH1 c r eq_refl Hw).
  - destruct (trailing_surrogate c) eqn:T; [reflexivity|].
    destruct (leading_surrogate c) eqn:L.
    + destruct r as [|d r']; [reflexivity|].
      destruct (trailing_surrogate d) eqn:T'; [|reflexivity].
      cbn [andb] in Hw. now rewrite (IH2 c d r' eq_refl Hw).
    + now rewrite (IH1 c r eq_refl Hw).
Qed.

Lemma encodeStringToBase64_utf8 (str : units) :
  Forall (fun c => c < 0x10000) str -> well_formed str = true ->
  encodeStringToBase64 str = Done (forgiving_base64_encode (utf8 str)).
Proof.
  intros Hu Hw. unfold encodeStringToBase64.
  destruct (encode_utf8 str Hu Hw) as (t & Et & Ht).
  rewrite Et. cbn [and_then]. unfold unescape, btoa.
  specialize (Ht []). rewrite app_nil_r in Ht. cbn [unescape_at] in Ht.
  rewrite app_nil_r in Ht. rewrite Ht.
  replace (forallb (fun c => c <=? 255) (utf8 str)) with true; [reflexivity|].
  symmetry. apply forallb_forall. intros b Hb.
  pose proof (utf8_bytes str Hu Hw) as B. rewrite Forall_forall in B.
  apply B in Hb. apply N.leb_le. lia.
Qed.

Lemma decode_encoded (str : units) :
  Forall (fun c => c < 0x10000) str -> well_formed str = true ->
  decodeStringFromBase64 (forgiving_base64_encode (utf8 str)) = Done str.
Proof.
  intros Hu Hw. unfold decodeStringFromBase64.
  rewrite atob_encode by now apply utf8_bytes.
  cbn [and_then]. now apply decode_utf8.
Qed.

Lemma utf8_octets_not_nil (cp : N) : utf8_octets cp <> [].
Proof. unfold utf8_octets. tests; discriminate. Qed.

Lemma encoded_not_nil (c : N) (r : units) :
  forgiving_base64_encode (utf8 (c :: r)) <> [].
Proof.
  assert (H : utf8 (c :: r) <> []).
  { cbn [utf8]. destruct (leading_surrogate c); [destruct r as [|d r']|];
      try apply utf8_octets_not_nil;
      intros E; apply app_eq_nil in E; destruct E as [E _];
      now apply utf8_octets_not_nil in E. }
  destruct (utf8 (c :: r)) as [|x [|y [|z l]]]; [easy|discriminate ..].
Qed.

(** X16. The two helpers of the shared address are inverse on every string
    whose surrogates are paired: [encodeStringToBase64] returns a text
    that [decodeStringFromBase64] turns back into the string, code unit
    by code unit.  On a string with a lone surrogate
    [encodeStringToBase64] throws URIError. *)
Theorem shared_text_round_trip (str : units) :
  Forall (fun c => c < 0x10000) str ->
  if well_formed str
  then exists base64,
         encodeStringToBase64 str = Done base64
         /\ decodeStringFromBase64 base64 = Done str
  else encodeStringToBase64 str = Failed URIError.
Proof.
  intros Hu. destruct (well_formed str) eqn:Hw.
  - exists (forgiving_base64_encode (utf8 str)). split.
    + now apply encodeStringToBase64_utf8.
    + now apply decode_encoded.
  - unfold encodeStringToBase64. now rewrite encode_ill_formed.
Qed.

Lemma shared_text_round_trip_witness :
  exists base64,
    encodeStringToBase64 [104; 233; 0x20AC; 0xD83D; 0xDE00; 37] = Done base64
    /\ decodeStringFromBase64 base64
       = Done [104; 233; 0x20AC; 0xD83D; 0xDE00; 37].
Proof.
  refine (shared_text_round_trip [104; 233; 0x20AC; 0xD83D; 0xDE00; 37] _).
  repeat (apply Forall_cons; [reflexivity|]). apply Forall_nil.
Defined.

(** X17. The parameter [code] that the sync effect leaves for an input text
    restores that text: [getInitialInputText] returns the same text on
    it, or the placeholder example when the text was empty, and keeps
    the parameter. *)
Theorem reload_restores_the_text (text : units) :
  Forall (fun c => c < 0x10000) text -> well_formed text = true ->
  exists code,
    syncCode text = Done code
    /\ getInitialInputText (Window code)
       = (match text with [] => PLACEHOLDER_TEXT | _ => text end, code).
Proof.
  intros Hu Hw. destruct text as [|c r].
  - exists None. split; reflexivity.
  - unfold syncCode.
    destruct (list_eq_dec N.eq_dec (c :: r) PLACEHOLDER_TEXT) as [E|E].
    + exists None. split; [reflexivity|]. now rewrite E.
    + cbn [andb negb]. rewrite encodeStringToBase64_utf8 by assumption.
      cbn [and_then]. eexists. split; [reflexivity|].
      cbn [getInitialInputText].
      pose proof (encoded_not_nil c r) as Hne.
      pose proof (decode_encoded (c :: r) Hu Hw) as Hd.
      destruct (forgiving_base64_encode (utf8 (c :: r))) as [|x l];
        [easy|].
      now rewrite Hd.
Qed.

Lemma reload_restores_the_text_witness :
  exists code,
    syncCode [97; 0x20AC; 0xD83D; 0xDE00] = Done code
    /\ getInitialInputText (Window code)
       = ([97; 0x20AC; 0xD83D; 0xDE00], code).
Proof.
  refine (reload_restores_the_text [97; 0x20AC; 0xD83D; 0xDE00] _ _).
  - repeat (apply Forall_cons; [reflexivity|]). apply Forall_nil.
  - reflexivity.
Defined.

(** X18. The ray.so link of a non-empty output is the fixed address followed
    by a code that [decodeStringFromBase64] turns back into the output,
    and by the title [Color%20Convert%20Output]; when the output has a
    lone surrogate the link is [#]. *)
Theorem ray_link_carries_the_output (outputText : units) :
  Forall (fun c => c < 0x10000) outputText -> outputText <> [] ->
  if well_formed outputText
  then exists code,
         raySoUrl outputText
         = chars $"https://www.ray.so/#code=" ++ code
           ++ chars $"&title=Color%20Convert%20Output"
         /\ decodeStringFromBase64 code = Done outputText
  else raySoUrl outputText = chars $"#".
Proof.
  intros Hu Hne. destruct outputText as [|c r]; [easy|].
  unfold raySoUrl. destruct (well_formed (c :: r)) eqn:Hw.
  - exists (forgiving_base64_encode (utf8 (c :: r))). split.
    + rewrite encodeStringToBase64_utf8 by assumption. reflexivity.
    + now apply decode_encoded.
  - unfold encodeStringToBase64. now rewrite encode_ill_formed.
Qed.

Lemma ray_link_carries_the_output_witness :
  exists code,
    raySoUrl [35; 102; 233; 0xD83D; 0xDE00]
    = chars $"https://www.ray.so/#code=" ++ code
      ++ chars $"&title=Color%20Convert%20Output"
    /\ decodeStringFromBase64 code = Done [35; 102; 233; 0xD83D; 0xDE00].
Proof.
  refine (ray_link_carries_the_output [35; 102; 233; 0xD83D; 0xDE00] _ _).
  - repeat (apply Forall_cons; [reflexivity|]). apply Forall_nil.
  - discriminate.
Defined.

End Sharing.
